(** * Neon Growth: the hexagonal-grid agent simulation of [circuit-board.js]

    A shallow embedding of the simulation core ([Car] and [CircuitBoard]) and
    the properties its specification states about it.

    Conventions of the embedding.
    - A JavaScript number is an exact rational ([Q]); timestamps, identifiers,
      counters and direction indices, which the program only ever produces as
      integers, are [Z].  Rounding error of IEEE doubles is not modelled.
    - [Math.sqrt] is a parameter [sqrt : Q -> Q]; the only fact ever assumed
      about it is that its results are not negative.
    - [Math.random()] and [Date.now()] are oracles: the n-th call returns
      [random n], resp. [clock n].  A draw of [Math.random()] carries the
      proof that it lies in [0, 1).
    - An object used as a dictionary is a [gmap]; [this] of [CircuitBoard] is
      threaded through a small state monad together with the two call
      counters of the oracles.
    - Canvas drawing and colour computation are left out (they do not feed
      back into the simulation state), and so are the fields only they read
      ([phase], [color], [straightMoves], [prevX], [prevY], [theme],
      [carPaths], [angle] of a direction).  The readings of the clock they
      make ([getSegmentColor] for every segment of every frame, the
      [startTime] of a [carPaths] entry) are left out with them: [clock n]
      is the n-th reading of the simulation core, and the call counter of
      the clock does not count the readings of the program. *)

From Stdlib Require Import Ascii QArith Qround Qabs Qminmax Lqa ZArith Lia.
From stdpp Require Import gmap strings list fin_maps pretty sorting.

(** ** JavaScript primitives *)

Module JS.

#[local] Open Scope Q_scope.

(** [Math.round]: nearest integer, halves towards +infinity. *)
Definition Math_round (x : Q) : Z := Qfloor (x + (1 # 2)).

Definition Math_floor (x : Q) : Z := Qfloor x.

Definition Math_ceil (x : Q) : Z := Qceiling x.

Definition Math_pow2 (x : Q) : Q := x * x.

(** Comparisons of numbers, as booleans. *)
Definition ltb (a b : Q) : bool :=
  match a ?= b with Lt => true | _ => false end.

Definition leb (a b : Q) : bool :=
  match a ?= b with Gt => false | _ => true end.

Definition eqb (a b : Q) : bool :=
  match a ?= b with Eq => true | _ => false end.

(** Truthiness of a dictionary entry holding a number: [undefined] and [0]
    are falsy. *)
Definition truthy (o : option Z) : bool :=
  match o with
  | Some v => negb (v =? 0)%Z
  | None => false
  end.

(** [o || 0] for such an entry. *)
Definition or0 (o : option Z) : Z :=
  match o with
  | Some v => v
  | None => 0%Z
  end.

(** Truthiness of a string: only the empty string is falsy. *)
Definition truthy_str (o : option string) : bool :=
  match o with
  | Some s => negb (String.eqb s "")
  | None => false
  end.

(** A fixed-point square root (three decimals), to run the model on
    concrete inputs; a possible value of the parameter [sqrt]. *)
Definition sqrt_milli (x : Q) : Q :=
  inject_Z (Z.sqrt (Qfloor (x * 1000000))) / 1000.

End JS.

(** A draw of [Math.random()]: a number in [0, 1). *)
Record unit_draw := UnitDraw {
  draw_val :> Q;
  draw_range : (0 <= draw_val < 1)%Q
}.

(** ** Trace segments (the elements of [allLines]) *)

Record Segment := {
  x1 : Q; y1 : Q; x2 : Q; y2 : Q;
  carId : Z;
  seg_hueOffset : Q;
  seg_birthTime : Z;
  timestamp : Z;
  segmentIndex : Z
}.

Inductive Strategy := WallFollower | Wanderer | Explorer | Spiral.

Inductive Turn := TurnRight | TurnLeft.

#[global] Instance Strategy_eq_dec : EqDecision Strategy.
Proof. solve_decision. Defined.

#[global] Instance Turn_eq_dec : EqDecision Turn.
Proof. solve_decision. Defined.

(** ** Snapping a point to the lattice

    The source repeats this computation in [Car.tryDirection] (as [gridX],
    [gridY]), in PHASE 2 of [draw] and in [executeMove] (as [snappedX],
    [snappedY]): the nearest row from [y], then the nearest column given the
    offset of that row. *)

Definition snapToGrid (hexSize x y : Q) : Q * Q :=
  let rowHeight := (hexSize * 0.866)%Q in
  let row := JS.Math_round (y / rowHeight) in
  let xOffset := if (Z.rem row 2 =? 0)%Z then 0%Q else (hexSize / 2)%Q in
  let col := JS.Math_round ((x - xOffset) / hexSize) in
  (inject_Z col * hexSize + xOffset, inject_Z row * rowHeight)%Q.

(** [getHexKey], the same function in [Car] and in [CircuitBoard]. *)
Definition getHexKey (x y : Q) : string :=
  pretty (JS.Math_round x) +:+ "," +:+ pretty (JS.Math_round y).

(** ** Car *)

Module Car.

#[local] Open Scope Q_scope.

Record Dir := { dx : Q; dy : Q }.

(** What [tryDirection] returns when it does not return [null]. *)
Record Move := { mx : Q; my : Q; mdirection : Z }.

Record t := {
  x : Q;
  y : Q;
  hexSize : Q;
  canvasWidth : Q;
  canvasHeight : Q;
  stuck : bool;
  id : Z;
  birthTime : Z;
  hueOffset : Q;
  distanceTraveled : Q;
  cellsVisited : Z;
  strategy : Strategy;
  preferredTurnDirection : Turn;
  previousDirection : option Z;
  currentDirection : Z
}.

(** The constructor.  [now] is the value [Date.now()] returns for
    [birthTime]; [rHue], [rTurn] and [rDir] are the three draws of
    [Math.random()], in the order the constructor makes them.  The
    callers in [CircuitBoard] always pass a strategy. *)
Definition new (x y canvasWidth canvasHeight hexSize : Q) (strategy : Strategy)
    (carId : Z) (now : Z) (rHue rTurn rDir : Q) : t :=
  {| x := x; y := y; hexSize := hexSize;
     canvasWidth := canvasWidth; canvasHeight := canvasHeight;
     stuck := false; id := carId; birthTime := now;
     hueOffset := rHue * 360;
     distanceTraveled := 0; cellsVisited := 0;
     strategy := strategy;
     preferredTurnDirection := if JS.ltb rTurn 0.5 then TurnRight else TurnLeft;
     previousDirection := None;
     currentDirection := JS.Math_floor (rDir * 6) |}.

Definition set_stuck (v : bool) (c : t) : t :=
  {| x := x c; y := y c; hexSize := hexSize c;
     canvasWidth := canvasWidth c; canvasHeight := canvasHeight c;
     stuck := v; id := id c; birthTime := birthTime c;
     hueOffset := hueOffset c;
     distanceTraveled := distanceTraveled c; cellsVisited := cellsVisited c;
     strategy := strategy c;
     preferredTurnDirection := preferredTurnDirection c;
     previousDirection := previousDirection c;
     currentDirection := currentDirection c |}.

(** [this.hexDirections[dirIndex]]; an index outside 0..5 has no entry
    (the source would then fail on [dir.dx]). *)
Definition hexDirections (hexSize : Q) (dirIndex : Z) : option Dir :=
  let rowHeight := hexSize * 0.866 in
  match dirIndex with
  | 0%Z => Some {| dx := hexSize; dy := 0 |}
  | 1%Z => Some {| dx := hexSize / 2; dy := rowHeight |}
  | 2%Z => Some {| dx := - hexSize / 2; dy := rowHeight |}
  | 3%Z => Some {| dx := - hexSize; dy := 0 |}
  | 4%Z => Some {| dx := - hexSize / 2; dy := - rowHeight |}
  | 5%Z => Some {| dx := hexSize / 2; dy := - rowHeight |}
  | _ => None
  end.

Definition getHexKey (x y : Q) : string := getHexKey x y.

Section WithSqrt.

Variable sqrt : Q -> Q.

Definition linesIntersect (c : t) (x1 y1 x2 y2 x3 y3 x4 y4 : Q) : bool :=
  let threshold := hexSize c * 0.15 in
  if (JS.ltb (Qabs (x1 - x3)) threshold && JS.ltb (Qabs (y1 - y3)) threshold)
     || (JS.ltb (Qabs (x1 - x4)) threshold && JS.ltb (Qabs (y1 - y4)) threshold)
     || (JS.ltb (Qabs (x2 - x3)) threshold && JS.ltb (Qabs (y2 - y3)) threshold)
     || (JS.ltb (Qabs (x2 - x4)) threshold && JS.ltb (Qabs (y2 - y4)) threshold)
  then false
  else
    let denom := ((y4 - y3) * (x2 - x1)) - ((x4 - x3) * (y2 - y1)) in
    if JS.ltb (Qabs denom) 0.0001 then false
    else
      let ua := (((x4 - x3) * (y1 - y3)) - ((y4 - y3) * (x1 - x3))) / denom in
      let ub := (((x2 - x1) * (y1 - y3)) - ((y2 - y1) * (x1 - x3))) / denom in
      JS.ltb 0.05 ua && JS.ltb ua 0.95 && JS.ltb 0.05 ub && JS.ltb ub 0.95.

(** One round of the loop over [step]: does the sample point at
    [step / numSteps] lie on an occupied grid point that is not the
    car's own? *)
Definition pathBlockedAt (c : t) (dir : Dir) (occupiedCells : gmap string Z)
    (numSteps step : Z) : bool :=
  let ratio := inject_Z step / inject_Z numSteps in
  let checkX := x c + dx dir * ratio in
  let checkY := y c + dy dir * ratio in
  let '(gridX, gridY) := snapToGrid (hexSize c) checkX checkY in
  let distance :=
    sqrt (JS.Math_pow2 (checkX - gridX) + JS.Math_pow2 (checkY - gridY)) in
  if JS.ltb distance (hexSize c * 0.6) then
    let checkKey := getHexKey gridX gridY in
    JS.truthy (occupiedCells !! checkKey)
    && negb (String.eqb checkKey (getHexKey (x c) (y c)))
  else false.

(** The lines the crossing check looks at: from index
    [max 0 (length - 100)] on. *)
Definition recentLines (allLines : list Segment) : list Segment :=
  let checkStart := Z.max 0 (Z.of_nat (length allLines) - 100) in
  drop (Z.to_nat checkStart) allLines.

Definition tryDirection (c : t) (dirIndex : Z) (occupiedCells : gmap string Z)
    (canvasWidth canvasHeight : Q) (allLines : list Segment) : option Move :=
  match hexDirections (hexSize c) dirIndex with
  | None => None
  | Some dir =>
    let nextX := x c + dx dir in
    let nextY := y c + dy dir in
    if JS.ltb nextX 0 || JS.leb canvasWidth nextX
       || JS.ltb nextY 0 || JS.leb canvasHeight nextY
    then None
    else
      let key := getHexKey nextX nextY in
      if JS.truthy (occupiedCells !! key) then None
      else
        let numSteps := 3%Z in
        if existsb (pathBlockedAt c dir occupiedCells numSteps)
             (seqZ 1 (numSteps - 1))
        then None
        else if existsb
             (fun line =>
                linesIntersect c (x c) (y c) nextX nextY
                  (x1 line) (y1 line) (x2 line) (y2 line))
             (recentLines allLines)
        then None
        else Some {| mx := nextX; my := nextY; mdirection := dirIndex |}
  end.

End WithSqrt.

End Car.


(** ** CircuitBoard *)

Module CircuitBoard.

#[local] Open Scope Q_scope.

(** One entry of [strategyFitness]. *)
Record Fitness := {
  totalLifetime : Q;
  count : Z;
  totalDistance : Q;
  totalCells : Z
}.

(** [strategyFitness]: an object with exactly the four strategy names as keys. *)
Record FitnessTable := {
  wall_follower : Fitness;
  wanderer : Fitness;
  explorer : Fitness;
  spiral : Fitness
}.

Definition fitnessOf (tbl : FitnessTable) (s : Strategy) : Fitness :=
  match s with
  | WallFollower => wall_follower tbl
  | Wanderer => wanderer tbl
  | Explorer => explorer tbl
  | Spiral => spiral tbl
  end.

Definition setFitness (s : Strategy) (f : Fitness) (tbl : FitnessTable) : FitnessTable :=
  match s with
  | WallFollower =>
    {| wall_follower := f; wanderer := wanderer tbl;
       explorer := explorer tbl; spiral := spiral tbl |}
  | Wanderer =>
    {| wall_follower := wall_follower tbl; wanderer := f;
       explorer := explorer tbl; spiral := spiral tbl |}
  | Explorer =>
    {| wall_follower := wall_follower tbl; wanderer := wanderer tbl;
       explorer := f; spiral := spiral tbl |}
  | Spiral =>
    {| wall_follower := wall_follower tbl; wanderer := wanderer tbl;
       explorer := explorer tbl; spiral := f |}
  end.

(** What [calculateMove] returns when it does not return [null]. *)
Record Move := {
  x : Q;
  y : Q;
  direction : Z;
  oldDirection : Z;
  is180 : bool
}.

(** The fields of [this].  [canvasWidth] and [canvasHeight] stand for
    [this.canvas.width] and [this.canvas.height]; [cleanupFrameCounter] is
    created by [clearFadedCells] with the value 0 on its first run. *)
Record t := {
  hexSize : Q;
  occupiedCells : gmap string Z;
  cellTimestamps : gmap string Z;
  cellOwners : gmap string Z;
  allLines : list Segment;
  cars : list Car.t;
  maxCars : Q;
  nextCarId : Z;
  deadCarIds : gmap Z Z;
  strategyFitness : FitnessTable;
  mutationRate : Q;
  infiniteLifetime : bool;
  traceLifetime : Q;
  fadeDuration : Q;
  lineWidth : Q;
  stepDelay : Q;
  lastStepTime : Z;
  spawnDelay : Q;
  lastSpawnTime : Z;
  canvasWidth : Q;
  canvasHeight : Q;
  cleanupFrameCounter : Z
}.

Definition set_occupiedCells (v : gmap string Z) (b : t) : t :=
  {| hexSize := hexSize b; occupiedCells := v; cellTimestamps := cellTimestamps b;
     cellOwners := cellOwners b; allLines := allLines b; cars := cars b;
     maxCars := maxCars b; nextCarId := nextCarId b; deadCarIds := deadCarIds b;
     strategyFitness := strategyFitness b; mutationRate := mutationRate b;
     infiniteLifetime := infiniteLifetime b; traceLifetime := traceLifetime b;
     fadeDuration := fadeDuration b; lineWidth := lineWidth b;
     stepDelay := stepDelay b; lastStepTime := lastStepTime b;
     spawnDelay := spawnDelay b; lastSpawnTime := lastSpawnTime b;
     canvasWidth := canvasWidth b; canvasHeight := canvasHeight b;
     cleanupFrameCounter := cleanupFrameCounter b |}.

Definition set_cellTimestamps (v : gmap string Z) (b : t) : t :=
  {| hexSize := hexSize b; occupiedCells := occupiedCells b; cellTimestamps := v;
     cellOwners := cellOwners b; allLines := allLines b; cars := cars b;
     maxCars := maxCars b; nextCarId := nextCarId b; deadCarIds := deadCarIds b;
     strategyFitness := strategyFitness b; mutationRate := mutationRate b;
     infiniteLifetime := infiniteLifetime b; traceLifetime := traceLifetime b;
     fadeDuration := fadeDuration b; lineWidth := lineWidth b;
     stepDelay := stepDelay b; lastStepTime := lastStepTime b;
     spawnDelay := spawnDelay b; lastSpawnTime := lastSpawnTime b;
     canvasWidth := canvasWidth b; canvasHeight := canvasHeight b;
     cleanupFrameCounter := cleanupFrameCounter b |}.

Definition set_cellOwners (v : gmap string Z) (b : t) : t :=
  {| hexSize := hexSize b; occupiedCells := occupiedCells b;
     cellTimestamps := cellTimestamps b;
     cellOwners := v; allLines := allLines b; cars := cars b;
     maxCars := maxCars b; nextCarId := nextCarId b; deadCarIds := deadCarIds b;
     strategyFitness := strategyFitness b; mutationRate := mutationRate b;
     infiniteLifetime := infiniteLifetime b; traceLifetime := traceLifetime b;
     fadeDuration := fadeDuration b; lineWidth := lineWidth b;
     stepDelay := stepDelay b; lastStepTime := lastStepTime b;
     spawnDelay := spawnDelay b; lastSpawnTime := lastSpawnTime b;
     canvasWidth := canvasWidth b; canvasHeight := canvasHeight b;
     cleanupFrameCounter := cleanupFrameCounter b |}.

Definition set_allLines (v : list Segment) (b : t) : t :=
  {| hexSize := hexSize b; occupiedCells := occupiedCells b;
     cellTimestamps := cellTimestamps b;
     cellOwners := cellOwners b; allLines := v; cars := cars b;
     maxCars := maxCars b; nextCarId := nextCarId b; deadCarIds := deadCarIds b;
     strategyFitness := strategyFitness b; mutationRate := mutationRate b;
     infiniteLifetime := infiniteLifetime b; traceLifetime := traceLifetime b;
     fadeDuration := fadeDuration b; lineWidth := lineWidth b;
     stepDelay := stepDelay b; lastStepTime := lastStepTime b;
     spawnDelay := spawnDelay b; lastSpawnTime := lastSpawnTime b;
     canvasWidth := canvasWidth b; canvasHeight := canvasHeight b;
     cleanupFrameCounter := cleanupFrameCounter b |}.

Definition set_cars (v : list Car.t) (b : t) : t :=
  {| hexSize := hexSize b; occupiedCells := occupiedCells b;
     cellTimestamps := cellTimestamps b;
     cellOwners := cellOwners b; allLines := allLines b; cars := v;
     maxCars := maxCars b; nextCarId := nextCarId b; deadCarIds := deadCarIds b;
     strategyFitness := strategyFitness b; mutationRate := mutationRate b;
     infiniteLifetime := infiniteLifetime b; traceLifetime := traceLifetime b;
     fadeDuration := fadeDuration b; lineWidth := lineWidth b;
     stepDelay := stepDelay b; lastStepTime := lastStepTime b;
     spawnDelay := spawnDelay b; lastSpawnTime := lastSpawnTime b;
     canvasWidth := canvasWidth b; canvasHeight := canvasHeight b;
     cleanupFrameCounter := cleanupFrameCounter b |}.

Definition set_nextCarId (v : Z) (b : t) : t :=
  {| hexSize := hexSize b; occupiedCells := occupiedCells b;
     cellTimestamps := cellTimestamps b;
     cellOwners := cellOwners b; allLines := allLines b; cars := cars b;
     maxCars := maxCars b; nextCarId := v; deadCarIds := deadCarIds b;
     strategyFitness := strategyFitness b; mutationRate := mutationRate b;
     infiniteLifetime := infiniteLifetime b; traceLifetime := traceLifetime b;
     fadeDuration := fadeDuration b; lineWidth := lineWidth b;
     stepDelay := stepDelay b; lastStepTime := lastStepTime b;
     spawnDelay := spawnDelay b; lastSpawnTime := lastSpawnTime b;
     canvasWidth := canvasWidth b; canvasHeight := canvasHeight b;
     cleanupFrameCounter := cleanupFrameCounter b |}.

Definition set_deadCarIds (v : gmap Z Z) (b : t) : t :=
  {| hexSize := hexSize b; occupiedCells := occupiedCells b;
     cellTimestamps := cellTimestamps b;
     cellOwners := cellOwners b; allLines := allLines b; cars := cars b;
     maxCars := maxCars b; nextCarId := nextCarId b; deadCarIds := v;
     strategyFitness := strategyFitness b; mutationRate := mutationRate b;
     infiniteLifetime := infiniteLifetime b; traceLifetime := traceLifetime b;
     fadeDuration := fadeDuration b; lineWidth := lineWidth b;
     stepDelay := stepDelay b; lastStepTime := lastStepTime b;
     spawnDelay := spawnDelay b; lastSpawnTime := lastSpawnTime b;
     canvasWidth := canvasWidth b; canvasHeight := canvasHeight b;
     cleanupFrameCounter := cleanupFrameCounter b |}.

Definition set_strategyFitness (v : FitnessTable) (b : t) : t :=
  {| hexSize := hexSize b; occupiedCells := occupiedCells b;
     cellTimestamps := cellTimestamps b;
     cellOwners := cellOwners b; allLines := allLines b; cars := cars b;
     maxCars := maxCars b; nextCarId := nextCarId b; deadCarIds := deadCarIds b;
     strategyFitness := v; mutationRate := mutationRate b;
     infiniteLifetime := infiniteLifetime b; traceLifetime := traceLifetime b;
     fadeDuration := fadeDuration b; lineWidth := lineWidth b;
     stepDelay := stepDelay b; lastStepTime := lastStepTime b;
     spawnDelay := spawnDelay b; lastSpawnTime := lastSpawnTime b;
     canvasWidth := canvasWidth b; canvasHeight := canvasHeight b;
     cleanupFrameCounter := cleanupFrameCounter b |}.

Definition set_lastStepTime (v : Z) (b : t) : t :=
  {| hexSize := hexSize b; occupiedCells := occupiedCells b;
     cellTimestamps := cellTimestamps b;
     cellOwners := cellOwners b; allLines := allLines b; cars := cars b;
     maxCars := maxCars b; nextCarId := nextCarId b; deadCarIds := deadCarIds b;
     strategyFitness := strategyFitness b; mutationRate := mutationRate b;
     infiniteLifetime := infiniteLifetime b; traceLifetime := traceLifetime b;
     fadeDuration := fadeDuration b; lineWidth := lineWidth b;
     stepDelay := stepDelay b; lastStepTime := v;
     spawnDelay := spawnDelay b; lastSpawnTime := lastSpawnTime b;
     canvasWidth := canvasWidth b; canvasHeight := canvasHeight b;
     cleanupFrameCounter := cleanupFrameCounter b |}.

Definition set_lastSpawnTime (v : Z) (b : t) : t :=
  {| hexSize := hexSize b; occupiedCells := occupiedCells b;
     cellTimestamps := cellTimestamps b;
     cellOwners := cellOwners b; allLines := allLines b; cars := cars b;
     maxCars := maxCars b; nextCarId := nextCarId b; deadCarIds := deadCarIds b;
     strategyFitness := strategyFitness b; mutationRate := mutationRate b;
     infiniteLifetime := infiniteLifetime b; traceLifetime := traceLifetime b;
     fadeDuration := fadeDuration b; lineWidth := lineWidth b;
     stepDelay := stepDelay b; lastStepTime := lastStepTime b;
     spawnDelay := spawnDelay b; lastSpawnTime := v;
     canvasWidth := canvasWidth b; canvasHeight := canvasHeight b;
     cleanupFrameCounter := cleanupFrameCounter b |}.

Definition set_cleanupFrameCounter (v : Z) (b : t) : t :=
  {| hexSize := hexSize b; occupiedCells := occupiedCells b;
     cellTimestamps := cellTimestamps b;
     cellOwners := cellOwners b; allLines := allLines b; cars := cars b;
     maxCars := maxCars b; nextCarId := nextCarId b; deadCarIds := deadCarIds b;
     strategyFitness := strategyFitness b; mutationRate := mutationRate b;
     infiniteLifetime := infiniteLifetime b; traceLifetime := traceLifetime b;
     fadeDuration := fadeDuration b; lineWidth := lineWidth b;
     stepDelay := stepDelay b; lastStepTime := lastStepTime b;
     spawnDelay := spawnDelay b; lastSpawnTime := lastSpawnTime b;
     canvasWidth := canvasWidth b; canvasHeight := canvasHeight b;
     cleanupFrameCounter := v |}.

(** *** The state monad

    A [World] is [this] together with the number of calls made so far to
    [Math.random()] and to [Date.now()]. *)

Record World := {
  this : t;
  randomCalls : nat;
  clockCalls : nat
}.

Definition M (A : Type) : Type := World -> A * World.

Definition ret {A : Type} (a : A) : M A := fun w => (a, w).

Definition bind {A B : Type} (m : M A) (k : A -> M B) : M B :=
  fun w => let r := m w in k (fst r) (snd r).

Definition get : M t := fun w => (this w, w).

Definition modify (f : t -> t) : M unit :=
  fun w => (tt, {| this := f (this w); randomCalls := randomCalls w;
                   clockCalls := clockCalls w |}).

Notation "x <- m ;; k" := (bind m (fun x => k))
  (at level 100, m at next level, right associativity).
Notation "m ;; k" := (bind m (fun _ => k))
  (at level 100, right associativity).

(** A [for] loop over the elements of a list. *)
Fixpoint forM_ {A : Type} (l : list A) (body : A -> M unit) : M unit :=
  match l with
  | [] => ret tt
  | a :: l' => body a ;; forM_ l' body
  end.

(** A loop that carries a local variable along. *)
Fixpoint foldM {A S : Type} (l : list A) (body : A -> S -> M S) (s : S) : M S :=
  match l with
  | [] => ret s
  | a :: l' => s' <- body a s ;; foldM l' body s'
  end.

Definition exec {A : Type} (m : M A) (w : World) : World := snd (m w).

Definition eval {A : Type} (m : M A) (w : World) : A := fst (m w).

(** The outcome of running a constructor: the object, or an exception. *)
Inductive Outcome (A : Type) :=
| Returned (a : A)
| Thrown (message : string).

Arguments Returned {A} a.
Arguments Thrown {A} message.

Section Oracles.

Variable sqrt : Q -> Q.
Variable random : nat -> unit_draw.
Variable clock : nat -> Z.

(** [Math.random()] *)
Definition Math_random : M Q :=
  fun w => (draw_val (random (randomCalls w)),
            {| this := this w; randomCalls := S (randomCalls w);
               clockCalls := clockCalls w |}).

(** [Date.now()] *)
Definition Date_now : M Z :=
  fun w => (clock (clockCalls w),
            {| this := this w; randomCalls := randomCalls w;
               clockCalls := S (clockCalls w) |}).

(** *** selectStrategyByFitness *)

Definition strategies : list Strategy := [WallFollower; Wanderer; Explorer; Spiral].

(** [strategies[i]]; the index is [Math.floor(Math.random() * 4)] and so
    one of 0..3. *)
Definition strategyAt (i : Z) : Strategy :=
  default Spiral (strategies !! Z.to_nat i).

Definition strategyWeight (fitness : Fitness) : Q :=
  if (0 <? count fitness)%Z then
    let avgLifetime := totalLifetime fitness / inject_Z (count fitness) in
    let avgDistance := totalDistance fitness / inject_Z (count fitness) in
    let avgCells := inject_Z (totalCells fitness) / inject_Z (count fitness) in
    let combinedFitness := (avgCells * 2) + avgLifetime + (avgDistance / 100) in
    JS.Math_pow2 combinedFitness
  else 1.

(** The loop of the weighted selection, with its fallback to the last
    strategy. *)
Fixpoint roulette (random cumulativeWeight : Q) (weights : list Q)
    (strats : list Strategy) : Strategy :=
  match weights, strats with
  | weight :: weights', s :: strats' =>
    let cumulativeWeight := cumulativeWeight + weight in
    if JS.leb random cumulativeWeight then s
    else roulette random cumulativeWeight weights' strats'
  | _, _ => Spiral
  end.

Definition selectStrategyByFitness : M Strategy :=
  r <- Math_random ;;
  b <- get ;;
  if JS.ltb r (mutationRate b) then
    r' <- Math_random ;;
    ret (strategyAt (JS.Math_floor (r' * 4)))
  else
    let weights :=
      map (fun s => strategyWeight (fitnessOf (strategyFitness b) s)) strategies in
    let totalWeight := fold_left Qplus weights 0 in
    if JS.eqb totalWeight 0 then
      r' <- Math_random ;;
      ret (strategyAt (JS.Math_floor (r' * 4)))
    else
      r' <- Math_random ;;
      ret (roulette (r' * totalWeight) 0 weights strategies).

(** *** spawnCar *)

Definition getHexKey (x y : Q) : string := getHexKey x y.

(** The body both searches of [spawnCar] run on a free position: create
    the car, mark the cell, push the car. *)
Definition placeCar (gridX gridY : Q) (key : string) (selectedStrategy : Strategy) :
    M unit :=
  b <- get ;;
  let carId := nextCarId b in
  modify (set_nextCarId (carId + 1)%Z) ;;
  now <- Date_now ;;
  rHue <- Math_random ;;
  rTurn <- Math_random ;;
  rDir <- Math_random ;;
  let car := Car.new gridX gridY (canvasWidth b) (canvasHeight b) (hexSize b)
               selectedStrategy carId now rHue rTurn rDir in
  modify (fun b =>
    set_occupiedCells
      (<[key := (JS.or0 (occupiedCells b !! key) + 1)%Z]> (occupiedCells b)) b) ;;
  now' <- Date_now ;;
  modify (fun b => set_cellTimestamps (<[key := now']> (cellTimestamps b)) b) ;;
  modify (fun b => set_cellOwners (<[key := carId]> (cellOwners b)) b) ;;
  modify (fun b => set_cars (cars b ++ [car]) b).

(** The grid point of a row and a column. *)
Definition gridPoint (hexSize : Q) (row col : Z) : Q * Q :=
  let rowHeight := hexSize * 0.866 in
  let xOffset := if (Z.rem row 2 =? 0)%Z then 0 else hexSize / 2 in
  (inject_Z col * hexSize + xOffset, inject_Z row * rowHeight).

(** The [while (attempts < maxAttempts)] loop; [remaining] is
    [maxAttempts - attempts]. *)
Fixpoint spawnCar_random (remaining : nat) (selectedStrategy : Strategy) : M bool :=
  match remaining with
  | O => ret false
  | S remaining' =>
    b <- get ;;
    let rowHeight := hexSize b * 0.866 in
    rRow <- Math_random ;;
    let row := JS.Math_floor (rRow * (canvasHeight b / rowHeight)) in
    rCol <- Math_random ;;
    let col := JS.Math_floor (rCol * (canvasWidth b / hexSize b)) in
    let p := gridPoint (hexSize b) row col in
    let key := getHexKey (fst p) (snd p) in
    if negb (JS.truthy (occupiedCells b !! key)) then
      placeCar (fst p) (snd p) key selectedStrategy ;;
      ret true
    else spawnCar_random remaining' selectedStrategy
  end.

(** The positions the exhaustive search visits, in its order: rows
    outside, columns inside. *)
Definition scanPositions (b : t) : list (Q * Q) :=
  let rowHeight := hexSize b * 0.866 in
  let numRows := JS.Math_ceil (canvasHeight b / rowHeight) in
  let numCols := JS.Math_ceil (canvasWidth b / hexSize b) in
  flat_map (fun row => map (fun col => gridPoint (hexSize b) row col) (seqZ 0 numCols))
    (seqZ 0 numRows).

(** The test the exhaustive search makes on a position. *)
Definition scanFree (b : t) (p : Q * Q) : bool :=
  (JS.leb 0 (fst p) && JS.ltb (fst p) (canvasWidth b)
   && JS.leb 0 (snd p) && JS.ltb (snd p) (canvasHeight b))
  && negb (JS.truthy (occupiedCells b !! getHexKey (fst p) (snd p))).

Definition spawnCar_scan (selectedStrategy : Strategy) : M bool :=
  b <- get ;;
  match find (scanFree b) (scanPositions b) with
  | Some p =>
    placeCar (fst p) (snd p) (getHexKey (fst p) (snd p)) selectedStrategy ;;
    ret true
  | None => ret false
  end.

Definition maxAttempts : nat := 100.

Definition spawnCar : M bool :=
  selectedStrategy <- selectStrategyByFitness ;;
  found <- spawnCar_random maxAttempts selectedStrategy ;;
  if found then ret true
  else spawnCar_scan selectedStrategy.

(** *** calculateMove *)

(** The [priorities] array of every strategy but the explorer, given the
    two coin flips of the wanderer (the draws are made for the wanderer
    only). *)
Definition priorities_fixed (strategy : Strategy) (preferred : Turn)
    (straightAhead : Z) (r1 r2 : Q) : list Z :=
  match strategy with
  | Wanderer =>
    [ straightAhead;
      Z.rem (straightAhead + (if JS.ltb r1 0.5 then 1 else 5)) 6;
      Z.rem (straightAhead + (if JS.ltb r2 0.5 then 2 else 4)) 6;
      Z.rem (straightAhead + 3) 6;
      Z.rem (straightAhead + 1) 6;
      Z.rem (straightAhead + 5) 6 ]%Z
  | Spiral =>
    let turnDir := match preferred with TurnRight => 1 | TurnLeft => 5 end%Z in
    [ Z.rem (straightAhead + turnDir) 6;
      Z.rem (straightAhead + turnDir * 2) 6;
      straightAhead;
      Z.rem (straightAhead + 3) 6;
      Z.rem (straightAhead + (if (turnDir =? 1) then 5 else 1)) 6;
      Z.rem (straightAhead + (if (turnDir =? 1) then 4 else 2)) 6 ]%Z
  | Explorer =>
    map (fun i => Z.rem (straightAhead + i) 6) [0; 1; 2; 3; 4; 5]%Z
  | WallFollower =>
    match preferred with
    | TurnRight =>
      [ Z.rem (straightAhead + 1) 6;
        straightAhead;
        Z.rem (straightAhead + 2) 6;
        Z.rem (straightAhead + 3) 6;
        Z.rem (straightAhead + 4) 6;
        Z.rem (straightAhead + 5) 6 ]%Z
    | TurnLeft =>
      [ Z.rem (straightAhead + 5) 6;
        straightAhead;
        Z.rem (straightAhead + 4) 6;
        Z.rem (straightAhead + 3) 6;
        Z.rem (straightAhead + 2) 6;
        Z.rem (straightAhead + 1) 6 ]%Z
    end
  end.

(** [temp = p[i]; p[i] = p[j]; p[j] = temp].  Both indices are in range
    whenever [j] comes from [Math.floor(Math.random() * (i + 1))]. *)
Definition swap (p : list Z) (i j : nat) : list Z :=
  match p !! i, p !! j with
  | Some pi, Some pj => <[j := pi]> (<[i := pj]> p)
  | _, _ => p
  end.

(** The shuffle loop of the explorer, [for (i = ...; i > 0; i--)]. *)
Fixpoint shuffle (i : nat) (p : list Z) : M (list Z) :=
  match i with
  | O => ret p
  | S i' =>
    r <- Math_random ;;
    let j := JS.Math_floor (r * inject_Z (Z.of_nat i + 1)) in
    shuffle i' (swap p i (Z.to_nat j))
  end.

(** The [priorities] array [calculateMove] builds for a car. *)
Definition priorities (car : Car.t) : M (list Z) :=
  let straightAhead := Car.currentDirection car in
  match Car.strategy car with
  | Wanderer =>
    r1 <- Math_random ;;
    r2 <- Math_random ;;
    ret (priorities_fixed Wanderer (Car.preferredTurnDirection car) straightAhead r1 r2)
  | Explorer =>
    let p := priorities_fixed Explorer (Car.preferredTurnDirection car)
               straightAhead 0 0 in
    shuffle (length p - 1) p
  | s => ret (priorities_fixed s (Car.preferredTurnDirection car) straightAhead 0 0)
  end.

Definition scoreMove (move : Car.Move) (car : Car.t) : Q := 100.

(** The loop of [calculateMove] over the priorities. *)
Fixpoint firstValidMove (b : t) (car : Car.t) (prios : list Z) : option Move :=
  match prios with
  | [] => None
  | dirIndex :: prios' =>
    match Car.tryDirection sqrt car dirIndex (occupiedCells b)
            (canvasWidth b) (canvasHeight b) (allLines b) with
    | Some move =>
      if JS.leb 0 (scoreMove move car) then
        let turnAngle := Z.rem (dirIndex - Car.currentDirection car + 6) 6 in
        Some {| x := Car.mx move; y := Car.my move;
                direction := Car.mdirection move;
                oldDirection := Car.currentDirection car;
                is180 := (turnAngle =? 3)%Z |}
      else firstValidMove b car prios'
    | None => firstValidMove b car prios'
    end
  end.

Definition calculateMove (car : Car.t) : M (option Move) :=
  prios <- priorities car ;;
  b <- get ;;
  ret (firstValidMove b car prios).

(** *** executeMove

    The car is an object shared with [this.cars]; the model names it by its
    index in [this.cars] and writes the changed car back at that index. *)

Definition switchPreference (preferred : Turn) (turnAngle : Z) : Turn :=
  match preferred with
  | TurnRight =>
    if ((turnAngle =? 4) || (turnAngle =? 5))%Z then TurnLeft else TurnRight
  | TurnLeft =>
    if ((turnAngle =? 1) || (turnAngle =? 2))%Z then TurnRight else TurnLeft
  end.

(** The car after a committed move to the snapped point. *)
Definition movedCar (car : Car.t) (snappedX snappedY : Q) (move : Move) : Car.t :=
  let oldX := Car.x car in
  let oldY := Car.y car in
  let distance :=
    sqrt (JS.Math_pow2 (snappedX - oldX) + JS.Math_pow2 (snappedY - oldY)) in
  let turnAngle := Z.rem (direction move - Car.currentDirection car + 6) 6 in
  {| Car.x := snappedX; Car.y := snappedY; Car.hexSize := Car.hexSize car;
     Car.canvasWidth := Car.canvasWidth car;
     Car.canvasHeight := Car.canvasHeight car;
     Car.stuck := Car.stuck car; Car.id := Car.id car;
     Car.birthTime := Car.birthTime car; Car.hueOffset := Car.hueOffset car;
     Car.distanceTraveled := Car.distanceTraveled car + distance;
     Car.cellsVisited := (Car.cellsVisited car + 1)%Z;
     Car.strategy := Car.strategy car;
     Car.preferredTurnDirection :=
       switchPreference (Car.preferredTurnDirection car) turnAngle;
     Car.previousDirection := Some (Car.currentDirection car);
     Car.currentDirection := direction move |}.

(** [this.allLines.filter(function(l) { return l.carId === id; }).length] *)
Definition segmentCount (lines : list Segment) (id : Z) : Z :=
  Z.of_nat (length (filter (fun l => carId l = id) lines)).

Definition executeMove (carIndex : nat) (move : Move) : M unit :=
  b <- get ;;
  match cars b !! carIndex with
  | None => ret tt
  | Some car =>
    let snapped := snapToGrid (hexSize b) (x move) (y move) in
    let snappedX := fst snapped in
    let snappedY := snd snapped in
    let key := getHexKey snappedX snappedY in
    if JS.truthy (occupiedCells b !! key) then
      modify (fun b => set_cars (<[carIndex := Car.set_stuck true car]> (cars b)) b)
    else
      modify (fun b =>
        set_occupiedCells
          (<[key := (JS.or0 (occupiedCells b !! key) + 1)%Z]> (occupiedCells b)) b) ;;
      now <- Date_now ;;
      modify (fun b => set_cellTimestamps (<[key := now]> (cellTimestamps b)) b) ;;
      modify (fun b => set_cellOwners (<[key := Car.id car]> (cellOwners b)) b) ;;
      let car' := movedCar car snappedX snappedY move in
      modify (fun b => set_cars (<[carIndex := car']> (cars b)) b) ;;
      now' <- Date_now ;;
      modify (fun b =>
        set_allLines
          (allLines b ++
           [{| x1 := Car.x car; y1 := Car.y car;
               x2 := Car.x car'; y2 := Car.y car';
               carId := Car.id car';
               seg_hueOffset := Car.hueOffset car';
               seg_birthTime := Car.birthTime car';
               timestamp := now';
               segmentIndex := segmentCount (allLines b) (Car.id car') |}]) b)
  end.

(** *** removeCarTraces and clearFadedCells *)

(** [delete m[k]] for every [k] of a list. *)
Definition deleteKeys {V : Type} (keys : list string) (m : gmap string V) :
    gmap string V :=
  foldr delete m keys.

(** The keys a [for (key in m)] loop visits. *)
Definition keysOf {V : Type} (m : gmap string V) : list string :=
  map fst (map_to_list m).

Definition removeCarTraces (id : Z) : M unit :=
  b <- get ;;
  let keysToRemove :=
    filter (fun key => cellOwners b !! key = Some id) (keysOf (cellOwners b)) in
  modify (fun b => set_occupiedCells (deleteKeys keysToRemove (occupiedCells b)) b) ;;
  modify (fun b => set_cellTimestamps (deleteKeys keysToRemove (cellTimestamps b)) b) ;;
  modify (fun b => set_cellOwners (deleteKeys keysToRemove (cellOwners b)) b) ;;
  modify (fun b => set_allLines (filter (fun l => carId l ≠ id) (allLines b)) b) ;;
  modify (fun b => set_deadCarIds (delete id (deadCarIds b)) b).

(** The test [clearFadedCells] makes on a key of [cellTimestamps]: the
    owner of the cell, when the cell is to be removed. *)
Definition fadedOwner (b : t) (currentTime : Z) (aliveCarIds : gset Z)
    (key : string) : option Z :=
  let totalTimeBeforeCleanup := (traceLifetime b + fadeDuration b) * 1000 in
  match cellOwners b !! key with
  | Some ownerId =>
    if decide (ownerId ∈ aliveCarIds) then None
    else
      match deadCarIds b !! ownerId with
      | Some deathTime =>
        let timeSinceDeath := inject_Z (currentTime - deathTime) in
        if JS.ltb totalTimeBeforeCleanup timeSinceDeath then Some ownerId else None
      | None => None
      end
  | None => None
  end.

Definition clearFadedCells (currentTime : Z) (aliveCarIds : gset Z) : M unit :=
  b <- get ;;
  if infiniteLifetime b then ret tt
  else
    let counter := (cleanupFrameCounter b + 1)%Z in
    modify (set_cleanupFrameCounter counter) ;;
    if negb (Z.rem counter 10 =? 0)%Z then ret tt
    else
      let keysToRemove :=
        filter (fun key => is_Some (fadedOwner b currentTime aliveCarIds key))
          (keysOf (cellTimestamps b)) in
      let deadCarIdsToCleanup : gset Z :=
        list_to_set (omap (fadedOwner b currentTime aliveCarIds) keysToRemove) in
      modify (fun b => set_occupiedCells (deleteKeys keysToRemove (occupiedCells b)) b) ;;
      modify (fun b =>
        set_cellTimestamps (deleteKeys keysToRemove (cellTimestamps b)) b) ;;
      modify (fun b => set_cellOwners (deleteKeys keysToRemove (cellOwners b)) b) ;;
      if (0 <? Z.of_nat (length keysToRemove))%Z then
        modify (fun b =>
          set_allLines
            (filter (fun line => carId line ≠ 0%Z ∧ carId line ∉ deadCarIdsToCleanup)
               (allLines b)) b) ;;
        modify (fun b =>
          set_deadCarIds
            (foldr delete (deadCarIds b) (elements deadCarIdsToCleanup)) b)
      else ret tt.

(** *** The brightness of a car's trace ([darknessFactor] in [draw]) *)

Definition darknessFactor (b : t) (isAlive : bool) (deathTime : option Z)
    (currentTime : Z) : Q :=
  if negb (infiniteLifetime b) && negb isAlive then
    match deathTime with
    | Some deathTime =>
      let timeSinceDeath := inject_Z (currentTime - deathTime) in
      let lifetimeMs := traceLifetime b * 1000 in
      if JS.leb timeSinceDeath lifetimeMs then 1
      else
        let fadeStartTime := timeSinceDeath - lifetimeMs in
        let fadeDurationMs := fadeDuration b * 1000 in
        (* [fadeStartTime] is positive here, so a zero divisor gives
           [Infinity] and the minimum is 1 *)
        let fadeProgress :=
          if JS.eqb fadeDurationMs 0 then 1
          else Qmin 1 (fadeStartTime / fadeDurationMs) in
        1 - fadeProgress
    | None => 1
    end
  else 1.

(** The brightness [draw] uses for the segments of car [id]. *)
Definition traceBrightness (b : t) (currentTime : Z) (id : Z) : Q :=
  let isAlive := bool_decide (id ∈ map Car.id (cars b)) in
  darknessFactor b isAlive (deadCarIds b !! id) currentTime.

(** *** draw: the phases of one simulation step *)

(** An element of [intendedMoves].  [entry.car] is [this.cars[carIndex]]. *)
Record Entry := {
  carIndex : nat;
  move : option Move;
  snappedDestKey : option string
}.

Definition set_move (v : option Move) (e : Entry) : Entry :=
  {| carIndex := carIndex e; move := v; snappedDestKey := snappedDestKey e |}.

(** PHASE 1: the intended move of every car that is not stuck. *)
Fixpoint phase1 (i : nat) (cs : list Car.t) : M (list Entry) :=
  match cs with
  | [] => ret []
  | car :: cs' =>
    if negb (Car.stuck car) then
      mv <- calculateMove car ;;
      rest <- phase1 (S i) cs' ;;
      ret ({| carIndex := i; move := mv; snappedDestKey := None |} :: rest)
    else phase1 (S i) cs'
  end.

(** PHASE 2: snap every destination, count the claims on each key. *)
Definition snappedKey (hexSize : Q) (mv : Move) : string :=
  let snapped := snapToGrid hexSize (x mv) (y mv) in
  getHexKey (fst snapped) (snd snapped).

Definition phase2_entry (hexSize : Q) (e : Entry) : Entry :=
  match move e with
  | Some mv =>
    {| carIndex := carIndex e; move := move e;
       snappedDestKey := Some (snappedKey hexSize mv) |}
  | None => e
  end.

Definition phase2_count (hexSize : Q) (destinationCounts : gmap string Z) (e : Entry) :
    gmap string Z :=
  match move e with
  | Some mv =>
    let destKey := snappedKey hexSize mv in
    <[destKey := (JS.or0 (destinationCounts !! destKey) + 1)%Z]> destinationCounts
  | None => destinationCounts
  end.

Definition phase2 (hexSize : Q) (intendedMoves : list Entry) :
    list Entry * gmap string Z :=
  (map (phase2_entry hexSize) intendedMoves,
   fold_left (phase2_count hexSize) intendedMoves ∅).

(** The [else] branch of PHASE 3: the car dies on the spot and leaves a
    zero-length segment. *)
Definition dieOnTheSpot (carIndex : nat) : M unit :=
  b <- get ;;
  match cars b !! carIndex with
  | None => ret tt
  | Some car =>
    modify (fun b => set_cars (<[carIndex := Car.set_stuck true car]> (cars b)) b) ;;
    now <- Date_now ;;
    modify (fun b =>
      set_allLines
        (allLines b ++
         [{| x1 := Car.x car; y1 := Car.y car; x2 := Car.x car; y2 := Car.y car;
             carId := Car.id car;
             seg_hueOffset := Car.hueOffset car;
             seg_birthTime := Car.birthTime car;
             timestamp := now;
             segmentIndex := segmentCount (allLines b) (Car.id car) |}]) b)
  end.

(** [carsInConflict]: the entries with the same snapped key whose move is
    not (or not yet) [null]. *)
Definition carsInConflict (intendedMoves : list Entry) (key : string) : list Entry :=
  List.filter
    (fun e => bool_decide (snappedDestKey e = Some key) && bool_decide (is_Some (move e)))
    intendedMoves.

(** One round of the PHASE 3 loop, on [intendedMoves[i]].  The loop
    variable carried along is [intendedMoves] itself, whose entries the
    conflict branch sets to [null]. *)
Definition phase3_step (destinationCounts : gmap string Z) (i : nat)
    (intendedMoves : list Entry) : M (list Entry) :=
  match intendedMoves !! i with
  | None => ret intendedMoves
  | Some entry =>
    match move entry with
    | Some mv =>
      if JS.truthy_str (snappedDestKey entry) then
        let key := default "" (snappedDestKey entry) in
        if bool_decide (destinationCounts !! key = Some 1%Z) then
          executeMove (carIndex entry) mv ;;
          ret intendedMoves
        else
          let conflict := carsInConflict intendedMoves key in
          (* [conflict] holds at least [entry] itself; the branch for
             exactly two cars and the other branch do the same *)
          let first := default entry (head conflict) in
          (if (length conflict =? 2)%nat then
             executeMove (carIndex first) (default mv (move first))
           else
             executeMove (carIndex first) (default mv (move first))) ;;
          ret (<[i := set_move None entry]> intendedMoves)
      else
        dieOnTheSpot (carIndex entry) ;;
        ret intendedMoves
    | None =>
      dieOnTheSpot (carIndex entry) ;;
      ret intendedMoves
    end
  end.

Definition phase3 (destinationCounts : gmap string Z) (intendedMoves : list Entry) :
    M (list Entry) :=
  foldM (seq 0 (length intendedMoves)) (phase3_step destinationCounts) intendedMoves.

(** The fitness entry of a strategy after the retirement of a car. *)
Definition recordFitness (lifetime : Q) (car : Car.t) (f : Fitness) : Fitness :=
  {| totalLifetime := totalLifetime f + lifetime;
     count := (count f + 1)%Z;
     totalDistance := totalDistance f + Car.distanceTraveled car;
     totalCells := (totalCells f + Car.cellsVisited car)%Z |}.

(** The body of [if (car.stuck)] in PHASE 4, for [car = this.cars[i]]:
    record the fitness, mark the car dead, take it out of [this.cars]. *)
Definition retireCar (i : nat) (car : Car.t) : M unit :=
  now <- Date_now ;;
  let lifetime := inject_Z (now - Car.birthTime car) / 1000 in
  modify (fun b =>
    set_strategyFitness
      (setFitness (Car.strategy car)
         (recordFitness lifetime car
            (fitnessOf (strategyFitness b) (Car.strategy car)))
         (strategyFitness b)) b) ;;
  now' <- Date_now ;;
  modify (fun b => set_deadCarIds (<[Car.id car := now']> (deadCarIds b)) b) ;;
  modify (fun b => set_cars (delete i (cars b)) b).

(** PHASE 4: the loop [for (i = this.cars.length - 1; i >= 0; i--)]; the
    argument is [i + 1].  The result is the local [stuckCars]. *)
Fixpoint phase4 (n : nat) (stuckCars : list Car.t) : M (list Car.t) :=
  match n with
  | O => ret stuckCars
  | S i =>
    b <- get ;;
    match cars b !! i with
    | Some car =>
      if Car.stuck car then
        retireCar i car ;;
        phase4 i (stuckCars ++ [car])
      else phase4 i stuckCars
    | None => phase4 i stuckCars
    end
  end.

(** The dead car with the least death time; the loop visits the keys of
    [deadCarIds], which are integers, in ascending order and replaces its
    candidate on a strictly smaller time only. *)
Definition oldestStep (dead : gmap Z Z) (best : option (Z * Z)) (id : Z) :
    option (Z * Z) :=
  match dead !! id with
  | Some deathTime =>
    match best with
    | Some (oldestCarId, oldestDeathTime) =>
      if (deathTime <? oldestDeathTime)%Z then Some (id, deathTime) else best
    | None => Some (id, deathTime)
    end
  | None => best
  end.

Definition oldestDeadCar (dead : gmap Z Z) : option Z :=
  fst <$> fold_left (oldestStep dead) (merge_sort Z.le (elements (dom dead))) None.

(** The last part of a step: spawn a car, in infinite-lifetime mode after
    making room if need be. *)
Definition spawnDue (b : t) (currentTime : Z) : bool :=
  JS.ltb (inject_Z (Z.of_nat (length (cars b)))) (maxCars b)
  && JS.leb (spawnDelay b) (inject_Z (currentTime - lastSpawnTime b)).

Definition spawnPhase (currentTime : Z) : M unit :=
  b <- get ;;
  if spawnDue b currentTime
  then
    spawnSuccess <- spawnCar ;;
    b' <- get ;;
    (if infiniteLifetime b' && negb spawnSuccess
        && (0 <? Z.of_nat (size (deadCarIds b')))%Z
     then
       match oldestDeadCar (deadCarIds b') with
       | Some oldestCarId =>
         removeCarTraces oldestCarId ;;
         _ <- spawnCar ;;
         ret tt
       | None => ret tt
       end
     else ret tt) ;;
    modify (set_lastSpawnTime currentTime)
  else ret tt.

(** PHASES 1 to 3 of a step. *)
Definition movePhases (currentTime : Z) : M unit :=
  modify (set_lastStepTime currentTime) ;;
  b <- get ;;
  intendedMoves <- phase1 0 (cars b) ;;
  let p2 := phase2 (hexSize b) intendedMoves in
  _ <- phase3 (snd p2) (fst p2) ;;
  ret tt.

(** The four phases and the spawn; the result is [stuckCars] of PHASE 4. *)
Definition step (currentTime : Z) : M (list Car.t) :=
  movePhases currentTime ;;
  b <- get ;;
  stuckCars <- phase4 (length (cars b)) [] ;;
  spawnPhase currentTime ;;
  ret stuckCars.

(** [draw] without the drawing, and without the readings of the clock the
    drawing makes between [currentTime] and [clearFadedCells].  The
    function of the source returns nothing; the model returns the cars
    retired by this call. *)
Definition draw : M (list Car.t) :=
  currentTime <- Date_now ;;
  b <- get ;;
  let aliveCarIds : gset Z := list_to_set (map Car.id (cars b)) in
  clearFadedCells currentTime aliveCarIds ;;
  b' <- get ;;
  if JS.leb (stepDelay b') (inject_Z (currentTime - lastStepTime b')) then
    step currentTime
  else ret [].

(** *** The constructor *)

(** The [options] argument; a field that is [undefined] is [None]. *)
Record Options := {
  opt_hexSize : option Q;
  opt_maxCars : option Q;
  opt_mutationRate : option Q;
  opt_infiniteLifetime : option bool;
  opt_traceLifetime : option Q;
  opt_fadeDuration : option Q;
  opt_lineWidth : option Q;
  opt_stepDelay : option Q;
  opt_spawnDelay : option Q
}.

(** [o || d] for a number: [undefined] and [0] give the default. *)
Definition orDefault (o : option Q) (d : Q) : Q :=
  match o with
  | Some v => if JS.eqb v 0 then d else v
  | None => d
  end.

Definition zeroFitness : Fitness :=
  {| totalLifetime := 0; count := 0; totalDistance := 0; totalCells := 0 |}.

(** The field initialisers of the constructor, and the canvas [setup]
    creates from the size of the window. *)
Definition fields (options : Options) (innerWidth innerHeight : Z) : t :=
  let margin := 300%Z in
  {| hexSize := orDefault (opt_hexSize options) 100;
     occupiedCells := ∅;
     cellTimestamps := ∅;
     cellOwners := ∅;
     allLines := [];
     cars := [];
     maxCars := orDefault (opt_maxCars options) 2;
     nextCarId := 0;
     deadCarIds := ∅;
     strategyFitness :=
       {| wall_follower := zeroFitness; wanderer := zeroFitness;
          explorer := zeroFitness; spiral := zeroFitness |};
     mutationRate := default 0.1 (opt_mutationRate options);
     infiniteLifetime := default false (opt_infiniteLifetime options);
     traceLifetime := default 2.0 (opt_traceLifetime options);
     fadeDuration := default 1.0 (opt_fadeDuration options);
     lineWidth := default 10 (opt_lineWidth options);
     stepDelay := default 10 (opt_stepDelay options);
     lastStepTime := 0;
     spawnDelay := default 100 (opt_spawnDelay options);
     lastSpawnTime := 0;
     canvasWidth := inject_Z (innerWidth + margin * 2);
     canvasHeight := inject_Z (innerHeight + margin * 2);
     cleanupFrameCounter := 0 |}.

(** [init]: spawn all cars at once when there is no spawn delay, then
    [animate], which draws the first frame. *)
Definition init : M unit :=
  b <- get ;;
  (if JS.eqb (spawnDelay b) 0 then
     forM_ (seqZ 0 (JS.Math_ceil (maxCars b))) (fun _ => _ <- spawnCar ;; ret tt)
   else ret tt) ;;
  _ <- draw ;;
  ret tt.

(** [new CircuitBoard(options)] in a window of the given size.  The source
    has no [throw] and no validation of [options]. *)
Definition new (options : Options) (innerWidth innerHeight : Z) : Outcome World :=
  Returned
    (exec init
       {| this := fields options innerWidth innerHeight;
          randomCalls := 0; clockCalls := 0 |}).

(** The world after [n] further frames. *)
Fixpoint frames (n : nat) (w : World) : World :=
  match n with
  | O => w
  | S n' => frames n' (exec draw w)
  end.

(** *** onResize

    [lastCanvasWidth] and [lastCanvasHeight] are written wherever
    [canvas.width] and [canvas.height] are, with the same values, so the
    model reads the canvas size for them.  The timer is not modelled:
    [onResize] returns the size it schedules the reset for, or [None] when
    the change is too small, and [resizeReset] is the function the timer
    runs. *)

Definition onResize (innerWidth innerHeight : Z) : M (option (Q * Q)) :=
  b <- get ;;
  let margin := 300%Z in
  let newWidth := inject_Z (innerWidth + margin * 2) in
  let newHeight := inject_Z (innerHeight + margin * 2) in
  let widthChange := Qabs (newWidth - canvasWidth b) in
  let heightChange := Qabs (newHeight - canvasHeight b) in
  if JS.ltb widthChange 150 && JS.ltb heightChange 150 then ret None
  else ret (Some (newWidth, newHeight)).

(** The assignments of the timer function: the canvas gets its new size
    and the state of the animation is cleared. *)
Definition clearForResize (newWidth newHeight : Q) (b : t) : t :=
  {| hexSize := hexSize b; occupiedCells := ∅; cellTimestamps := ∅;
     cellOwners := ∅; allLines := []; cars := [];
     maxCars := maxCars b; nextCarId := nextCarId b; deadCarIds := ∅;
     strategyFitness := strategyFitness b; mutationRate := mutationRate b;
     infiniteLifetime := infiniteLifetime b; traceLifetime := traceLifetime b;
     fadeDuration := fadeDuration b; lineWidth := lineWidth b;
     stepDelay := stepDelay b; lastStepTime := lastStepTime b;
     spawnDelay := spawnDelay b; lastSpawnTime := 0;
     canvasWidth := newWidth; canvasHeight := newHeight;
     cleanupFrameCounter := cleanupFrameCounter b |}.

Definition resizeReset (newWidth newHeight : Q) : M unit :=
  modify (clearForResize newWidth newHeight) ;;
  b <- get ;;
  if JS.eqb (spawnDelay b) 0 then
    forM_ (seqZ 0 (JS.Math_ceil (maxCars b))) (fun _ => _ <- spawnCar ;; ret tt)
  else ret tt.

End Oracles.

End CircuitBoard.


(** * Properties *)

(** ** Notions of the specification *)

Section SpecNotions.

#[local] Open Scope Q_scope.

(** The brightness the specification prescribes for the trace of a dead
    agent, [t] seconds after its death: full for [traceLifetime] seconds,
    then a linear ramp down to 0 over [fadeDuration] seconds, then 0. *)
Definition brightness_spec (traceLifetime fadeDuration t : Q) : Q :=
  if JS.leb t traceLifetime then 1
  else if JS.leb t (traceLifetime + fadeDuration)
       then 1 - (t - traceLifetime) / fadeDuration
       else 0.

(** The six directions. *)
Definition allDirections : list Z := [0; 1; 2; 3; 4; 5]%Z.

(** What the wanderer's list looks like. *)
Definition wanderer_shape (s : Z) (prios : list Z) : Prop :=
  length prios = 6%nat
  /\ Forall (fun d => (0 <= d < 6)%Z) prios
  /\ head prios = Some s
  /\ ~ NoDup prios
  /\ ~ (Z.rem (s + 2) 6 ∈ prios /\ Z.rem (s + 4) 6 ∈ prios).

(** The 60-degree turn the first coin flip of the wanderer picks (right on
    a draw below 1/2, left otherwise), the 120-degree turn its second coin
    flip picks, and the 120-degree turn the second coin flip does not
    pick. *)
Definition picked60 (s : Z) (r1 : Q) : Z :=
  Z.rem (s + (if JS.ltb r1 0.5 then 1 else 5)) 6.

Definition picked120 (s : Z) (r2 : Q) : Z :=
  Z.rem (s + (if JS.ltb r2 0.5 then 2 else 4)) 6.

Definition omitted120 (s : Z) (r2 : Q) : Z :=
  Z.rem (s + (if JS.ltb r2 0.5 then 4 else 2)) 6.

(** How often a direction occurs in a list. *)
Definition occurrences (d : Z) (l : list Z) : nat :=
  length (filter (fun x => x = d) l).

(** *** Move legality, in the words of the specification *)

(** A key is occupied when the occupancy table holds a count for it. *)
Definition occupied (cells : gmap string Z) (key : string) : Prop :=
  exists v, cells !! key = Some v /\ v <> 0%Z.

Definition withinBounds (width height : Q) (p : Q * Q) : Prop :=
  (0 <= fst p /\ fst p < width) /\ (0 <= snd p /\ snd p < height).

Section Legality.

Variable sqrt : Q -> Q.

Definition euclid (px py qx qy : Q) : Q :=
  sqrt ((px - qx) * (px - qx) + (py - qy) * (py - qy)).

(** The sample point at fraction [f] of the step [dir] from the car's
    position snaps, within 60% of a hex edge, to an occupied cell that is
    not the car's own. *)
Definition sampleHitsOccupied (c : Car.t) (dir : Car.Dir) (cells : gmap string Z)
    (f : Q) : Prop :=
  let px := Car.x c + Car.dx dir * f in
  let py := Car.y c + Car.dy dir * f in
  let g := snapToGrid (Car.hexSize c) px py in
  euclid px py (fst g) (snd g) < Car.hexSize c * 0.6
  /\ occupied cells (getHexKey (fst g) (snd g))
  /\ getHexKey (fst g) (snd g) <> getHexKey (Car.x c) (Car.y c).

(** Two points are the same endpoint up to the tolerance. *)
Definition near (tol px py qx qy : Q) : Prop :=
  Qabs (px - qx) < tol /\ Qabs (py - qy) < tol.

(** The segment from (px, py) to (dx, dy) crosses a recorded segment: no
    endpoint is shared within 15% of the hex size, the two lines are not
    parallel, and both parameters of the intersection point lie strictly
    inside (0.05, 0.95). *)
Definition crosses (hexSize px py dx dy : Q) (line : Segment) : Prop :=
  let tol := hexSize * 0.15 in
  let denom := ((y2 line - y1 line) * (dx - px)) - ((x2 line - x1 line) * (dy - py)) in
  let ua := (((x2 line - x1 line) * (py - y1 line))
             - ((y2 line - y1 line) * (px - x1 line))) / denom in
  let ub := (((dx - px) * (py - y1 line)) - ((dy - py) * (px - x1 line))) / denom in
  ~ (near tol px py (x1 line) (y1 line) \/ near tol px py (x2 line) (y2 line)
     \/ near tol dx dy (x1 line) (y1 line) \/ near tol dx dy (x2 line) (y2 line))
  /\ ~ Qabs denom < 0.0001
  /\ (0.05 < ua /\ ua < 0.95) /\ (0.05 < ub /\ ub < 0.95).

(** The most recent 100 recorded segments. *)
Definition last100 (lines : list Segment) : list Segment :=
  drop (length lines - 100)%nat lines.

Definition legalMove (c : Car.t) (dir : Car.Dir) (cells : gmap string Z)
    (width height : Q) (lines : list Segment) : Prop :=
  let destX := Car.x c + Car.dx dir in
  let destY := Car.y c + Car.dy dir in
  withinBounds width height (destX, destY)
  /\ ~ occupied cells (getHexKey destX destY)
  /\ ~ sampleHitsOccupied c dir cells (1 # 3)
  /\ ~ sampleHitsOccupied c dir cells (2 # 3)
  /\ forall line, line ∈ last100 lines ->
       ~ crosses (Car.hexSize c) (Car.x c) (Car.y c) destX destY line.

End Legality.

(** *** Invariants of the cell bookkeeping *)

(** The three tables of the cell bookkeeping describe the same cells, and
    every cell has been entered exactly once. *)
Definition mapsConsistent (b : CircuitBoard.t) : Prop :=
  dom (CircuitBoard.occupiedCells b) = dom (CircuitBoard.cellTimestamps b)
  /\ dom (CircuitBoard.cellTimestamps b) = dom (CircuitBoard.cellOwners b)
  /\ forall key v, CircuitBoard.occupiedCells b !! key = Some v -> v = 1%Z.

(** The key of the cell a car is on. *)
Definition carKey (c : Car.t) : string := getHexKey (Car.x c) (Car.y c).

(** No double occupancy: every occupied key has been entered once and has
    one owner; the live cars have distinct ids, none of which is the id of a
    dead car; and every live car is the recorded owner of the cell it is
    on. *)
Record noDoubleOccupancy (b : CircuitBoard.t) : Prop := {
  ndo_maps : mapsConsistent b;
  ndo_ids : NoDup (map Car.id (CircuitBoard.cars b));
  ndo_fresh : forall c, c ∈ CircuitBoard.cars b ->
    (Car.id c < CircuitBoard.nextCarId b)%Z;
  ndo_dead_fresh : forall id, is_Some (CircuitBoard.deadCarIds b !! id) ->
    (id < CircuitBoard.nextCarId b)%Z;
  ndo_dead : forall c, c ∈ CircuitBoard.cars b ->
    CircuitBoard.deadCarIds b !! Car.id c = None;
  ndo_owner : forall c, c ∈ CircuitBoard.cars b ->
    CircuitBoard.cellOwners b !! carKey c = Some (Car.id c)
}.

(** *** Spawning, in the words of the specification *)

(** The world after [n] more calls of [Math.random()] and nothing else. *)
Definition advance (n : nat) (w : CircuitBoard.World) : CircuitBoard.World :=
  {| CircuitBoard.this := CircuitBoard.this w;
     CircuitBoard.randomCalls := (CircuitBoard.randomCalls w + n)%nat;
     CircuitBoard.clockCalls := CircuitBoard.clockCalls w |}.

(** The grid point a spawn attempt samples from two draws: a random row
    and a random column. *)
Definition sampledPoint (b : CircuitBoard.t) (rRow rCol : Q) : Q * Q :=
  CircuitBoard.gridPoint (CircuitBoard.hexSize b)
    (JS.Math_floor
       (rRow * (CircuitBoard.canvasHeight b / (CircuitBoard.hexSize b * 0.866))))
    (JS.Math_floor (rCol * (CircuitBoard.canvasWidth b / CircuitBoard.hexSize b))).

Definition keyOf (p : Q * Q) : string := getHexKey (fst p) (snd p).

(** Board [b'] is board [b] with one new car on position [p]: the car has
    the next id, the cell of [p] is entered in the three tables with a count
    of 1 and the new car as its owner, and nothing else has changed. *)
Definition placed (b : CircuitBoard.t) (p : Q * Q) (b' : CircuitBoard.t) : Prop :=
  exists car now,
    Car.x car = fst p /\ Car.y car = snd p
    /\ Car.id car = CircuitBoard.nextCarId b
    /\ Car.stuck car = false
    /\ CircuitBoard.cars b' = CircuitBoard.cars b ++ [car]
    /\ CircuitBoard.nextCarId b' = (CircuitBoard.nextCarId b + 1)%Z
    /\ CircuitBoard.occupiedCells b'
       = <[keyOf p := 1%Z]> (CircuitBoard.occupiedCells b)
    /\ CircuitBoard.cellTimestamps b'
       = <[keyOf p := now]> (CircuitBoard.cellTimestamps b)
    /\ CircuitBoard.cellOwners b'
       = <[keyOf p := CircuitBoard.nextCarId b]> (CircuitBoard.cellOwners b)
    /\ CircuitBoard.allLines b' = CircuitBoard.allLines b
    /\ CircuitBoard.deadCarIds b' = CircuitBoard.deadCarIds b
    /\ CircuitBoard.strategyFitness b' = CircuitBoard.strategyFitness b.

(** A position the exhaustive scan accepts: on the canvas and free. *)
Definition freePosition (b : CircuitBoard.t) (p : Q * Q) : Prop :=
  withinBounds (CircuitBoard.canvasWidth b) (CircuitBoard.canvasHeight b) p
  /\ ~ occupied (CircuitBoard.occupiedCells b) (keyOf p).

(** [p] is the first free position in the order of the scan. *)
Definition firstFree (b : CircuitBoard.t) (p : Q * Q) : Prop :=
  exists before after,
    CircuitBoard.scanPositions b = before ++ p :: after
    /\ freePosition b p
    /\ forall q, q ∈ before -> ~ freePosition b q.

(** The whole trace of car [id] is gone from [b'], and that is the only
    difference between [b] and [b']: its cells are out of the three tables,
    its segments out of [allLines], its entry out of [deadCarIds]. *)
Definition traceEvicted (id : Z) (b b' : CircuitBoard.t) : Prop :=
  (forall key, CircuitBoard.cellOwners b !! key = Some id ->
     CircuitBoard.occupiedCells b' !! key = None
     /\ CircuitBoard.cellTimestamps b' !! key = None
     /\ CircuitBoard.cellOwners b' !! key = None)
  /\ (forall key, CircuitBoard.cellOwners b !! key <> Some id ->
       CircuitBoard.occupiedCells b' !! key = CircuitBoard.occupiedCells b !! key
       /\ CircuitBoard.cellTimestamps b' !! key = CircuitBoard.cellTimestamps b !! key
       /\ CircuitBoard.cellOwners b' !! key = CircuitBoard.cellOwners b !! key)
  /\ CircuitBoard.allLines b' = filter (fun l => carId l <> id) (CircuitBoard.allLines b)
  /\ (forall l, l ∈ CircuitBoard.allLines b' -> carId l <> id)
  /\ CircuitBoard.deadCarIds b' = delete id (CircuitBoard.deadCarIds b)
  /\ CircuitBoard.cars b' = CircuitBoard.cars b
  /\ CircuitBoard.nextCarId b' = CircuitBoard.nextCarId b
  /\ CircuitBoard.strategyFitness b' = CircuitBoard.strategyFitness b.

Section Sampling.

Variable random : nat -> unit_draw.

(** The point the [k]-th attempt samples when the loop starts after
    [base] draws. *)
Definition attemptPoint (b : CircuitBoard.t) (base k : nat) : Q * Q :=
  sampledPoint b (random (base + 2 * k)) (random (base + 2 * k + 1)).

(** Every one of the 100 sampled points lies on an occupied key. *)
Definition allSamplesOccupied (b : CircuitBoard.t) (base : nat) : Prop :=
  forall k, (k < 100)%nat ->
    occupied (CircuitBoard.occupiedCells b) (keyOf (attemptPoint b base k)).

(** Attempt [k] is the first whose sampled point lies on a free key. *)
Definition firstFreeSample (b : CircuitBoard.t) (base k : nat) : Prop :=
  (k < 100)%nat
  /\ (forall j, (j < k)%nat ->
       occupied (CircuitBoard.occupiedCells b) (keyOf (attemptPoint b base j)))
  /\ ~ occupied (CircuitBoard.occupiedCells b) (keyOf (attemptPoint b base k)).

End Sampling.

(** *** Keys *)

(** A string without a comma. *)
Fixpoint commaFree (s : string) : Prop :=
  match s with
  | EmptyString => True
  | String c s' => c <> ","%char /\ commaFree s'
  end.

(** *** The lattice *)

(** The cell reached from the cell (row, col) by one step in direction [k]
    of the offset-row layout, in which the odd rows are shifted by half a
    hex: 0 east, 1 south-east, 2 south-west, 3 west, 4 north-west, 5
    north-east. *)
Definition neighborCell (row col k : Z) : Z * Z :=
  let odd := negb (Z.rem row 2 =? 0)%Z in
  match k with
  | 0%Z => (row, col + 1)%Z
  | 1%Z => ((row + 1)%Z, if odd then (col + 1)%Z else col)
  | 2%Z => ((row + 1)%Z, if odd then col else (col - 1)%Z)
  | 3%Z => (row, col - 1)%Z
  | 4%Z => ((row - 1)%Z, if odd then col else (col - 1)%Z)
  | _ => ((row - 1)%Z, if odd then (col + 1)%Z else col)
  end.

(** A car stands on a lattice point of the board. *)
Definition onLattice (b : CircuitBoard.t) (c : Car.t) : Prop :=
  Car.hexSize c = CircuitBoard.hexSize b
  /\ exists row col,
       (Car.x c, Car.y c) = CircuitBoard.gridPoint (CircuitBoard.hexSize b) row col.

(** The direction of a move is one of the six. *)
Definition moveInRange (mv : CircuitBoard.Move) : Prop :=
  (0 <= CircuitBoard.direction mv < 6)%Z.

(** The moves of a list of intended moves are in range. *)
Definition entriesInRange (entries : list CircuitBoard.Entry) : Prop :=
  Forall (fun e => forall mv, CircuitBoard.move e = Some mv -> moveInRange mv) entries.

(** A live car is well formed on its board: it has the geometry of the
    board, stands on a lattice point and heads in one of the six
    directions. *)
Definition wellFormedCar (b : CircuitBoard.t) (c : Car.t) : Prop :=
  onLattice b c
  /\ Car.canvasWidth c = CircuitBoard.canvasWidth b
  /\ Car.canvasHeight c = CircuitBoard.canvasHeight b
  /\ (0 <= Car.currentDirection c < 6)%Z.

Definition wellFormedCars (w : CircuitBoard.World) : Prop :=
  forall c, c ∈ CircuitBoard.cars (CircuitBoard.this w) ->
    wellFormedCar (CircuitBoard.this w) c.

(** The intended moves whose destination snaps to the cell of [key]. *)
Definition claimants (h : Q) (entries : list CircuitBoard.Entry) (key : string) :
    list CircuitBoard.Entry :=
  filter (fun e => CircuitBoard.snappedKey h <$> CircuitBoard.move e = Some key)
    entries.

(** *** The population *)

(** The greatest number of live cars the configuration allows: [maxCars]
    rounded up, and 0 when that is negative. *)
Definition carCeiling (b : CircuitBoard.t) : Z :=
  Z.max 0 (JS.Math_ceil (CircuitBoard.maxCars b)).

Definition withinCeiling (b : CircuitBoard.t) : Prop :=
  (Z.of_nat (length (CircuitBoard.cars b)) <= carCeiling b)%Z.

(** *** Traces *)

(** Car [id] is known to the board: it is alive or listed as dead. *)
Definition known (b : CircuitBoard.t) (id : Z) : Prop :=
  id ∈ map Car.id (CircuitBoard.cars b)
  \/ is_Some (CircuitBoard.deadCarIds b !! id).

(** The segments of car [id], in the order of [allLines]. *)
Definition ownLines (id : Z) (lines : list Segment) : list Segment :=
  filter (fun l => carId l = id) lines.

(** The segments of every car carry the indices 0, 1, 2, ... in the order
    in which they were recorded. *)
Definition indicesCountUp (lines : list Segment) : Prop :=
  forall id,
    map segmentIndex (ownLines id lines)
    = seqZ 0 (Z.of_nat (length (ownLines id lines))).

(** A list of ids is strictly increasing. *)
Definition increasing (ids : list Z) : Prop :=
  forall i j a c, (i < j)%nat -> ids !! i = Some a -> ids !! j = Some c -> (a < c)%Z.

(** The traces are in order: every segment and every cell belongs to a car
    that is alive or listed as dead, the segment indices of every car count
    up from 0, the live cars stand in [cars] in the order in which they
    were spawned, and both ends of every segment are lattice points. *)
Record tracesOk (b : CircuitBoard.t) : Prop := {
  tr_lines : forall l, l ∈ CircuitBoard.allLines b -> known b (carId l);
  tr_cells : forall key owner,
    CircuitBoard.cellOwners b !! key = Some owner -> known b owner;
  tr_index : indicesCountUp (CircuitBoard.allLines b);
  tr_order : increasing (map Car.id (CircuitBoard.cars b));
  tr_ends : forall l, l ∈ CircuitBoard.allLines b ->
    (exists row col,
       (x1 l, y1 l) = CircuitBoard.gridPoint (CircuitBoard.hexSize b) row col)
    /\ (exists row col,
          (x2 l, y2 l) = CircuitBoard.gridPoint (CircuitBoard.hexSize b) row col)
}.

(** *** Resizing *)

(** World [w'] is a restart of board [b] on a canvas of [nw] by [nh]: the
    fitness table, the configuration and the time of the last step are
    those of [b], the id counter has not gone back and every car has an id
    [b] had not handed out, there are no segments and no dead cars, and the
    invariants of the frames hold. *)
Definition restartedFrom (b : CircuitBoard.t) (nw nh : Q) (w' : CircuitBoard.World) :
    Prop :=
  let b' := CircuitBoard.this w' in
  CircuitBoard.strategyFitness b' = CircuitBoard.strategyFitness b
  /\ (CircuitBoard.nextCarId b <= CircuitBoard.nextCarId b')%Z
  /\ (forall c, c ∈ CircuitBoard.cars b' ->
        (CircuitBoard.nextCarId b <= Car.id c < CircuitBoard.nextCarId b')%Z)
  /\ CircuitBoard.allLines b' = []
  /\ CircuitBoard.deadCarIds b' = ∅
  /\ (CircuitBoard.canvasWidth b' = nw /\ CircuitBoard.canvasHeight b' = nh)
  /\ (CircuitBoard.hexSize b' = CircuitBoard.hexSize b
      /\ CircuitBoard.maxCars b' = CircuitBoard.maxCars b
      /\ CircuitBoard.mutationRate b' = CircuitBoard.mutationRate b
      /\ CircuitBoard.infiniteLifetime b' = CircuitBoard.infiniteLifetime b
      /\ CircuitBoard.traceLifetime b' = CircuitBoard.traceLifetime b
      /\ CircuitBoard.fadeDuration b' = CircuitBoard.fadeDuration b
      /\ CircuitBoard.lineWidth b' = CircuitBoard.lineWidth b
      /\ CircuitBoard.stepDelay b' = CircuitBoard.stepDelay b
      /\ CircuitBoard.spawnDelay b' = CircuitBoard.spawnDelay b
      /\ CircuitBoard.lastStepTime b' = CircuitBoard.lastStepTime b)
  /\ noDoubleOccupancy b' /\ wellFormedCars w' /\ tracesOk b'.

(** *** Pruning *)

(** Car [id] is dead and its trace has faded out completely at time [t]:
    the car is not among the live cars, it has a death time, and more than
    [traceLifetime + fadeDuration] seconds have passed since. *)
Definition fullyFaded (b : CircuitBoard.t) (t : Z) (alive : gset Z) (id : Z) : Prop :=
  (id ∉ alive)
  /\ exists deathTime,
       CircuitBoard.deadCarIds b !! id = Some deathTime
       /\ ((CircuitBoard.traceLifetime b + CircuitBoard.fadeDuration b) * 1000
           < inject_Z (t - deathTime))%Q.

(** The cell of [key] has a time stamp and a fully faded owner. *)
Definition fadedCell (b : CircuitBoard.t) (t : Z) (alive : gset Z) (key : string) :
    Prop :=
  is_Some (CircuitBoard.cellTimestamps b !! key)
  /\ exists owner, CircuitBoard.cellOwners b !! key = Some owner
                   /\ fullyFaded b t alive owner.

(** Car [id] owns a faded cell. *)
Definition prunedOwner (b : CircuitBoard.t) (t : Z) (alive : gset Z) (id : Z) : Prop :=
  exists key, is_Some (CircuitBoard.cellTimestamps b !! key)
              /\ CircuitBoard.cellOwners b !! key = Some id
              /\ fullyFaded b t alive id.

(** *** Configuration *)

(** Two boards have the same configuration. *)
Definition sameConfig (b b' : CircuitBoard.t) : Prop :=
  CircuitBoard.hexSize b' = CircuitBoard.hexSize b
  /\ CircuitBoard.maxCars b' = CircuitBoard.maxCars b
  /\ CircuitBoard.mutationRate b' = CircuitBoard.mutationRate b
  /\ CircuitBoard.infiniteLifetime b' = CircuitBoard.infiniteLifetime b
  /\ CircuitBoard.traceLifetime b' = CircuitBoard.traceLifetime b
  /\ CircuitBoard.fadeDuration b' = CircuitBoard.fadeDuration b
  /\ CircuitBoard.lineWidth b' = CircuitBoard.lineWidth b
  /\ CircuitBoard.stepDelay b' = CircuitBoard.stepDelay b
  /\ CircuitBoard.spawnDelay b' = CircuitBoard.spawnDelay b
  /\ CircuitBoard.canvasWidth b' = CircuitBoard.canvasWidth b
  /\ CircuitBoard.canvasHeight b' = CircuitBoard.canvasHeight b.

(** *** Fitness accounting *)

Definition sumQ (l : list Q) : Q := foldr Qplus 0 l.




(** *** Selection *)

(** The weight of a strategy on a board. *)
Definition weightOf (b : CircuitBoard.t) (s : Strategy) : Q :=
  CircuitBoard.strategyWeight
    (CircuitBoard.fitnessOf (CircuitBoard.strategyFitness b) s).

(** The sum of the weights of the strategies, and of the first [i + 1] of
    them in the order of the source's array. *)
Definition totalWeight (b : CircuitBoard.t) : Q :=
  sumQ (map (weightOf b) CircuitBoard.strategies).

Definition cumWeight (b : CircuitBoard.t) (i : nat) : Q :=
  sumQ (map (weightOf b) (take (S i) CircuitBoard.strategies)).

Section Clock.

Variable clock : nat -> Z.



End Clock.

Section Reachability.

Variable sqrt : Q -> Q.
Variable random : nat -> unit_draw.
Variable clock : nat -> Z.

(** The worlds the program can be in: the one the constructor returns, and
    the one after any of the operations on the cell bookkeeping, or a
    frame. *)
Inductive bookkept : CircuitBoard.World -> Prop :=
| bookkept_new options innerWidth innerHeight w :
    CircuitBoard.new sqrt random clock options innerWidth innerHeight
    = CircuitBoard.Returned w ->
    bookkept w
| bookkept_spawnCar w :
    bookkept w ->
    bookkept (CircuitBoard.exec (CircuitBoard.spawnCar random clock) w)
| bookkept_executeMove w carIndex mv :
    bookkept w ->
    bookkept (CircuitBoard.exec (CircuitBoard.executeMove sqrt clock carIndex mv) w)
| bookkept_removeCarTraces w id :
    bookkept w ->
    bookkept (CircuitBoard.exec (CircuitBoard.removeCarTraces id) w)
| bookkept_clearFadedCells w currentTime aliveCarIds :
    bookkept w ->
    bookkept (CircuitBoard.exec
                (CircuitBoard.clearFadedCells currentTime aliveCarIds) w)
| bookkept_draw w :
    bookkept w ->
    bookkept (CircuitBoard.exec (CircuitBoard.draw sqrt random clock) w).

End Reachability.

(** ** Concrete inputs

    Oracles, options and boards on which the model is run. *)

(** A generator that always draws 1/2. *)
Definition halfDraw : unit_draw :=
  UnitDraw (1 # 2) (conj (fun H : (0 * 2 ?= 1 * 1)%Z = Gt => eq_ind Lt
                            (fun c => match c with Gt => False | _ => True end) I Gt H)
                         (eq_refl : (1 * 1 ?= 1 * 2)%Z = Lt)).

Definition demoRandom (n : nat) : unit_draw := halfDraw.

(** A clock that advances by one millisecond with every reading. *)
Definition demoClock (n : nat) : Z := (1000 + Z.of_nat n)%Z.

Definition noOptions : CircuitBoard.Options :=
  {| CircuitBoard.opt_hexSize := None; CircuitBoard.opt_maxCars := None;
     CircuitBoard.opt_mutationRate := None;
     CircuitBoard.opt_infiniteLifetime := None;
     CircuitBoard.opt_traceLifetime := None;
     CircuitBoard.opt_fadeDuration := None;
     CircuitBoard.opt_lineWidth := None;
     CircuitBoard.opt_stepDelay := None; CircuitBoard.opt_spawnDelay := None |}.


(** The board of the default options in a window of 400 by 400: hex size
    100, canvas 1000 by 1000, fading mode with a trace lifetime of 2 seconds
    and a fade duration of 1 second. *)
Definition demoBoard : CircuitBoard.t := CircuitBoard.fields noOptions 400 400.

(** A car of the demo board. *)
Definition demoCar (x y : Q) (id : Z) (strategy : Strategy) (heading : Z) : Car.t :=
  {| Car.x := x; Car.y := y; Car.hexSize := 100;
     Car.canvasWidth := 1000; Car.canvasHeight := 1000;
     Car.stuck := false; Car.id := id; Car.birthTime := 0; Car.hueOffset := 0;
     Car.distanceTraveled := 0; Car.cellsVisited := 0; Car.strategy := strategy;
     Car.preferredTurnDirection := TurnRight; Car.previousDirection := None;
     Car.currentDirection := heading |}.

Definition worldOf (b : CircuitBoard.t) : CircuitBoard.World :=
  {| CircuitBoard.this := b; CircuitBoard.randomCalls := 0;
     CircuitBoard.clockCalls := 0 |}.

(** Two wanderers facing each other with one free cell between them: car 0
    on (100, 0) heading east, car 1 on (300, 0) heading west. *)
Definition conflictBoard : CircuitBoard.t :=
  CircuitBoard.set_cars [demoCar 100 0 0 Wanderer 0; demoCar 300 0 1 Wanderer 3]
    (CircuitBoard.set_occupiedCells (<["100,0" := 1%Z]> (<["300,0" := 1%Z]> ∅))
       (CircuitBoard.set_cellTimestamps (<["100,0" := 1%Z]> (<["300,0" := 1%Z]> ∅))
          (CircuitBoard.set_cellOwners (<["100,0" := 0%Z]> (<["300,0" := 1%Z]> ∅))
             (CircuitBoard.set_nextCarId 2 demoBoard)))).

Definition segmentOf (id : Z) (x1 y1 x2 y2 : Q) : Segment :=
  {| x1 := x1; y1 := y1; x2 := x2; y2 := y2; carId := id;
     seg_hueOffset := 0; seg_birthTime := 0; timestamp := 0; segmentIndex := 0 |}.

(** Car 0 is alive on (100, 0) and has drawn one segment; car 1 died at
    time 0 on (300, 0); the next run of [clearFadedCells] is a tenth one. *)
Definition pruningBoard : CircuitBoard.t :=
  CircuitBoard.set_cars [demoCar 100 0 0 WallFollower 0]
    (CircuitBoard.set_occupiedCells
       (<["0,0" := 1%Z]> (<["100,0" := 1%Z]> (<["300,0" := 1%Z]> ∅)))
       (CircuitBoard.set_cellTimestamps
          (<["0,0" := 1%Z]> (<["100,0" := 1%Z]> (<["300,0" := 1%Z]> ∅)))
          (CircuitBoard.set_cellOwners
             (<["0,0" := 0%Z]> (<["100,0" := 0%Z]> (<["300,0" := 1%Z]> ∅)))
             (CircuitBoard.set_allLines
                [segmentOf 0 0 0 100 0; segmentOf 1 300 0 300 0]
                (CircuitBoard.set_deadCarIds (<[1%Z := 0%Z]> ∅)
                   (CircuitBoard.set_cleanupFrameCounter 9
                      (CircuitBoard.set_nextCarId 2 demoBoard))))))).

(** Options that spawn all cars at once and step on every frame. *)
Definition eagerOptions : CircuitBoard.Options :=
  {| CircuitBoard.opt_hexSize := None; CircuitBoard.opt_maxCars := None;
     CircuitBoard.opt_mutationRate := None;
     CircuitBoard.opt_infiniteLifetime := None;
     CircuitBoard.opt_traceLifetime := None;
     CircuitBoard.opt_fadeDuration := None;
     CircuitBoard.opt_lineWidth := None;
     CircuitBoard.opt_stepDelay := Some 0; CircuitBoard.opt_spawnDelay := Some 0 |}.

(** The world the constructor returns for them in a window of 400 by 400,
    with the generator that always draws 1/2 and the demo clock. *)
Definition eagerWorld : CircuitBoard.World :=
  CircuitBoard.exec (CircuitBoard.init JS.sqrt_milli demoRandom demoClock)
    (worldOf (CircuitBoard.fields eagerOptions 400 400)).

(** A spiral on the lattice point of row 2 and column 3 of the demo board,
    heading east, alone on the board. *)
Definition latticeCar : Car.t :=
  demoCar (fst (CircuitBoard.gridPoint 100 2 3)) (snd (CircuitBoard.gridPoint 100 2 3))
    0 Spiral 0.

Definition latticeBoard : CircuitBoard.t :=
  CircuitBoard.set_cars [latticeCar]
    (CircuitBoard.set_occupiedCells (<[carKey latticeCar := 1%Z]> ∅)
       (CircuitBoard.set_cellTimestamps (<[carKey latticeCar := 1%Z]> ∅)
          (CircuitBoard.set_cellOwners (<[carKey latticeCar := 0%Z]> ∅)
             (CircuitBoard.set_nextCarId 1 demoBoard)))).

(** The demo board just after a step at time 1000. *)
Definition steppedBoard : CircuitBoard.t :=
  CircuitBoard.set_lastStepTime 1000 demoBoard.

(** The eager world one frame later, its first two cars and its first
    segment. *)
Definition eagerFrame : CircuitBoard.World :=
  CircuitBoard.frames JS.sqrt_milli demoRandom demoClock 1 eagerWorld.

Definition carAt (w : CircuitBoard.World) (i : nat) : Car.t :=
  default latticeCar (CircuitBoard.cars (CircuitBoard.this w) !! i).

Definition lineAt (w : CircuitBoard.World) (i : nat) : Segment :=
  default (segmentOf 0 0 0 0 0) (CircuitBoard.allLines (CircuitBoard.this w) !! i).

(** The move [calculateMove] finds for the car of the lattice board. *)
Definition latticeMove : CircuitBoard.Move :=
  default {| CircuitBoard.x := 0; CircuitBoard.y := 0; CircuitBoard.direction := 0;
             CircuitBoard.oldDirection := 0; CircuitBoard.is180 := false |}
    (CircuitBoard.eval (CircuitBoard.calculateMove JS.sqrt_milli demoRandom latticeCar)
       (worldOf latticeBoard)).

End SpecNotions.

(** ** Facts about the JavaScript primitives *)

Section JSFacts.

#[local] Open Scope Q_scope.

Lemma ltb_lt a b : JS.ltb a b = true <-> a < b.
Proof.
  unfold JS.ltb. rewrite Qlt_alt. destruct (a ?= b); split; congruence.
Qed.

Lemma leb_le a b : JS.leb a b = true <-> a <= b.
Proof.
  unfold JS.leb. rewrite Qle_alt. destruct (a ?= b); split; congruence.
Qed.

Lemma eqb_eq a b : JS.eqb a b = true <-> a == b.
Proof.
  unfold JS.eqb. rewrite Qeq_alt. destruct (a ?= b); split; congruence.
Qed.

Lemma ltb_ge a b : JS.ltb a b = false <-> b <= a.
Proof.
  rewrite <- not_true_iff_false, ltb_lt. split.
  - apply Qnot_lt_le.
  - apply Qle_not_lt.
Qed.

Lemma leb_gt a b : JS.leb a b = false <-> b < a.
Proof.
  rewrite <- not_true_iff_false, leb_le. split.
  - apply Qnot_le_lt.
  - apply Qlt_not_le.
Qed.

Lemma eqb_neq a b : JS.eqb a b = false <-> ~ a == b.
Proof. rewrite <- not_true_iff_false, eqb_eq. reflexivity. Qed.

Lemma Qdiv_1000 a : a / 1000 == a * (1 # 1000).
Proof. field. Qed.

End JSFacts.

(** Case analysis on a comparison, with the fact it decides. *)
Ltac case_cmp :=
  match goal with
  | |- context [JS.ltb ?a ?b] =>
    let H := fresh "Hcmp" in
    destruct (JS.ltb a b) eqn:H; [apply ltb_lt in H | apply ltb_ge in H]
  | |- context [JS.leb ?a ?b] =>
    let H := fresh "Hcmp" in
    destruct (JS.leb a b) eqn:H; [apply leb_le in H | apply leb_gt in H]
  | |- context [JS.eqb ?a ?b] =>
    let H := fresh "Hcmp" in
    destruct (JS.eqb a b) eqn:H; [apply eqb_eq in H | apply eqb_neq in H]
  end.

(** ** Brightness of a fading trace *)

Section Brightness.

Import CircuitBoard.

#[local] Open Scope Q_scope.

Lemma darknessFactor_alive b deathTime currentTime :
  darknessFactor b true deathTime currentTime = 1.
Proof. unfold darknessFactor. rewrite andb_false_r. reflexivity. Qed.

Lemma darknessFactor_dead b deathTime currentTime :
  infiniteLifetime b = false ->
  0 < fadeDuration b ->
  darknessFactor b false (Some deathTime) currentTime
  == brightness_spec (traceLifetime b) (fadeDuration b)
       (inject_Z (currentTime - deathTime) / 1000).
Proof.
  intros Hmode Hfade. unfold darknessFactor, brightness_spec.
  rewrite Hmode. simpl.
  set (d := inject_Z (currentTime - deathTime)).
  clearbody d.
  repeat case_cmp; rewrite -> ?Qdiv_1000 in *; try lra.
  - setoid_rewrite Q.min_r.
    + field. lra.
    + apply Qle_shift_div_r; lra.
  - setoid_rewrite Q.min_l.
    + lra.
    + apply Qle_shift_div_l; lra.
Qed.

(** C5.  Fading-mode brightness.  The brightness [draw] computes for the
    trace of a car is 1 while the car is alive; for a dead car in fading
    mode it is the function [brightness_spec] of the time elapsed since the
    death alone: 1 up to [traceLifetime], then linear down to 0 at
    [traceLifetime + fadeDuration], then 0.  With [traceLifetime = 2] and
    [fadeDuration = 1] the brightness 2.5 seconds after the death is 0.5.
    ([fadeDuration] is positive, as the ramp of the claim presupposes.) *)
Theorem fading_brightness (b : t) (id currentTime deathTime : Z) :
  0 < fadeDuration b ->
  let elapsed := inject_Z (currentTime - deathTime) / 1000 in
  (id ∈ map Car.id (cars b) -> traceBrightness b currentTime id == 1)
  /\ (infiniteLifetime b = false ->
      id ∉ map Car.id (cars b) ->
      deadCarIds b !! id = Some deathTime ->
      traceBrightness b currentTime id
      == brightness_spec (traceLifetime b) (fadeDuration b) elapsed
      /\ (elapsed <= traceLifetime b -> traceBrightness b currentTime id == 1)
      /\ (traceLifetime b <= elapsed <= traceLifetime b + fadeDuration b ->
          traceBrightness b currentTime id
          == 1 - (elapsed - traceLifetime b) / fadeDuration b)
      /\ (traceLifetime b + fadeDuration b <= elapsed ->
          traceBrightness b currentTime id == 0)
      /\ (traceLifetime b == 2 -> fadeDuration b == 1 -> elapsed == 2.5 ->
          traceBrightness b currentTime id == 0.5)).
Proof.
  intros Hfade elapsed. split.
  - intros Hin. unfold traceBrightness.
    rewrite bool_decide_eq_true_2 by exact Hin.
    rewrite darknessFactor_alive. reflexivity.
  - intros Hmode Hnin Hdead.
    assert (Hb : traceBrightness b currentTime id
                 == brightness_spec (traceLifetime b) (fadeDuration b) elapsed).
    { unfold traceBrightness. rewrite bool_decide_eq_false_2 by exact Hnin.
      rewrite Hdead. apply darknessFactor_dead; assumption. }
    split; [exact Hb |].
    assert (Hramp : forall k, elapsed - traceLifetime b == k * fadeDuration b ->
                    (elapsed - traceLifetime b) / fadeDuration b == k).
    { intros k Hk. rewrite -> Hk. field. lra. }
    clearbody elapsed.
    repeat split; intros; rewrite -> Hb; unfold brightness_spec;
      repeat case_cmp; try lra.
    + rewrite -> (Hramp 0) by lra. lra.
    + rewrite -> (Hramp 1) by lra. lra.
    + rewrite -> (Hramp (1 # 2)) by lra. lra.
Qed.

End Brightness.

(** ** The state monad *)

Section MonadFacts.

Import CircuitBoard.

Lemma exec_bind {A B} (m : M A) (k : A -> M B) w :
  exec (bind m k) w = exec (k (eval m w)) (exec m w).
Proof. reflexivity. Qed.

Lemma eval_bind {A B} (m : M A) (k : A -> M B) w :
  eval (bind m k) w = eval (k (eval m w)) (exec m w).
Proof. reflexivity. Qed.

Lemma exec_ret {A} (a : A) w : exec (ret a) w = w.
Proof. reflexivity. Qed.

Lemma eval_ret {A} (a : A) w : eval (ret a) w = a.
Proof. reflexivity. Qed.

Lemma exec_get w : exec get w = w.
Proof. reflexivity. Qed.

Lemma eval_get w : eval get w = this w.
Proof. reflexivity. Qed.

End MonadFacts.

(** One step of symbolic execution of a monadic program in the goal. *)
Ltac mstep :=
  match goal with
  | |- context [CircuitBoard.exec (CircuitBoard.bind ?m ?k) ?w] =>
    change (CircuitBoard.exec (CircuitBoard.bind m k) w)
      with (CircuitBoard.exec (k (CircuitBoard.eval m w)) (CircuitBoard.exec m w));
    cbv beta
  | |- context [CircuitBoard.eval (CircuitBoard.bind ?m ?k) ?w] =>
    change (CircuitBoard.eval (CircuitBoard.bind m k) w)
      with (CircuitBoard.eval (k (CircuitBoard.eval m w)) (CircuitBoard.exec m w));
    cbv beta
  | |- context [CircuitBoard.exec CircuitBoard.get ?w] =>
    change (CircuitBoard.exec CircuitBoard.get w) with w
  | |- context [CircuitBoard.eval CircuitBoard.get ?w] =>
    change (CircuitBoard.eval CircuitBoard.get w) with (CircuitBoard.this w)
  | |- context [CircuitBoard.exec (CircuitBoard.ret ?a) ?w] =>
    change (CircuitBoard.exec (CircuitBoard.ret a) w) with w
  | |- context [CircuitBoard.eval (CircuitBoard.ret ?a) ?w] =>
    change (CircuitBoard.eval (CircuitBoard.ret a) w) with a
  end.

Ltac msteps := repeat mstep.

(** ** The priority list of calculateMove *)

Section Priorities.

Import CircuitBoard.

Variable random : nat -> unit_draw.

Lemma swap_Permutation (p : list Z) i j : swap p i j ≡ₚ p.
Proof.
  unfold swap.
  destruct (p !! i) as [pi|] eqn:Hi; [| reflexivity].
  destruct (p !! j) as [pj|] eqn:Hj; [| reflexivity].
  destruct (decide (i = j)) as [-> | Hne].
  - assert (pi = pj) as -> by congruence.
    rewrite list_insert_insert_eq. rewrite list_insert_id; done.
  - assert (Hj' : <[i:=pj]> p !! j = Some pj) by (rewrite list_lookup_insert_ne; done).
    assert (Hi' : i < length p) by (eapply lookup_lt_Some; eauto).
    assert (Hj'' : j < length p) by (eapply lookup_lt_Some; eauto).
    apply Permutation_inj. split.
    + rewrite !length_insert. reflexivity.
    + exists (fun k => if decide (k = i) then j else if decide (k = j) then i else k).
      split.
      * intros a c Hac. repeat case_decide; congruence.
      * intros k. repeat case_decide; subst.
        -- rewrite list_lookup_insert_ne; [| done].
           rewrite list_lookup_insert_eq; [| done]. congruence.
        -- rewrite list_lookup_insert_eq; [| by rewrite length_insert].
           congruence.
        -- rewrite !list_lookup_insert_ne; done.
Qed.

Lemma shuffle_Permutation i (p : list Z) w :
  eval (shuffle random i p) w ≡ₚ p.
Proof.
  revert p w. induction i as [| i IH]; intros p w.
  - reflexivity.
  - simpl. rewrite eval_bind. rewrite IH. apply swap_Permutation.
Qed.

(** The six candidates, by heading. *)
Lemma rotate_Permutation (s : Z) :
  (0 <= s < 6)%Z ->
  map (fun i => Z.rem (s + i) 6) allDirections ≡ₚ allDirections.
Proof.
  intros Hs.
  assert (Hcases : s = 0%Z \/ s = 1%Z \/ s = 2%Z \/ s = 3%Z \/ s = 4%Z \/ s = 5%Z)
    by lia.
  unfold allDirections.
  destruct Hcases as [-> | [-> | [-> | [-> | [-> | ->]]]]]; simpl;
    apply (bool_decide_unpack _); vm_compute; exact I.
Qed.

Lemma allDirections_shape (l : list Z) :
  l ≡ₚ allDirections ->
  length l = 6%nat /\ Forall (fun d => (0 <= d < 6)%Z) l.
Proof.
  intros Hp. split.
  - rewrite Hp. reflexivity.
  - rewrite Hp. unfold allDirections. repeat constructor; lia.
Qed.

Lemma heading_cases (s : Z) :
  (0 <= s < 6)%Z ->
  s = 0%Z \/ s = 1%Z \/ s = 2%Z \/ s = 3%Z \/ s = 4%Z \/ s = 5%Z.
Proof. lia. Qed.

Lemma priorities_fixed_Permutation strategy preferred s r1 r2 :
  (0 <= s < 6)%Z ->
  strategy <> Wanderer ->
  priorities_fixed strategy preferred s r1 r2 ≡ₚ allDirections.
Proof.
  intros Hs Hstrat.
  destruct strategy; [| congruence | |].
  - destruct (heading_cases s Hs) as [-> | [-> | [-> | [-> | [-> | ->]]]]];
      destruct preferred; apply (bool_decide_unpack _); vm_compute; exact I.
  - apply rotate_Permutation. exact Hs.
  - destruct (heading_cases s Hs) as [-> | [-> | [-> | [-> | [-> | ->]]]]];
      destruct preferred; apply (bool_decide_unpack _); vm_compute; exact I.
Qed.

Lemma wanderer_shape_fixed preferred s r1 r2 :
  (0 <= s < 6)%Z ->
  wanderer_shape s (priorities_fixed Wanderer preferred s r1 r2).
Proof.
  intros Hs. unfold wanderer_shape, priorities_fixed.
  destruct (JS.ltb r1 0.5), (JS.ltb r2 0.5);
    destruct (heading_cases s Hs) as [-> | [-> | [-> | [-> | [-> | ->]]]]];
    (split; [reflexivity |]);
    (split; [repeat constructor; vm_compute; congruence |]);
    (split; [reflexivity |]);
    (split; [apply (bool_decide_unpack _); vm_compute; exact I |]);
    apply (bool_decide_unpack _); vm_compute; exact I.
Qed.

Lemma wanderer_list_fixed preferred s r1 r2 :
  (0 <= s < 6)%Z ->
  let prios := priorities_fixed Wanderer preferred s r1 r2 in
  prios = [s; picked60 s r1; picked120 s r2;
           Z.rem (s + 3) 6; Z.rem (s + 1) 6; Z.rem (s + 5) 6]
  /\ picked60 s r1 ∈ [Z.rem (s + 1) 6; Z.rem (s + 5) 6]
  /\ occurrences (picked60 s r1) prios = 2%nat
  /\ occurrences (omitted120 s r2) prios = 0%nat
  /\ (omitted120 s r2 ∉ prios)
  /\ (forall d, (0 <= d < 6)%Z -> d <> picked60 s r1 -> d <> omitted120 s r2 ->
        occurrences d prios = 1%nat).
Proof.
  intros Hs prios. subst prios.
  unfold priorities_fixed, picked60, picked120, omitted120, occurrences.
  destruct (JS.ltb r1 0.5), (JS.ltb r2 0.5);
    destruct (heading_cases s Hs) as [-> | [-> | [-> | [-> | [-> | ->]]]]];
    (split; [reflexivity |]);
    (split; [apply (bool_decide_unpack _); vm_compute; exact I |]);
    (split; [reflexivity |]);
    (split; [reflexivity |]);
    (split; [apply (bool_decide_unpack _); vm_compute; exact I |]);
    intros d Hd H60 H120;
    destruct (heading_cases d Hd) as [-> | [-> | [-> | [-> | [-> | ->]]]]];
    try reflexivity; exfalso; first [apply H60; reflexivity | apply H120; reflexivity].
Qed.

(** C4, as the code has it.  For a heading in 0..5, whatever the turn
    preference and the random draws: the list [calculateMove] builds has six
    entries, all of them directions; for the wall-follower, the explorer and
    the spiral it is a permutation of the six directions; for the wanderer,
    whose two coin flips are the next two draws, it is the list of straight
    ahead, the 60-degree turn the first flip picks, the 120-degree turn the
    second flip picks, the reverse and the two 60-degree turns, and it is
    never a permutation: the 60-degree turn picked by the first flip occurs
    exactly twice (it is one of the two fixed last resorts as well), the
    120-degree turn the second flip does not pick is omitted, and every
    other direction occurs exactly once. *)
Theorem priorities_shape (car : Car.t) (w : World) :
  (0 <= Car.currentDirection car < 6)%Z ->
  let prios := eval (priorities random car) w in
  let s := Car.currentDirection car in
  let r1 := draw_val (random (randomCalls w)) in
  let r2 := draw_val (random (S (randomCalls w))) in
  length prios = 6%nat
  /\ Forall (fun d => (0 <= d < 6)%Z) prios
  /\ (Car.strategy car <> Wanderer -> prios ≡ₚ allDirections)
  /\ (Car.strategy car = Wanderer ->
      head prios = Some (Car.currentDirection car)
      /\ ~ NoDup prios
      /\ ~ (Z.rem (Car.currentDirection car + 2) 6 ∈ prios
            /\ Z.rem (Car.currentDirection car + 4) 6 ∈ prios)
      /\ ~ prios ≡ₚ allDirections
      /\ prios = [s; picked60 s r1; picked120 s r2;
                  Z.rem (s + 3) 6; Z.rem (s + 1) 6; Z.rem (s + 5) 6]
      /\ picked60 s r1 ∈ [Z.rem (s + 1) 6; Z.rem (s + 5) 6]
      /\ occurrences (picked60 s r1) prios = 2%nat
      /\ occurrences (omitted120 s r2) prios = 0%nat
      /\ (omitted120 s r2 ∉ prios)
      /\ (forall d, (0 <= d < 6)%Z -> d <> picked60 s r1 -> d <> omitted120 s r2 ->
            occurrences d prios = 1%nat)).
Proof.
  intros Hs prios s r1 r2.
  assert (Hperm : Car.strategy car <> Wanderer -> prios ≡ₚ allDirections).
  { intros Hstrat. subst prios. unfold priorities.
    destruct (Car.strategy car) eqn:Hst; [| congruence | |].
    - apply priorities_fixed_Permutation; [exact Hs | congruence].
    - rewrite shuffle_Permutation.
      apply priorities_fixed_Permutation; [exact Hs | congruence].
    - apply priorities_fixed_Permutation; [exact Hs | congruence]. }
  assert (Hlist : Car.strategy car = Wanderer ->
                  prios = priorities_fixed Wanderer (Car.preferredTurnDirection car)
                            s r1 r2).
  { intros Hstrat. subst prios. unfold priorities. rewrite Hstrat.
    rewrite !eval_bind, eval_ret. reflexivity. }
  assert (Hwand : Car.strategy car = Wanderer ->
                  wanderer_shape (Car.currentDirection car) prios).
  { intros Hstrat. rewrite (Hlist Hstrat). apply wanderer_shape_fixed. exact Hs. }
  destruct (decide (Car.strategy car = Wanderer)) as [Hst | Hst].
  - destruct (Hwand Hst) as (Hlen & Hall & Hhead & Hdup & Hmiss).
    split; [exact Hlen |]. split; [exact Hall |]. split; [congruence |].
    intros _. split; [exact Hhead |]. split; [exact Hdup |]. split; [exact Hmiss |].
    split.
    + intros Hp. apply Hdup. rewrite Hp.
      apply (bool_decide_unpack _). vm_compute. exact I.
    + rewrite (Hlist Hst).
      exact (wanderer_list_fixed (Car.preferredTurnDirection car) s r1 r2 Hs).
  - destruct (allDirections_shape prios (Hperm Hst)) as [Hlen Hall].
    split; [exact Hlen |]. split; [exact Hall |]. split; [exact Hperm |].
    intros Hw. congruence.
Qed.

End Priorities.

(** ** Move legality *)

Section MoveLegality.

#[local] Open Scope Q_scope.

Variable sqrt : Q -> Q.

Lemma truthy_occupied cells key : JS.truthy (cells !! key) = true <-> occupied cells key.
Proof.
  unfold JS.truthy, occupied. destruct (cells !! key) as [v|]; split.
  - intros H. exists v. split; [reflexivity |].
    apply negb_true_iff in H. apply Z.eqb_neq in H. exact H.
  - intros (v' & Hv & Hne). injection Hv as ->.
    apply negb_true_iff. apply Z.eqb_neq. exact Hne.
  - discriminate.
  - intros (v' & Hv & _). discriminate.
Qed.

Lemma not_truthy_occupied cells key :
  JS.truthy (cells !! key) = false <-> ~ occupied cells key.
Proof. rewrite <- truthy_occupied. symmetry. apply not_true_iff_false. Qed.

Lemma pathBlockedAt_1 c dir cells :
  Car.pathBlockedAt sqrt c dir cells 3 1 = true
  <-> sampleHitsOccupied sqrt c dir cells (1 # 3).
Proof.
  unfold Car.pathBlockedAt, sampleHitsOccupied, euclid, JS.Math_pow2.
  change (inject_Z 1 / inject_Z 3) with (1 # 3).
  destruct (snapToGrid (Car.hexSize c) (Car.x c + Car.dx dir * (1 # 3))
              (Car.y c + Car.dy dir * (1 # 3))) as [gx gy]. simpl fst; simpl snd.
  case_cmp.
  - rewrite andb_true_iff, truthy_occupied, negb_true_iff, String.eqb_neq.
    tauto.
  - split; [discriminate |]. intros (Hlt & _). lra.
Qed.

Lemma pathBlockedAt_2 c dir cells :
  Car.pathBlockedAt sqrt c dir cells 3 2 = true
  <-> sampleHitsOccupied sqrt c dir cells (2 # 3).
Proof.
  unfold Car.pathBlockedAt, sampleHitsOccupied, euclid, JS.Math_pow2.
  change (inject_Z 2 / inject_Z 3) with (2 # 3).
  destruct (snapToGrid (Car.hexSize c) (Car.x c + Car.dx dir * (2 # 3))
              (Car.y c + Car.dy dir * (2 # 3))) as [gx gy]. simpl fst; simpl snd.
  case_cmp.
  - rewrite andb_true_iff, truthy_occupied, negb_true_iff, String.eqb_neq.
    tauto.
  - split; [discriminate |]. intros (Hlt & _). lra.
Qed.

Lemma near_ltb tol px py qx qy :
  JS.ltb (Qabs (px - qx)) tol && JS.ltb (Qabs (py - qy)) tol = true
  <-> near tol px py qx qy.
Proof. unfold near. rewrite andb_true_iff, !ltb_lt. reflexivity. Qed.

Lemma linesIntersect_crosses c px py dx dy line :
  Car.linesIntersect c px py dx dy (x1 line) (y1 line) (x2 line) (y2 line) = true
  <-> crosses (Car.hexSize c) px py dx dy line.
Proof.
  unfold Car.linesIntersect, crosses.
  set (tol := Car.hexSize c * 0.15).
  set (denom := (y2 line - y1 line) * (dx - px) - (x2 line - x1 line) * (dy - py)).
  set (ua := ((x2 line - x1 line) * (py - y1 line)
              - (y2 line - y1 line) * (px - x1 line)) / denom).
  set (ub := ((dx - px) * (py - y1 line) - (dy - py) * (px - x1 line)) / denom).
  destruct (JS.ltb (Qabs (px - x1 line)) tol && JS.ltb (Qabs (py - y1 line)) tol
            || JS.ltb (Qabs (px - x2 line)) tol && JS.ltb (Qabs (py - y2 line)) tol
            || JS.ltb (Qabs (dx - x1 line)) tol && JS.ltb (Qabs (dy - y1 line)) tol
            || JS.ltb (Qabs (dx - x2 line)) tol && JS.ltb (Qabs (dy - y2 line)) tol)
    eqn:Hshare.
  - rewrite !orb_true_iff, !near_ltb in Hshare.
    split; [discriminate |]. intros (Hno & _). exfalso. apply Hno. tauto.
  - assert (Hno : ~ (near tol px py (x1 line) (y1 line)
                     \/ near tol px py (x2 line) (y2 line)
                     \/ near tol dx dy (x1 line) (y1 line)
                     \/ near tol dx dy (x2 line) (y2 line))).
    { rewrite <- !near_ltb, <- !orb_true_iff.
      rewrite <- !orb_assoc in Hshare. rewrite Hshare. discriminate. }
    destruct (JS.ltb (Qabs denom) 0.0001) eqn:Hpar.
    + apply ltb_lt in Hpar. split; [discriminate |]. tauto.
    + apply ltb_ge in Hpar.
      rewrite !andb_true_iff, !ltb_lt.
      split.
      * intros (((H1 & H2) & H3) & H4). repeat split; try assumption.
        apply Qle_not_lt. exact Hpar.
      * intros (_ & _ & (H1 & H2) & (H3 & H4)). tauto.
Qed.

Lemma recentLines_last100 lines : Car.recentLines lines = last100 lines.
Proof.
  unfold Car.recentLines, last100. f_equal. lia.
Qed.

Lemma bounds_check width height nx ny :
  JS.ltb nx 0 || JS.leb width nx || JS.ltb ny 0 || JS.leb height ny = false
  <-> withinBounds width height (nx, ny).
Proof.
  unfold withinBounds. simpl.
  rewrite !orb_false_iff, !ltb_ge, !leb_gt. tauto.
Qed.

(** C3.  Move legality.  For a car and one of the six directions,
    [tryDirection] returns a move exactly when the destination lies within
    the canvas, its key is not occupied, neither the sample point at 1/3 nor
    the one at 2/3 of the step snaps (within 60% of the hex size) to an
    occupied cell other than the car's own, and the step crosses none of the
    last 100 recorded segments; the move it returns is that destination with
    that direction.  ([hexSize] is not 0, which is where the division of
    the model is the division of the source.) *)
Theorem move_legality (c : Car.t) (dirIndex : Z) (dir : Car.Dir)
    (cells : gmap string Z) (width height : Q) (lines : list Segment) :
  ~ Car.hexSize c == 0 ->
  Car.hexDirections (Car.hexSize c) dirIndex = Some dir ->
  (Car.tryDirection sqrt c dirIndex cells width height lines <> None
   <-> legalMove sqrt c dir cells width height lines)
  /\ (forall mv,
       Car.tryDirection sqrt c dirIndex cells width height lines = Some mv ->
       mv = {| Car.mx := Car.x c + Car.dx dir; Car.my := Car.y c + Car.dy dir;
               Car.mdirection := dirIndex |}).
Proof.
  intros _ Hdir. unfold Car.tryDirection, legalMove. rewrite Hdir.
  set (nx := Car.x c + Car.dx dir). set (ny := Car.y c + Car.dy dir).
  change (seqZ 1 (3 - 1)) with [1%Z; 2%Z]. simpl existsb.
  rewrite recentLines_last100.
  destruct (JS.ltb nx 0 || JS.leb width nx || JS.ltb ny 0 || JS.leb height ny)
    eqn:Hb.
  { split; [| discriminate]. split; [done |].
    intros (Hin & _). apply bounds_check in Hin. congruence. }
  apply bounds_check in Hb.
  destruct (JS.truthy (cells !! Car.getHexKey nx ny)) eqn:Hocc.
  { split; [| discriminate]. split; [done |].
    intros (_ & Hfree & _). apply truthy_occupied in Hocc. tauto. }
  apply not_truthy_occupied in Hocc.
  destruct (Car.pathBlockedAt sqrt c dir cells 3 1) eqn:H1.
  { split; [| discriminate]. split; [done |].
    intros (_ & _ & Hs & _). apply pathBlockedAt_1 in H1. tauto. }
  destruct (Car.pathBlockedAt sqrt c dir cells 3 2) eqn:H2.
  { split; [| discriminate]. split; [done |].
    intros (_ & _ & _ & Hs & _). apply pathBlockedAt_2 in H2. tauto. }
  simpl orb.
  assert (H1' : ~ sampleHitsOccupied sqrt c dir cells (1 # 3))
    by (rewrite <- pathBlockedAt_1; congruence).
  assert (H2' : ~ sampleHitsOccupied sqrt c dir cells (2 # 3))
    by (rewrite <- pathBlockedAt_2; congruence).
  destruct (existsb _ (last100 lines)) eqn:Hx.
  - split; [| discriminate]. split; [done |].
    intros (_ & _ & _ & _ & Hlines).
    apply existsb_exists in Hx. destruct Hx as (line & Hin & Hcross).
    apply linesIntersect_crosses in Hcross.
    apply list_elem_of_In in Hin. exfalso. exact (Hlines line Hin Hcross).
  - split; [| intros mv [= <-]; reflexivity].
    split; [| congruence]. intros _.
    repeat split; try tauto; try apply Hb.
    intros line Hin Hcross.
    apply linesIntersect_crosses in Hcross. apply list_elem_of_In in Hin.
    assert (existsb
              (fun line0 =>
                 Car.linesIntersect c (Car.x c) (Car.y c) nx ny
                   (x1 line0) (y1 line0) (x2 line0) (y2 line0))
              (last100 lines) = true) as Hex
      by (apply existsb_exists; exists line; split; assumption).
    congruence.
Qed.

End MoveLegality.

(** ** One traversal of the control structure of [draw]

    Whatever property of the world is kept by the elementary actions (a
    call of an oracle, placing a car on a free key, [executeMove], dying on
    the spot, retiring a stuck car, removing the traces of a dead car,
    [clearFadedCells] for the ids of the live cars, setting one of the two
    time stamps) is kept by [spawnCar], by every phase, by [draw] and by the
    constructor's [init]. *)

Section Traversal.

Import CircuitBoard.

Variable sqrt : Q -> Q.
Variable random : nat -> unit_draw.
Variable clock : nat -> Z.

#[local] Abbreviation Math_random := (Math_random random).
#[local] Abbreviation Date_now := (Date_now clock).
#[local] Abbreviation placeCar := (placeCar random clock).
#[local] Abbreviation spawnCar := (spawnCar random clock).
#[local] Abbreviation executeMove := (executeMove sqrt clock).
#[local] Abbreviation dieOnTheSpot := (dieOnTheSpot clock).
#[local] Abbreviation retireCar := (retireCar clock).
#[local] Abbreviation draw := (draw sqrt random clock).

Variable P : World -> Prop.

Hypothesis P_random : forall w, P w -> P (exec Math_random w).
Hypothesis P_now : forall w, P w -> P (exec Date_now w).
Hypothesis P_place : forall w gx gy s,
  P w ->
  JS.truthy (occupiedCells (this w) !! getHexKey gx gy) = false ->
  P (exec (placeCar gx gy (getHexKey gx gy) s) w).
Hypothesis P_move : forall w i mv, P w -> P (exec (executeMove i mv) w).
Hypothesis P_die : forall w i, P w -> P (exec (dieOnTheSpot i) w).
Hypothesis P_retire : forall w i car,
  P w -> cars (this w) !! i = Some car -> Car.stuck car = true ->
  P (exec (retireCar i car) w).
Hypothesis P_remove : forall w id,
  P w -> is_Some (deadCarIds (this w) !! id) ->
  P (exec (removeCarTraces id) w).
Hypothesis P_clear : forall w currentTime,
  P w ->
  P (exec (clearFadedCells currentTime
             (list_to_set (map Car.id (cars (this w))))) w).
Hypothesis P_stepTime : forall w v, P w -> P (exec (modify (set_lastStepTime v)) w).
Hypothesis P_spawnTime : forall w v, P w -> P (exec (modify (set_lastSpawnTime v)) w).

Lemma this_random w : this (exec Math_random w) = this w.
Proof. reflexivity. Qed.

Lemma this_now w : this (exec Date_now w) = this w.
Proof. reflexivity. Qed.

Lemma selectStrategy_exec w :
  exec (selectStrategyByFitness random) w = exec Math_random (exec Math_random w).
Proof.
  unfold selectStrategyByFitness. rewrite !exec_bind, exec_get.
  repeat match goal with |- context [if ?c then _ else _] => destruct c end;
    reflexivity.
Qed.

Lemma spawnCar_random_keeps n s w :
  P w -> P (exec (spawnCar_random random clock n s) w).
Proof.
  revert w. induction n as [| n IH]; intros w HP; [exact HP |].
  simpl. rewrite !exec_bind, exec_get, eval_get.
  set (w2 := exec Math_random (exec Math_random w)).
  assert (HP2 : P w2) by (apply P_random, P_random, HP).
  match goal with |- context [negb ?c] => destruct c eqn:Hocc end; simpl.
  - apply IH. exact HP2.
  - rewrite exec_bind, exec_ret. apply P_place; assumption.
Qed.

Lemma scanFree_free b p :
  scanFree b p = true ->
  JS.truthy (occupiedCells b !! getHexKey (fst p) (snd p)) = false.
Proof.
  unfold scanFree. rewrite andb_true_iff, negb_true_iff. tauto.
Qed.

Lemma spawnCar_scan_keeps s w :
  P w -> P (exec (spawnCar_scan random clock s) w).
Proof.
  intros HP. unfold spawnCar_scan. rewrite exec_bind, exec_get, eval_get.
  destruct (find (scanFree (this w)) (scanPositions (this w))) as [p|] eqn:Hfind.
  - rewrite exec_bind, exec_ret. apply P_place; [exact HP |].
    apply find_some in Hfind. apply scanFree_free. tauto.
  - exact HP.
Qed.

Lemma spawnCar_keeps w : P w -> P (exec spawnCar w).
Proof.
  intros HP. unfold CircuitBoard.spawnCar. rewrite !exec_bind.
  assert (HP1 : P (exec (selectStrategyByFitness random) w))
    by (rewrite selectStrategy_exec; apply P_random, P_random, HP).
  pose proof (spawnCar_random_keeps maxAttempts
                (eval (selectStrategyByFitness random) w) _ HP1) as HP2.
  destruct (eval (spawnCar_random random clock maxAttempts _) _).
  - exact HP2.
  - apply spawnCar_scan_keeps. exact HP2.
Qed.

Lemma shuffle_keeps i p w : P w -> P (exec (shuffle random i p) w).
Proof.
  revert p w. induction i as [| i IH]; intros p w HP; [exact HP |].
  simpl. rewrite exec_bind. apply IH, P_random, HP.
Qed.

Lemma priorities_keeps car w : P w -> P (exec (priorities random car) w).
Proof.
  intros HP. unfold priorities. destruct (Car.strategy car).
  - exact HP.
  - rewrite !exec_bind. apply P_random, P_random, HP.
  - apply shuffle_keeps, HP.
  - exact HP.
Qed.

Lemma calculateMove_keeps car w :
  P w -> P (exec (calculateMove sqrt random car) w).
Proof.
  intros HP. unfold calculateMove. rewrite !exec_bind.
  apply priorities_keeps, HP.
Qed.

Lemma phase1_keeps cs i w : P w -> P (exec (phase1 sqrt random i cs) w).
Proof.
  revert i w. induction cs as [| car cs IH]; intros i w HP; [exact HP |].
  simpl. destruct (Car.stuck car); simpl.
  - apply IH, HP.
  - rewrite !exec_bind. apply IH, calculateMove_keeps, HP.
Qed.

Lemma phase3_step_keeps counts i moves w :
  P w -> P (exec (phase3_step sqrt clock counts i moves) w).
Proof.
  intros HP. unfold phase3_step.
  destruct (moves !! i) as [entry|]; [| exact HP].
  destruct (move entry) as [mv|].
  - destruct (JS.truthy_str (snappedDestKey entry)).
    + destruct (bool_decide _).
      * rewrite exec_bind. apply P_move, HP.
      * rewrite exec_bind.
        destruct (length _ =? 2)%nat; apply P_move, HP.
    + rewrite exec_bind. apply P_die, HP.
  - rewrite exec_bind. apply P_die, HP.
Qed.

Lemma foldM_keeps {A S} (body : A -> S -> M S) (l : list A) :
  (forall a s w, P w -> P (exec (body a s) w)) ->
  forall s w, P w -> P (exec (foldM l body s) w).
Proof.
  intros Hbody. induction l as [| a l IH]; intros s w HP; [exact HP |].
  simpl. rewrite exec_bind. apply IH, Hbody, HP.
Qed.

Lemma forM_keeps {A} (body : A -> M unit) (l : list A) :
  (forall a w, P w -> P (exec (body a) w)) ->
  forall w, P w -> P (exec (forM_ l body) w).
Proof.
  intros Hbody. induction l as [| a l IH]; intros w HP; [exact HP |].
  simpl. rewrite exec_bind. apply IH, Hbody, HP.
Qed.

Lemma phase3_keeps counts moves w :
  P w -> P (exec (phase3 sqrt clock counts moves) w).
Proof.
  unfold phase3. apply foldM_keeps. intros; apply phase3_step_keeps; assumption.
Qed.

Lemma phase4_keeps n stuckCars w :
  P w -> P (exec (phase4 clock n stuckCars) w).
Proof.
  revert stuckCars w. induction n as [| n IH]; intros stuckCars w HP; [exact HP |].
  simpl. rewrite exec_bind, exec_get, eval_get.
  destruct (cars (this w) !! n) as [car|] eqn:Hcar; [| apply IH, HP].
  destruct (Car.stuck car) eqn:Hstuck; [| apply IH, HP].
  rewrite exec_bind. apply IH. apply P_retire; assumption.
Qed.

Lemma oldest_fold (dead : gmap Z Z) (l : list Z) (best : option (Z * Z)) :
  (forall i t, best = Some (i, t) -> dead !! i = Some t) ->
  forall i t, fold_left (oldestStep dead) l best = Some (i, t) ->
    dead !! i = Some t
    /\ (forall j tj, j ∈ l -> dead !! j = Some tj -> (t <= tj)%Z)
    /\ (forall bi bt, best = Some (bi, bt) -> (t <= bt)%Z).
Proof.
  revert best. induction l as [| a l IH]; intros best Hbest i t Hfold.
  - simpl in Hfold. split; [apply Hbest, Hfold |]. split.
    + intros j tj Hj. inversion Hj.
    + intros bi bt Hb. rewrite Hb in Hfold. injection Hfold as -> ->. lia.
  - simpl in Hfold.
    assert (Hstep : forall i' t', oldestStep dead best a = Some (i', t') ->
                    dead !! i' = Some t').
    { unfold oldestStep. intros i' t'.
      destruct (dead !! a) as [ta|] eqn:Ha; [| apply Hbest].
      destruct best as [[bi bt]|].
      - destruct (ta <? bt)%Z; intros [= <- <-]; [exact Ha | apply Hbest; reflexivity].
      - intros [= <- <-]. exact Ha. }
    destruct (IH _ Hstep i t Hfold) as (Hi & Hl & Hb).
    split; [exact Hi |]. split.
    + intros j tj Hj Hdj. apply elem_of_cons in Hj. destruct Hj as [-> | Hj].
      * unfold oldestStep in Hb. rewrite Hdj in Hb.
        destruct best as [[bi bt]|].
        -- destruct (tj <? bt)%Z eqn:Hlt.
           ++ eapply Hb. reflexivity.
           ++ apply Z.ltb_ge in Hlt. specialize (Hb bi bt eq_refl). lia.
        -- eapply Hb. reflexivity.
      * eapply Hl; eassumption.
    + intros bi bt ->. unfold oldestStep in Hb.
      destruct (dead !! a) as [ta|]; [| eapply Hb; reflexivity].
      destruct (ta <? bt)%Z eqn:Hlt; [| eapply Hb; reflexivity].
      apply Z.ltb_lt in Hlt. specialize (Hb a ta eq_refl). lia.
Qed.

Lemma oldest_fold_None (dead : gmap Z Z) (l : list Z) (best : option (Z * Z)) :
  fold_left (oldestStep dead) l best = None ->
  best = None /\ forall j, j ∈ l -> dead !! j = None.
Proof.
  revert best. induction l as [| a l IH]; intros best Hfold.
  - split; [exact Hfold |]. intros j Hj. inversion Hj.
  - simpl in Hfold. destruct (IH _ Hfold) as (Hstep & Hl).
    unfold oldestStep in Hstep.
    destruct (dead !! a) as [ta|] eqn:Ha.
    + destruct best as [[bi bt]|]; [destruct (ta <? bt)%Z |]; discriminate.
    + split; [exact Hstep |]. intros j Hj.
      apply elem_of_cons in Hj. destruct Hj as [-> | Hj]; [exact Ha | apply Hl, Hj].
Qed.

Lemma elem_of_sorted_dom (dead : gmap Z Z) j :
  j ∈ merge_sort Z.le (elements (dom dead)) <-> is_Some (dead !! j).
Proof.
  rewrite merge_sort_Permutation, elem_of_elements, elem_of_dom. reflexivity.
Qed.

(** The car [oldestDeadCar] finds is dead, and no dead car died earlier. *)
Lemma oldestDeadCar_spec (dead : gmap Z Z) id :
  oldestDeadCar dead = Some id ->
  exists t, dead !! id = Some t
            /\ forall j tj, dead !! j = Some tj -> (t <= tj)%Z.
Proof.
  unfold oldestDeadCar. intros H.
  destruct (fold_left _ _ None) as [[i t]|] eqn:Hfold; [| discriminate].
  simpl in H. injection H as ->.
  destruct (oldest_fold dead _ None ltac:(discriminate) _ _ Hfold) as (Hi & Hl & _).
  exists t. split; [exact Hi |].
  intros j tj Hj. eapply Hl; [| exact Hj].
  apply elem_of_sorted_dom. eauto.
Qed.

(** It finds one as soon as a car is dead. *)
Lemma oldestDeadCar_Some (dead : gmap Z Z) :
  (0 < size dead)%nat -> is_Some (oldestDeadCar dead).
Proof.
  intros Hsize. unfold oldestDeadCar.
  destruct (fold_left _ _ None) as [[i t]|] eqn:Hfold; [simpl; eauto |].
  exfalso. apply oldest_fold_None in Hfold. destruct Hfold as (_ & Hnone).
  assert (dead = ∅) as ->.
  { apply map_eq. intros j. rewrite lookup_empty.
    destruct (dead !! j) eqn:Hj; [| reflexivity].
    rewrite <- (Hnone j), Hj; [reflexivity |].
    apply elem_of_sorted_dom. eauto. }
  rewrite map_size_empty in Hsize. lia.
Qed.

Lemma spawnPhase_keeps currentTime w :
  P w -> P (exec (spawnPhase random clock currentTime) w).
Proof.
  intros HP. unfold spawnPhase. rewrite exec_bind, exec_get, eval_get.
  match goal with |- context [if ?c then _ else _] => destruct c end; [| exact HP].
  rewrite !exec_bind, exec_get, eval_get.
  apply P_spawnTime.
  pose proof (spawnCar_keeps w HP) as HP1.
  match goal with |- context [if ?c then _ else _] => destruct c end; [| exact HP1].
  destruct (oldestDeadCar _) as [id|] eqn:Hold; [| exact HP1].
  rewrite !exec_bind, exec_ret.
  apply spawnCar_keeps. apply P_remove; [exact HP1 |].
  apply oldestDeadCar_spec in Hold. destruct Hold as (t & Ht & _). eauto.
Qed.

Lemma movePhases_keeps currentTime w :
  P w -> P (exec (movePhases sqrt random clock currentTime) w).
Proof.
  intros HP. unfold movePhases. rewrite !exec_bind, exec_ret.
  apply phase3_keeps, phase1_keeps.
  rewrite exec_get. apply P_stepTime, HP.
Qed.

Lemma step_keeps currentTime w :
  P w -> P (exec (step sqrt random clock currentTime) w).
Proof.
  intros HP. unfold step. rewrite !exec_bind, exec_ret.
  apply spawnPhase_keeps, phase4_keeps.
  rewrite exec_get. apply movePhases_keeps, HP.
Qed.

Lemma draw_keeps w : P w -> P (exec draw w).
Proof.
  intros HP. unfold CircuitBoard.draw. rewrite !exec_bind, !exec_get, !eval_get.
  assert (HP1 : P (exec (clearFadedCells (eval Date_now w)
                           (list_to_set (map Car.id (cars (this (exec Date_now w))))))
                     (exec Date_now w)))
    by (apply P_clear, P_now, HP).
  match goal with |- context [if ?c then _ else _] => destruct c end.
  - apply step_keeps, HP1.
  - exact HP1.
Qed.

Lemma init_keeps w : P w -> P (exec (init sqrt random clock) w).
Proof.
  intros HP. unfold init. rewrite !exec_bind, exec_ret, exec_get, eval_get.
  apply draw_keeps.
  destruct (JS.eqb _ _); [| exact HP].
  apply forM_keeps; [| exact HP].
  intros _ w' HP'. rewrite exec_bind, exec_ret. apply spawnCar_keeps, HP'.
Qed.

Lemma frames_keeps n w : P w -> P (frames sqrt random clock n w).
Proof.
  revert w. induction n as [| n IH]; intros w HP; [exact HP |].
  simpl. apply IH, draw_keeps, HP.
Qed.

End Traversal.

(** ** The cell bookkeeping *)

Section Bookkeeping.

Import CircuitBoard.

Variable sqrt : Q -> Q.
Variable random : nat -> unit_draw.
Variable clock : nat -> Z.

Lemma deleteKeys_lookup {V} (keys : list string) (m : gmap string V) k :
  deleteKeys keys m !! k = if decide (k ∈ keys) then None else m !! k.
Proof.
  unfold deleteKeys. induction keys as [| a keys IH]; cbn [foldr].
  - rewrite decide_False; [reflexivity | apply not_elem_of_nil].
  - rewrite lookup_delete, IH.
    repeat case_decide; try reflexivity; subst; exfalso; set_solver.
Qed.

Lemma deleteKeys_dom {V} (keys : list string) (m : gmap string V) :
  dom (deleteKeys keys m) = dom m ∖ list_to_set keys.
Proof.
  apply set_eq. intros k.
  rewrite elem_of_difference, !elem_of_dom, deleteKeys_lookup, elem_of_list_to_set.
  case_decide; split.
  - intros [? ?]. discriminate.
  - tauto.
  - tauto.
  - tauto.
Qed.

Lemma mapsConsistent_tables b b' :
  occupiedCells b' = occupiedCells b ->
  cellTimestamps b' = cellTimestamps b ->
  cellOwners b' = cellOwners b ->
  mapsConsistent b -> mapsConsistent b'.
Proof. unfold mapsConsistent. intros -> -> ->. tauto. Qed.

(** Under the invariant, a key is truthy exactly when it is in the table. *)
Lemma mapsConsistent_falsy b key :
  mapsConsistent b ->
  JS.truthy (occupiedCells b !! key) = false ->
  occupiedCells b !! key = None.
Proof.
  intros (_ & _ & Hone) Hf. destruct (occupiedCells b !! key) as [v|] eqn:Hk.
  - rewrite (Hone _ _ Hk) in Hf. discriminate.
  - reflexivity.
Qed.

Lemma mapsConsistent_insert b key now owner occ ts own :
  mapsConsistent b ->
  JS.truthy (occupiedCells b !! key) = false ->
  occ = <[key := (JS.or0 (occupiedCells b !! key) + 1)%Z]> (occupiedCells b) ->
  ts = <[key := now]> (cellTimestamps b) ->
  own = <[key := owner]> (cellOwners b) ->
  dom occ = dom ts /\ dom ts = dom own
  /\ forall k v, occ !! k = Some v -> v = 1%Z.
Proof.
  intros Hm Hf -> -> ->.
  rewrite (mapsConsistent_falsy _ _ Hm Hf).
  destruct Hm as (H1 & H2 & Hone).
  rewrite !dom_insert_L, H1, H2. repeat split.
  intros k v. rewrite lookup_insert. case_decide.
  - intros [= <-]. reflexivity.
  - apply Hone.
Qed.

Lemma mapsConsistent_delete b keys occ ts own :
  mapsConsistent b ->
  occ = deleteKeys keys (occupiedCells b) ->
  ts = deleteKeys keys (cellTimestamps b) ->
  own = deleteKeys keys (cellOwners b) ->
  dom occ = dom ts /\ dom ts = dom own
  /\ forall k v, occ !! k = Some v -> v = 1%Z.
Proof.
  intros (H1 & H2 & Hone) -> -> ->.
  rewrite !deleteKeys_dom, H1, H2. repeat split.
  intros k v. rewrite deleteKeys_lookup. case_decide; [discriminate | apply Hone].
Qed.

Lemma placeCar_maps gx gy key s w :
  mapsConsistent (this w) ->
  JS.truthy (occupiedCells (this w) !! key) = false ->
  mapsConsistent (this (exec (placeCar random clock gx gy key s) w)).
Proof.
  intros Hm Hf. eapply mapsConsistent_insert; try eassumption; reflexivity.
Qed.

Lemma executeMove_maps i mv w :
  mapsConsistent (this w) ->
  mapsConsistent (this (exec (executeMove sqrt clock i mv) w)).
Proof.
  intros Hm. unfold executeMove. mstep. mstep. mstep.
  destruct (cars (this w) !! i) as [car|]; [| exact Hm].
  destruct (JS.truthy _) eqn:Hf.
  - exact Hm.
  - eapply mapsConsistent_insert; try eassumption; reflexivity.
Qed.

Lemma dieOnTheSpot_maps i w :
  mapsConsistent (this w) ->
  mapsConsistent (this (exec (dieOnTheSpot clock i) w)).
Proof.
  intros Hm. unfold dieOnTheSpot. mstep. mstep. mstep.
  destruct (cars (this w) !! i) as [car|]; exact Hm.
Qed.

Lemma removeCarTraces_maps id w :
  mapsConsistent (this w) ->
  mapsConsistent (this (exec (removeCarTraces id) w)).
Proof.
  intros Hm. eapply mapsConsistent_delete; try eassumption; reflexivity.
Qed.

Lemma clearFadedCells_maps currentTime alive w :
  mapsConsistent (this w) ->
  mapsConsistent (this (exec (clearFadedCells currentTime alive) w)).
Proof.
  intros Hm. unfold clearFadedCells. mstep. mstep. mstep.
  destruct (infiniteLifetime (this w)); [exact Hm |].
  mstep.
  destruct (negb _); [exact Hm |].
  mstep. mstep. mstep.
  destruct (0 <? _)%Z.
  - eapply mapsConsistent_delete; try eassumption; reflexivity.
  - eapply mapsConsistent_delete; try eassumption; reflexivity.
Qed.

Lemma spawnCar_maps w :
  mapsConsistent (this w) -> mapsConsistent (this (exec (spawnCar random clock) w)).
Proof.
  apply (spawnCar_keeps random clock (fun w => mapsConsistent (this w))).
  - intros w' H. exact H.
  - intros w' gx gy s. apply placeCar_maps.
Qed.

Lemma draw_maps w :
  mapsConsistent (this w) ->
  mapsConsistent (this (exec (draw sqrt random clock) w)).
Proof.
  apply (draw_keeps sqrt random clock (fun w => mapsConsistent (this w)));
    try (intros; assumption).
  - intros w' gx gy s. apply placeCar_maps.
  - intros w' i mv. apply executeMove_maps.
  - intros w' i. apply dieOnTheSpot_maps.
  - intros w' id H _. apply removeCarTraces_maps, H.
  - intros w' t. apply clearFadedCells_maps.
Qed.

Lemma init_maps w :
  mapsConsistent (this w) ->
  mapsConsistent (this (exec (init sqrt random clock) w)).
Proof.
  apply (init_keeps sqrt random clock (fun w => mapsConsistent (this w)));
    try (intros; assumption).
  - intros w' gx gy s. apply placeCar_maps.
  - intros w' i mv. apply executeMove_maps.
  - intros w' i. apply dieOnTheSpot_maps.
  - intros w' id H _. apply removeCarTraces_maps, H.
  - intros w' t. apply clearFadedCells_maps.
Qed.

Lemma fields_maps options innerWidth innerHeight :
  mapsConsistent (fields options innerWidth innerHeight).
Proof.
  unfold mapsConsistent. simpl. repeat split.
  intros key v. rewrite lookup_empty. discriminate.
Qed.

(** C10.  Map consistency.  In the world the constructor returns, and
    after any number of calls of [spawnCar], [executeMove],
    [removeCarTraces], [clearFadedCells] (with any arguments) and of frames,
    the tables [occupiedCells], [cellTimestamps] and [cellOwners] have the
    same keys and every value of [occupiedCells] is 1. *)
Theorem map_consistency (w : World) :
  bookkept sqrt random clock w ->
  dom (occupiedCells (this w)) = dom (cellTimestamps (this w))
  /\ dom (cellTimestamps (this w)) = dom (cellOwners (this w))
  /\ forall key v, occupiedCells (this w) !! key = Some v -> v = 1%Z.
Proof.
  intros Hw. change (mapsConsistent (this w)).
  induction Hw as [options iw ih w Hnew | w _ IH | w i mv _ IH | w id _ IH
                   | w t alive _ IH | w _ IH].
  - unfold new in Hnew. injection Hnew as <-.
    apply init_maps. apply fields_maps.
  - apply spawnCar_maps, IH.
  - apply executeMove_maps, IH.
  - apply removeCarTraces_maps, IH.
  - apply clearFadedCells_maps, IH.
  - apply draw_maps, IH.
Qed.

End Bookkeeping.

(** ** No double occupancy *)

Section NoDoubleOccupancy.

Import CircuitBoard.

Variable sqrt : Q -> Q.
Variable random : nat -> unit_draw.
Variable clock : nat -> Z.

Lemma map_fmap {A B} (f : A -> B) (l : list A) : map f l = f <$> l.
Proof. reflexivity. Qed.

(** A free key has no owner. *)
Lemma free_key_no_owner b key :
  mapsConsistent b ->
  JS.truthy (occupiedCells b !! key) = false ->
  cellOwners b !! key = None.
Proof.
  intros Hm Hf. pose proof (mapsConsistent_falsy _ _ Hm Hf) as Hnone.
  destruct Hm as (H1 & H2 & _).
  apply not_elem_of_dom. rewrite <- H2, <- H1. apply not_elem_of_dom. exact Hnone.
Qed.

Lemma placeCar_ndo gx gy s w :
  noDoubleOccupancy (this w) ->
  JS.truthy (occupiedCells (this w) !! getHexKey gx gy) = false ->
  noDoubleOccupancy (this (exec (placeCar random clock gx gy (getHexKey gx gy) s) w)).
Proof.
  intros [Hm Hids Hfresh Hdf Hdead Hown] Hf.
  pose proof (free_key_no_owner _ _ Hm Hf) as Hnone.
  constructor.
  - apply placeCar_maps; assumption.
  - simpl. rewrite map_app. apply NoDup_app. split; [exact Hids |]. split.
    + intros i Hi Hi'. simpl in Hi'. apply list_elem_of_singleton in Hi'.
      rewrite map_fmap in Hi. apply list_elem_of_fmap in Hi.
      destruct Hi as (c & -> & Hc). specialize (Hfresh c Hc). lia.
    + apply NoDup_singleton.
  - simpl. intros c Hc. apply elem_of_app in Hc. destruct Hc as [Hc | Hc].
    + specialize (Hfresh c Hc). lia.
    + apply list_elem_of_singleton in Hc. subst c. simpl. lia.
  - simpl. intros i Hi. specialize (Hdf i Hi). lia.
  - simpl. intros c Hc. apply elem_of_app in Hc. destruct Hc as [Hc | Hc].
    + apply Hdead, Hc.
    + apply list_elem_of_singleton in Hc. subst c. simpl.
      destruct (deadCarIds (this w) !! nextCarId (this w)) eqn:Hd; [| reflexivity].
      specialize (Hdf _ (mk_is_Some _ _ Hd)). lia.
  - simpl. intros c Hc. apply elem_of_app in Hc. destruct Hc as [Hc | Hc].
    + rewrite lookup_insert_ne; [apply Hown, Hc |].
      intros Heq. specialize (Hown c Hc). rewrite Heq in Hnone. congruence.
    + apply list_elem_of_singleton in Hc. subst c.
      apply lookup_insert_eq.
Qed.

(** Replacing a car by one with the same id and the same cell. *)
Lemma ndo_update_car b b' i car car' :
  noDoubleOccupancy b ->
  cars b !! i = Some car ->
  Car.id car' = Car.id car ->
  cars b' = <[i := car']> (cars b) ->
  nextCarId b' = nextCarId b ->
  deadCarIds b' = deadCarIds b ->
  mapsConsistent b' ->
  (forall c, c ∈ cars b -> cellOwners b' !! carKey c = cellOwners b !! carKey c) ->
  cellOwners b' !! carKey car' = Some (Car.id car) ->
  noDoubleOccupancy b'.
Proof.
  intros [Hm Hids Hfresh Hdf Hdead Hown] Hi Hid Hcars Hnext Hd Hm' Hother Hnew.
  assert (Hmap : map Car.id (cars b') = map Car.id (cars b)).
  { rewrite Hcars, !map_fmap, list_fmap_insert, Hid.
    apply list_insert_id. rewrite list_lookup_fmap, Hi. reflexivity. }
  assert (Hin : forall c, c ∈ cars b' -> c = car' \/ c ∈ cars b).
  { intros c Hc. rewrite Hcars in Hc. apply list_elem_of_lookup in Hc.
    destruct Hc as (j & Hj). destruct (decide (i = j)) as [<- | Hne].
    - rewrite list_lookup_insert_eq in Hj by (eapply lookup_lt_Some; eauto).
      left. congruence.
    - rewrite list_lookup_insert_ne in Hj by exact Hne.
      right. eapply list_elem_of_lookup_2; eauto. }
  assert (Hcar : car ∈ cars b) by (eapply list_elem_of_lookup_2; eauto).
  constructor.
  - exact Hm'.
  - rewrite Hmap. exact Hids.
  - rewrite Hnext. intros c Hc. destruct (Hin c Hc) as [-> | Hc'].
    + rewrite Hid. apply Hfresh, Hcar.
    + apply Hfresh, Hc'.
  - rewrite Hnext, Hd. exact Hdf.
  - rewrite Hd. intros c Hc. destruct (Hin c Hc) as [-> | Hc'].
    + rewrite Hid. apply Hdead, Hcar.
    + apply Hdead, Hc'.
  - intros c Hc. destruct (Hin c Hc) as [-> | Hc'].
    + rewrite Hid. exact Hnew.
    + rewrite Hother by exact Hc'. apply Hown, Hc'.
Qed.

Lemma executeMove_ndo i mv w :
  noDoubleOccupancy (this w) ->
  noDoubleOccupancy (this (exec (executeMove sqrt clock i mv) w)).
Proof.
  intros Hndo. pose proof (executeMove_maps sqrt clock i mv w (ndo_maps _ Hndo)) as Hm'.
  revert Hm'. unfold executeMove. mstep. mstep. mstep.
  destruct (cars (this w) !! i) as [car|] eqn:Hi; [| intros _; exact Hndo].
  assert (Hcar : car ∈ cars (this w)) by (eapply list_elem_of_lookup_2; eauto).
  destruct (JS.truthy _) eqn:Hf; intros Hm'.
  - eapply (ndo_update_car _ _ i car (Car.set_stuck true car)); eauto.
    exact (ndo_owner _ Hndo car Hcar).
  - pose proof (free_key_no_owner _ _ (ndo_maps _ Hndo) Hf) as Hnone.
    match type of Hm' with
    | mapsConsistent ?b' =>
      apply (ndo_update_car (this w) b' i car
               (movedCar sqrt car
                  (fst (snapToGrid (hexSize (this w)) (x mv) (y mv)))
                  (snd (snapToGrid (hexSize (this w)) (x mv) (y mv))) mv) Hndo Hi)
    end; [reflexivity | reflexivity | reflexivity | reflexivity | exact Hm' | |];
      clear Hm'; set (snapped := snapToGrid (hexSize (this w)) (x mv) (y mv)) in *.
    + intros c Hc.
      change (<[getHexKey (fst snapped) (snd snapped) := Car.id car]>
                (cellOwners (this w)) !! carKey c
              = cellOwners (this w) !! carKey c).
      apply lookup_insert_ne.
      intros Heq. pose proof (ndo_owner _ Hndo c Hc) as Ho.
      rewrite Heq in Hnone. congruence.
    + change (<[getHexKey (fst snapped) (snd snapped) := Car.id car]>
                (cellOwners (this w)) !! getHexKey (fst snapped) (snd snapped)
              = Some (Car.id car)).
      apply lookup_insert_eq.
Qed.

Lemma dieOnTheSpot_ndo i w :
  noDoubleOccupancy (this w) ->
  noDoubleOccupancy (this (exec (dieOnTheSpot clock i) w)).
Proof.
  intros Hndo. unfold dieOnTheSpot. mstep. mstep. mstep.
  destruct (cars (this w) !! i) as [car|] eqn:Hi; [| exact Hndo].
  assert (Hcar : car ∈ cars (this w)) by (eapply list_elem_of_lookup_2; eauto).
  eapply (ndo_update_car _ _ i car (Car.set_stuck true car)); eauto.
  - exact (ndo_maps _ Hndo).
  - exact (ndo_owner _ Hndo car Hcar).
Qed.

Lemma retireCar_ndo i car w :
  noDoubleOccupancy (this w) ->
  cars (this w) !! i = Some car ->
  noDoubleOccupancy (this (exec (retireCar clock i car) w)).
Proof.
  intros [Hm Hids Hfresh Hdf Hdead Hown] Hi.
  assert (Hcar : car ∈ cars (this w)) by (eapply list_elem_of_lookup_2; eauto).
  assert (Hsub : forall c, c ∈ delete i (cars (this w)) -> c ∈ cars (this w))
    by (intros c; apply list_elem_of_delete_inv).
  constructor; simpl.
  - exact Hm.
  - rewrite map_fmap, list_fmap_delete.
    eapply sublist_NoDup; [exact Hids |]. apply sublist_delete.
  - intros c Hc. apply Hfresh, Hsub, Hc.
  - intros j Hj. destruct (decide (Car.id car = j)) as [<- | Hne].
    + apply Hfresh, Hcar.
    + rewrite lookup_insert_ne in Hj by exact Hne. apply Hdf, Hj.
  - intros c Hc. rewrite lookup_insert_ne; [apply Hdead, Hsub, Hc |].
    intros Heq.
    assert (Hcid : Car.id c ∈ delete i (map Car.id (cars (this w))))
      by (rewrite map_fmap, <- list_fmap_delete; apply list_elem_of_fmap_2, Hc).
    rewrite map_fmap in Hids, Hcid.
    pose proof (delete_Permutation (Car.id <$> cars (this w)) i (Car.id car)) as Hp.
    rewrite list_lookup_fmap, Hi in Hp. specialize (Hp eq_refl).
    rewrite Hp in Hids. apply NoDup_cons in Hids. destruct Hids as (Hnin & _).
    apply Hnin. rewrite Heq. exact Hcid.
  - intros c Hc. apply Hown, Hsub, Hc.
Qed.

Lemma removeCarTraces_ndo id w :
  noDoubleOccupancy (this w) ->
  is_Some (deadCarIds (this w) !! id) ->
  noDoubleOccupancy (this (exec (removeCarTraces id) w)).
Proof.
  intros Hndo Hdead_id.
  pose proof (removeCarTraces_maps id w (ndo_maps _ Hndo)) as Hm'.
  destruct Hndo as [Hm Hids Hfresh Hdf Hdead Hown].
  constructor; [exact Hm' | simpl ..].
  - exact Hids.
  - exact Hfresh.
  - intros j Hj. apply Hdf. rewrite lookup_delete in Hj.
    case_decide; [destruct Hj; discriminate | exact Hj].
  - intros c Hc. rewrite lookup_delete. case_decide; [reflexivity | apply Hdead, Hc].
  - intros c Hc. rewrite deleteKeys_lookup. rewrite decide_False; [apply Hown, Hc |].
    intros Hin. apply list_elem_of_filter in Hin. destruct Hin as (Hk & _).
    rewrite (Hown c Hc) in Hk. injection Hk as Hk.
    rewrite <- Hk in Hdead_id. rewrite (Hdead c Hc) in Hdead_id.
    destruct Hdead_id; discriminate.
Qed.

Lemma foldr_delete_lookup_Some (m : gmap Z Z) js j v :
  foldr delete m js !! j = Some v -> m !! j = Some v.
Proof. rewrite lookup_foldr_delete_Some. tauto. Qed.

(** What a run of [clearFadedCells] does: it deletes the keys of a list
    from the three tables, every one of them a key with a faded owner, and
    takes entries out of [deadCarIds]; in infinite-lifetime mode and on nine
    frames out of ten the list is empty. *)
Lemma clearFadedCells_effect currentTime alive w :
  let b := this w in
  let b' := this (exec (clearFadedCells currentTime alive) w) in
  exists keys deadIds,
    (forall key, key ∈ keys -> is_Some (fadedOwner b currentTime alive key))
    /\ occupiedCells b' = deleteKeys keys (occupiedCells b)
    /\ cellTimestamps b' = deleteKeys keys (cellTimestamps b)
    /\ cellOwners b' = deleteKeys keys (cellOwners b)
    /\ deadCarIds b' = foldr delete (deadCarIds b) deadIds
    /\ cars b' = cars b
    /\ nextCarId b' = nextCarId b.
Proof.
  intros b b'. subst b b'.
  assert (Hnop : forall w', occupiedCells (this w') = occupiedCells (this w) ->
            cellTimestamps (this w') = cellTimestamps (this w) ->
            cellOwners (this w') = cellOwners (this w) ->
            deadCarIds (this w') = deadCarIds (this w) ->
            cars (this w') = cars (this w) ->
            nextCarId (this w') = nextCarId (this w) ->
            exists keys deadIds,
              (forall key, key ∈ keys ->
                 is_Some (fadedOwner (this w) currentTime alive key))
              /\ occupiedCells (this w') = deleteKeys keys (occupiedCells (this w))
              /\ cellTimestamps (this w') = deleteKeys keys (cellTimestamps (this w))
              /\ cellOwners (this w') = deleteKeys keys (cellOwners (this w))
              /\ deadCarIds (this w') = foldr delete (deadCarIds (this w)) deadIds
              /\ cars (this w') = cars (this w)
              /\ nextCarId (this w') = nextCarId (this w)).
  { intros w' -> -> -> -> -> ->. exists [], []. split; [| repeat split].
    intros key Hk. inversion Hk. }
  unfold clearFadedCells. rewrite exec_bind, (exec_get w), (eval_get w).
  destruct (infiniteLifetime (this w)); [apply Hnop; reflexivity |].
  rewrite exec_bind.
  destruct (negb _); [apply Hnop; reflexivity |].
  rewrite !exec_bind.
  set (keys := filter (fun key => is_Some (fadedOwner (this w) currentTime alive key))
                 (keysOf (cellTimestamps (this w)))).
  assert (Hkeys : forall key, key ∈ keys ->
            is_Some (fadedOwner (this w) currentTime alive key)).
  { intros key Hk. apply list_elem_of_filter in Hk. tauto. }
  destruct (0 <? _)%Z.
  - exists keys,
      (elements (list_to_set (omap (fadedOwner (this w) currentTime alive) keys)
                 : gset Z)).
    split; [exact Hkeys |]. repeat split.
  - exists keys, []. split; [exact Hkeys |]. repeat split.
Qed.

Lemma clearFadedCells_ndo currentTime w :
  noDoubleOccupancy (this w) ->
  noDoubleOccupancy
    (this (exec (clearFadedCells currentTime
                   (list_to_set (map Car.id (cars (this w))))) w)).
Proof.
  intros Hndo.
  pose proof (clearFadedCells_maps currentTime
                (list_to_set (map Car.id (cars (this w)))) w (ndo_maps _ Hndo)) as Hm'.
  destruct (clearFadedCells_effect currentTime
              (list_to_set (map Car.id (cars (this w)))) w)
    as (keys & deadIds & Hkeys & Ho & Ht & Hw & Hd & Hc & Hn).
  destruct Hndo as [Hm Hids Hfresh Hdf Hdead Hown].
  constructor.
  - exact Hm'.
  - rewrite Hc. exact Hids.
  - rewrite Hc, Hn. exact Hfresh.
  - rewrite Hn, Hd. intros j [v Hj]. apply Hdf.
    apply foldr_delete_lookup_Some in Hj. eauto.
  - rewrite Hc, Hd. intros c Hin.
    destruct (foldr delete (deadCarIds (this w)) deadIds !! Car.id c) eqn:Hdc;
      [| reflexivity].
    apply foldr_delete_lookup_Some in Hdc. rewrite (Hdead c Hin) in Hdc. discriminate.
  - rewrite Hc, Hw. intros c Hin. rewrite deleteKeys_lookup.
    rewrite decide_False; [apply Hown, Hin |].
    intros Hk. apply Hkeys in Hk. unfold fadedOwner in Hk.
    rewrite (Hown c Hin) in Hk.
    rewrite decide_True in Hk; [destruct Hk; discriminate |].
    apply elem_of_list_to_set. rewrite map_fmap.
    apply list_elem_of_fmap_2, Hin.
Qed.

Lemma ndo_same_cells b b' :
  occupiedCells b' = occupiedCells b ->
  cellTimestamps b' = cellTimestamps b ->
  cellOwners b' = cellOwners b ->
  cars b' = cars b ->
  nextCarId b' = nextCarId b ->
  deadCarIds b' = deadCarIds b ->
  noDoubleOccupancy b -> noDoubleOccupancy b'.
Proof.
  intros Ho Ht Hw Hc Hn Hd [Hm Hids Hfresh Hdf Hdead Hown].
  constructor; rewrite ?Hc, ?Hn, ?Hd, ?Hw; try assumption.
  eapply mapsConsistent_tables; eauto.
Qed.

Lemma draw_ndo w :
  noDoubleOccupancy (this w) ->
  noDoubleOccupancy (this (exec (draw sqrt random clock) w)).
Proof.
  apply (draw_keeps sqrt random clock (fun w => noDoubleOccupancy (this w)));
    try (intros; assumption).
  - intros w' gx gy s. apply placeCar_ndo.
  - intros w' i mv. apply executeMove_ndo.
  - intros w' i. apply dieOnTheSpot_ndo.
  - intros w' i car H Hi _. apply retireCar_ndo; assumption.
  - intros w' id. apply removeCarTraces_ndo.
  - intros w' t. apply clearFadedCells_ndo.
  - intros w' v. apply ndo_same_cells; reflexivity.
  - intros w' v. apply ndo_same_cells; reflexivity.
Qed.

Lemma init_ndo w :
  noDoubleOccupancy (this w) ->
  noDoubleOccupancy (this (exec (init sqrt random clock) w)).
Proof.
  apply (init_keeps sqrt random clock (fun w => noDoubleOccupancy (this w)));
    try (intros; assumption).
  - intros w' gx gy s. apply placeCar_ndo.
  - intros w' i mv. apply executeMove_ndo.
  - intros w' i. apply dieOnTheSpot_ndo.
  - intros w' i car H Hi _. apply retireCar_ndo; assumption.
  - intros w' id. apply removeCarTraces_ndo.
  - intros w' t. apply clearFadedCells_ndo.
  - intros w' v. apply ndo_same_cells; reflexivity.
  - intros w' v. apply ndo_same_cells; reflexivity.
Qed.

Lemma fields_ndo options innerWidth innerHeight :
  noDoubleOccupancy (fields options innerWidth innerHeight).
Proof.
  constructor; simpl.
  - apply fields_maps.
  - apply NoDup_nil_2.
  - intros c Hc. inversion Hc.
  - intros id [v Hv]. rewrite lookup_empty in Hv. discriminate.
  - intros c Hc. inversion Hc.
  - intros c Hc. inversion Hc.
Qed.

End NoDoubleOccupancy.

(** ** spawnCar *)

Section Spawn.

Import CircuitBoard.

Variable random : nat -> unit_draw.
Variable clock : nat -> Z.

Lemma attemptPoint_shift b base k :
  attemptPoint random b (base + 2) k = attemptPoint random b base (S k).
Proof.
  unfold attemptPoint. f_equal; do 2 f_equal; lia.
Qed.

Lemma attemptPoint_0 b base :
  attemptPoint random b base 0 = sampledPoint b (random base) (random (S base)).
Proof.
  unfold attemptPoint. f_equal; do 2 f_equal; lia.
Qed.

Lemma advance_advance n m w : advance n (advance m w) = advance (m + n) w.
Proof. unfold advance. simpl. f_equal. lia. Qed.

Lemma advance_0 w : advance 0 w = w.
Proof. destruct w. unfold advance. simpl. rewrite Nat.add_0_r. reflexivity. Qed.

Lemma advance_two w :
  exec (Math_random random) (exec (Math_random random) w) = advance 2 w.
Proof. unfold advance, exec, Math_random. simpl. f_equal. lia. Qed.

Lemma selectStrategy_advance w :
  exec (selectStrategyByFitness random) w = advance 2 w.
Proof. rewrite selectStrategy_exec. apply advance_two. Qed.

(** One round of the sampling loop. *)
Lemma spawnCar_random_S n s w :
  let p := attemptPoint random (this w) (randomCalls w) 0 in
  (JS.truthy (occupiedCells (this w) !! keyOf p) = true ->
   eval (spawnCar_random random clock (S n) s) w
   = eval (spawnCar_random random clock n s) (advance 2 w)
   /\ exec (spawnCar_random random clock (S n) s) w
      = exec (spawnCar_random random clock n s) (advance 2 w))
  /\ (JS.truthy (occupiedCells (this w) !! keyOf p) = false ->
      eval (spawnCar_random random clock (S n) s) w = true
      /\ exec (spawnCar_random random clock (S n) s) w
         = exec (placeCar random clock (fst p) (snd p) (keyOf p) s) (advance 2 w)).
Proof.
  intros p. subst p. rewrite attemptPoint_0.
  cbn [spawnCar_random]. msteps.
  change (exec (Math_random random) (exec (Math_random random) w))
    with (exec (Math_random random) (exec (Math_random random) w)).
  rewrite <- advance_two.
  split; intros Hocc.
  - unfold keyOf, sampledPoint in Hocc.
    change (eval (Math_random random) w) with (draw_val (random (randomCalls w))).
    change (eval (Math_random random) (exec (Math_random random) w))
      with (draw_val (random (S (randomCalls w)))).
    unfold getHexKey. rewrite Hocc. simpl negb. cbv iota. split; reflexivity.
  - unfold keyOf, sampledPoint in Hocc.
    change (eval (Math_random random) w) with (draw_val (random (randomCalls w))).
    change (eval (Math_random random) (exec (Math_random random) w))
      with (draw_val (random (S (randomCalls w)))).
    unfold getHexKey. rewrite Hocc. simpl negb. cbv iota. msteps.
    split; reflexivity.
Qed.

(** The sampling loop fails exactly when every sampled key is occupied. *)
Lemma spawnCar_random_false n s w :
  eval (spawnCar_random random clock n s) w = false
  <-> forall k, (k < n)%nat ->
        JS.truthy (occupiedCells (this w)
                   !! keyOf (attemptPoint random (this w) (randomCalls w) k)) = true.
Proof.
  revert w. induction n as [| n IH]; intros w.
  - split; [intros _ k Hk; lia | reflexivity].
  - destruct (spawnCar_random_S n s w) as (Hocc & Hfree).
    destruct (JS.truthy (occupiedCells (this w)
                !! keyOf (attemptPoint random (this w) (randomCalls w) 0))) eqn:H0.
    + destruct (Hocc eq_refl) as (-> & _). rewrite IH. split.
      * intros H k Hk. destruct k as [| k]; [exact H0 |].
        rewrite <- attemptPoint_shift. apply (H k). lia.
      * intros H k Hk. change (randomCalls (advance 2 w)) with (randomCalls w + 2)%nat.
        rewrite attemptPoint_shift. apply (H (S k)). lia.
    + destruct (Hfree eq_refl) as (-> & _). split; [discriminate |].
      intros H. specialize (H 0%nat ltac:(lia)). congruence.
Qed.

(** When it fails, it has only consumed draws. *)
Lemma spawnCar_random_false_exec n s w :
  eval (spawnCar_random random clock n s) w = false ->
  exec (spawnCar_random random clock n s) w = advance (2 * n) w.
Proof.
  revert w. induction n as [| n IH]; intros w Hev.
  - symmetry. apply advance_0.
  - destruct (spawnCar_random_S n s w) as (Hocc & Hfree).
    destruct (JS.truthy (occupiedCells (this w)
                !! keyOf (attemptPoint random (this w) (randomCalls w) 0))) eqn:H0.
    + destruct (Hocc eq_refl) as (Hev' & ->). rewrite Hev' in Hev.
      rewrite (IH _ Hev), advance_advance. f_equal. lia.
    + destruct (Hfree eq_refl) as (Hev' & _). congruence.
Qed.

(** When it succeeds, it has placed a car on the first sampled point whose
    key is free. *)
Lemma spawnCar_random_true n s w :
  eval (spawnCar_random random clock n s) w = true ->
  exists k, (k < n)%nat
    /\ (forall j, (j < k)%nat ->
         JS.truthy (occupiedCells (this w)
                    !! keyOf (attemptPoint random (this w) (randomCalls w) j)) = true)
    /\ JS.truthy (occupiedCells (this w)
                  !! keyOf (attemptPoint random (this w) (randomCalls w) k)) = false
    /\ exec (spawnCar_random random clock n s) w
       = exec (placeCar random clock
                 (fst (attemptPoint random (this w) (randomCalls w) k))
                 (snd (attemptPoint random (this w) (randomCalls w) k))
                 (keyOf (attemptPoint random (this w) (randomCalls w) k)) s)
           (advance (2 * S k) w).
Proof.
  revert w. induction n as [| n IH]; intros w Hev; [discriminate |].
  destruct (spawnCar_random_S n s w) as (Hocc & Hfree).
  destruct (JS.truthy (occupiedCells (this w)
              !! keyOf (attemptPoint random (this w) (randomCalls w) 0))) eqn:H0.
  - destruct (Hocc eq_refl) as (Hev' & ->). rewrite Hev' in Hev.
    destruct (IH _ Hev) as (k & Hk & Hbefore & Hk0 & Hex).
    change (randomCalls (advance 2 w)) with (randomCalls w + 2)%nat in *.
    change (this (advance 2 w)) with (this w) in *.
    exists (S k). split; [lia |]. split; [| split].
    + intros j Hj. destruct j as [| j]; [exact H0 |].
      rewrite <- attemptPoint_shift. apply Hbefore. lia.
    + rewrite <- attemptPoint_shift. exact Hk0.
    + rewrite Hex, advance_advance, <- attemptPoint_shift.
      f_equal. f_equal. lia.
  - destruct (Hfree eq_refl) as (_ & ->).
    exists 0%nat. split; [lia |]. split; [| split].
    + intros j Hj. lia.
    + exact H0.
    + reflexivity.
Qed.

(** What placing a car does to the board. *)
Lemma placeCar_placed gx gy s w :
  JS.truthy (occupiedCells (this w) !! keyOf (gx, gy)) = false ->
  placed (this w) (gx, gy)
    (this (exec (placeCar random clock gx gy (keyOf (gx, gy)) s) w)).
Proof.
  intros Hf.
  exists (Car.new gx gy (canvasWidth (this w)) (canvasHeight (this w))
            (hexSize (this w)) s (nextCarId (this w)) (clock (clockCalls w))
            (random (randomCalls w)) (random (S (randomCalls w)))
            (random (S (S (randomCalls w))))),
         (clock (S (clockCalls w))).
  repeat split.
  change (occupiedCells (this (exec (placeCar random clock gx gy (keyOf (gx, gy)) s) w)))
    with (<[keyOf (gx, gy) := (JS.or0 (occupiedCells (this w) !! keyOf (gx, gy)) + 1)%Z]>
            (occupiedCells (this w))).
  f_equal. unfold JS.truthy, JS.or0 in *.
  destruct (occupiedCells (this w) !! keyOf (gx, gy)) as [v|]; [| reflexivity].
  apply negb_false_iff, Z.eqb_eq in Hf. subst v. reflexivity.
Qed.

Lemma find_first {A} (f : A -> bool) (l : list A) p :
  find f l = Some p ->
  exists before after,
    l = before ++ p :: after /\ f p = true /\ forall q, q ∈ before -> f q = false.
Proof.
  induction l as [| a l IH]; [discriminate |]. simpl.
  destruct (f a) eqn:Ha.
  - intros [= ->]. exists [], l. split; [reflexivity |]. split; [exact Ha |].
    intros q Hq. inversion Hq.
  - intros Hfind. destruct (IH Hfind) as (before & after & -> & Hp & Hb).
    exists (a :: before), after. split; [reflexivity |]. split; [exact Hp |].
    intros q Hq. apply elem_of_cons in Hq. destruct Hq as [-> | Hq]; [exact Ha |].
    apply Hb, Hq.
Qed.

Lemma find_none {A} (f : A -> bool) (l : list A) :
  find f l = None <-> forall q, q ∈ l -> f q = false.
Proof.
  split.
  - intros H q Hq. apply list_elem_of_In in Hq. exact (find_none f l H q Hq).
  - intros H. destruct (find f l) as [p|] eqn:Hfind; [| reflexivity].
    apply find_some in Hfind. destruct Hfind as (Hin & Hp).
    apply list_elem_of_In in Hin. rewrite (H p Hin) in Hp. discriminate.
Qed.

Lemma scanFree_freePosition b p : scanFree b p = true <-> freePosition b p.
Proof.
  unfold scanFree, freePosition, withinBounds.
  rewrite !andb_true_iff, negb_true_iff, !leb_le, !ltb_lt.
  rewrite not_truthy_occupied. unfold keyOf, getHexKey. tauto.
Qed.

Lemma scanFree_not_freePosition b p : scanFree b p = false <-> ~ freePosition b p.
Proof.
  rewrite <- scanFree_freePosition. split.
  - intros ->. discriminate.
  - apply not_true_is_false.
Qed.

Lemma truthy_true_occupied cells key :
  JS.truthy (cells !! key) = true <-> occupied cells key.
Proof. apply truthy_occupied. Qed.

(** The three ways a call of [spawnCar] can go. *)
Lemma spawnCar_cases w :
  let b := this w in
  let base := (randomCalls w + 2)%nat in
  let s := eval (selectStrategyByFitness random) w in
  (exists k, firstFreeSample random b base k
     /\ eval (spawnCar random clock) w = true
     /\ exec (spawnCar random clock) w
        = exec (placeCar random clock (fst (attemptPoint random b base k))
                  (snd (attemptPoint random b base k))
                  (keyOf (attemptPoint random b base k)) s)
            (advance (2 + 2 * S k) w))
  \/ (allSamplesOccupied random b base
      /\ exists p, firstFree b p
         /\ eval (spawnCar random clock) w = true
         /\ exec (spawnCar random clock) w
            = exec (placeCar random clock (fst p) (snd p) (keyOf p) s)
                (advance 202 w))
  \/ (allSamplesOccupied random b base
      /\ (forall q, q ∈ scanPositions b -> ~ freePosition b q)
      /\ eval (spawnCar random clock) w = false
      /\ exec (spawnCar random clock) w = advance 202 w).
Proof.
  intros b base s. unfold spawnCar. msteps.
  rewrite selectStrategy_advance. fold s.
  destruct (eval (spawnCar_random random clock maxAttempts s) (advance 2 w)) eqn:Hev.
  - left. apply spawnCar_random_true in Hev.
    destruct Hev as (k & Hk & Hbefore & Hfree & Hex).
    change (this (advance 2 w)) with b in *.
    change (randomCalls (advance 2 w)) with base in *.
    exists k. split; [| split; [reflexivity |]].
    + split; [exact Hk |]. split.
      * intros j Hj. apply truthy_true_occupied, Hbefore, Hj.
      * apply not_truthy_occupied, Hfree.
    + msteps. rewrite Hex, advance_advance. reflexivity.
  - right.
    pose proof (spawnCar_random_false_exec _ _ _ Hev) as Hex.
    pose proof (proj1 (spawnCar_random_false _ _ _) Hev) as Hocc. clear Hev.
    rename Hocc into Hev.
    change (this (advance 2 w)) with b in *.
    change (randomCalls (advance 2 w)) with base in *.
    assert (Hall : allSamplesOccupied random b base)
      by (intros k Hk; apply truthy_true_occupied, Hev, Hk).
    rewrite Hex, advance_advance. change (2 + 2 * maxAttempts)%nat with 202%nat.
    unfold spawnCar_scan. msteps. change (this (advance 202 w)) with b.
    destruct (find (scanFree b) (scanPositions b)) as [p|] eqn:Hfind.
    + left. split; [exact Hall |]. exists p.
      apply find_first in Hfind. destruct Hfind as (before & after & Hl & Hp & Hb).
      split; [| split; reflexivity].
      exists before, after. split; [exact Hl |]. split.
      * apply scanFree_freePosition, Hp.
      * intros q Hq. apply scanFree_not_freePosition, Hb, Hq.
    + right. split; [exact Hall |]. split; [| split; reflexivity].
      intros q Hq. apply scanFree_not_freePosition.
      eapply find_none; eassumption.
Qed.

Lemma elem_of_keysOf {V} (m : gmap string V) k : k ∈ keysOf m <-> is_Some (m !! k).
Proof.
  unfold keysOf. rewrite map_fmap, list_elem_of_fmap. split.
  - intros ([k' v] & -> & Hin). apply elem_of_map_to_list in Hin. simpl. eauto.
  - intros [v Hv]. exists (k, v). split; [reflexivity |].
    apply elem_of_map_to_list. exact Hv.
Qed.

Lemma removeCarTraces_evicts id w :
  traceEvicted id (this w) (this (exec (removeCarTraces id) w)).
Proof.
  set (keys := filter (fun key => cellOwners (this w) !! key = Some id)
                 (keysOf (cellOwners (this w)))).
  assert (Hkeys : forall key, key ∈ keys <-> cellOwners (this w) !! key = Some id).
  { intros key. unfold keys. rewrite list_elem_of_filter, elem_of_keysOf.
    split; [tauto |]. intros H. split; [exact H | rewrite H; eauto]. }
  unfold traceEvicted.
  change (occupiedCells (this (exec (removeCarTraces id) w)))
    with (deleteKeys keys (occupiedCells (this w))).
  change (cellTimestamps (this (exec (removeCarTraces id) w)))
    with (deleteKeys keys (cellTimestamps (this w))).
  change (cellOwners (this (exec (removeCarTraces id) w)))
    with (deleteKeys keys (cellOwners (this w))).
  change (allLines (this (exec (removeCarTraces id) w)))
    with (filter (fun l => carId l <> id) (allLines (this w))).
  split; [| split; [| split; [| split]]].
  - intros key Hk. rewrite !deleteKeys_lookup.
    rewrite !decide_True by (apply Hkeys, Hk). tauto.
  - intros key Hk. rewrite !deleteKeys_lookup.
    rewrite !decide_False by (rewrite Hkeys; exact Hk). tauto.
  - reflexivity.
  - intros l Hl. apply list_elem_of_filter in Hl. tauto.
  - repeat split.
Qed.

(** The spawn of a step when nothing is evicted: one call of [spawnCar]. *)
Lemma spawnPhase_plain currentTime w :
  spawnDue (this w) currentTime = true ->
  infiniteLifetime (this w) = false
  \/ eval (spawnCar random clock) w = true
  \/ size (deadCarIds (this w)) = 0%nat ->
  exec (spawnPhase random clock currentTime) w
  = exec (modify (set_lastSpawnTime currentTime)) (exec (spawnCar random clock) w).
Proof.
  intros Hdue Hcase. unfold spawnPhase. mstep. mstep. mstep. rewrite Hdue.
  msteps. f_equal.
  destruct (spawnCar_cases w) as [(k & _ & Hev & Hex) | [(_ & p & _ & Hev & Hex)
                                  | (_ & _ & Hev & Hex)]].
  - rewrite Hev. simpl negb. rewrite andb_false_r. reflexivity.
  - rewrite Hev. simpl negb. rewrite andb_false_r. reflexivity.
  - rewrite Hev.
    assert (Hthis : this (exec (spawnCar random clock) w) = this w)
      by (rewrite Hex; reflexivity).
    rewrite !Hthis.
    destruct Hcase as [Hmode | [Htrue | Hsize]].
    + rewrite Hmode. reflexivity.
    + congruence.
    + rewrite Hsize, andb_false_r. reflexivity.
Qed.

(** The spawn of a step in infinite-lifetime mode when [spawnCar] fails
    and a car is dead: the oldest dead car is evicted and [spawnCar] is
    called exactly once more. *)
Lemma spawnPhase_evicts currentTime w :
  spawnDue (this w) currentTime = true ->
  infiniteLifetime (this w) = true ->
  eval (spawnCar random clock) w = false ->
  (0 < size (deadCarIds (this w)))%nat ->
  exists oldest deathTime,
    deadCarIds (this w) !! oldest = Some deathTime
    /\ (forall id t, deadCarIds (this w) !! id = Some t -> (deathTime <= t)%Z)
    /\ exec (spawnPhase random clock currentTime) w
       = exec (modify (set_lastSpawnTime currentTime))
           (exec (spawnCar random clock)
              (exec (removeCarTraces oldest) (exec (spawnCar random clock) w))).
Proof.
  intros Hdue Hmode Hev Hsize.
  destruct (oldestDeadCar_Some _ Hsize) as (oldest & Hold).
  destruct (oldestDeadCar_spec _ _ Hold) as (t & Ht & Hmin).
  exists oldest, t. split; [exact Ht |]. split; [exact Hmin |].
  unfold spawnPhase. mstep. mstep. mstep. rewrite Hdue.
  msteps. f_equal.
  rewrite Hev.
  destruct (spawnCar_cases w) as [(k & _ & Hev' & _) | [(_ & p & _ & Hev' & _)
                                  | (_ & _ & _ & Hex)]]; try congruence.
  assert (Hthis : this (exec (spawnCar random clock) w) = this w)
    by (rewrite Hex; reflexivity).
  rewrite !Hthis, Hmode.
  assert (Hpos : (0 <? Z.of_nat (size (deadCarIds (this w))))%Z = true)
    by (apply Z.ltb_lt; lia).
  rewrite Hpos, Hold. simpl andb. cbv iota.
  rewrite !exec_bind, exec_ret. reflexivity.
Qed.

End Spawn.

Section SpawnClaims.

Import CircuitBoard.

Variable sqrt : Q -> Q.
Variable random : nat -> unit_draw.
Variable clock : nat -> Z.

Lemma placeCar_placed_at p s w :
  ~ occupied (occupiedCells (this w)) (keyOf p) ->
  placed (this w) p
    (this (exec (placeCar random clock (fst p) (snd p) (keyOf p) s) w)).
Proof.
  intros Hfree. destruct p as [gx gy].
  apply (placeCar_placed random clock gx gy s w).
  apply not_truthy_occupied. exact Hfree.
Qed.

Lemma firstFreeSample_unique b base k k' :
  firstFreeSample random b base k -> firstFreeSample random b base k' -> k = k'.
Proof.
  intros (Hk & Hbefore & Hfree) (Hk' & Hbefore' & Hfree').
  destruct (lt_eq_lt_dec k k') as [[Hlt | Heq] | Hgt].
  - exfalso. apply Hfree. apply Hbefore'. exact Hlt.
  - exact Heq.
  - exfalso. apply Hfree'. apply Hbefore. exact Hgt.
Qed.

Lemma firstFree_unique b p p' : firstFree b p -> firstFree b p' -> p = p'.
Proof.
  intros (before & after & Hl & Hp & Hb) (before' & after' & Hl' & Hp' & Hb').
  assert (Hat : scanPositions b !! length before = Some p)
    by (rewrite Hl; apply list_lookup_middle; reflexivity).
  assert (Hat' : scanPositions b !! length before' = Some p')
    by (rewrite Hl'; apply list_lookup_middle; reflexivity).
  destruct (lt_eq_lt_dec (length before) (length before')) as [[Hlt | Heq] | Hgt].
  - exfalso. apply (Hb' p); [| exact Hp].
    rewrite Hl' in Hat. rewrite lookup_app_l in Hat by exact Hlt.
    eapply list_elem_of_lookup_2. exact Hat.
  - rewrite Heq in Hat. congruence.
  - exfalso. apply (Hb p'); [| exact Hp'].
    rewrite Hl in Hat'. rewrite lookup_app_l in Hat' by exact Hgt.
    eapply list_elem_of_lookup_2. exact Hat'.
Qed.

Lemma firstFree_free b p : firstFree b p -> p ∈ scanPositions b /\ freePosition b p.
Proof.
  intros (before & after & Hl & Hp & _). split; [| exact Hp].
  rewrite Hl. apply elem_of_app. right. left.
Qed.

(** C8.  Spawn exhaustion and eviction.  A call of [spawnCar] samples up
    to 100 grid points at random and places the car on the first one whose
    key is free; when all 100 lie on occupied keys it places the car on the
    first free position of the row-by-row scan; it fails exactly when there
    is none either, and then nothing but the count of random draws has
    changed.  In infinite-lifetime mode, when the spawn of a step fails and
    a car is dead, the spawn phase removes the whole trace of a dead car
    with the least death time and calls [spawnCar] exactly once more. *)
Theorem spawn_exhaustion_and_eviction (w : World) (currentTime : Z) :
  let b := this w in
  let base := (randomCalls w + 2)%nat in
  let b' := this (exec (spawnCar random clock) w) in
  (forall k, firstFreeSample random b base k ->
     eval (spawnCar random clock) w = true
     /\ placed b (attemptPoint random b base k) b')
  /\ (allSamplesOccupied random b base ->
      forall p, firstFree b p ->
        eval (spawnCar random clock) w = true /\ placed b p b')
  /\ (eval (spawnCar random clock) w = false
      <-> allSamplesOccupied random b base
          /\ forall q, q ∈ scanPositions b -> ~ freePosition b q)
  /\ (eval (spawnCar random clock) w = false ->
      exec (spawnCar random clock) w = advance 202 w /\ b' = b)
  /\ (spawnDue b currentTime = true ->
      infiniteLifetime b = true ->
      eval (spawnCar random clock) w = false ->
      (0 < size (deadCarIds b))%nat ->
      exists oldest deathTime,
        deadCarIds b !! oldest = Some deathTime
        /\ (forall id t, deadCarIds b !! id = Some t -> (deathTime <= t)%Z)
        /\ traceEvicted oldest b
             (this (exec (removeCarTraces oldest) (exec (spawnCar random clock) w)))
        /\ exec (spawnPhase random clock currentTime) w
           = exec (modify (set_lastSpawnTime currentTime))
               (exec (spawnCar random clock)
                  (exec (removeCarTraces oldest)
                     (exec (spawnCar random clock) w)))).
Proof.
  intros b base b'.
  pose proof (spawnCar_cases random clock w) as Hcases.
  fold b base in Hcases. cbv zeta in Hcases.
  split; [| split; [| split; [| split]]].
  - intros k Hk.
    destruct Hcases as [(k' & Hk' & Hev & Hex) | [(Hall & _) | (Hall & _)]].
    + rewrite (firstFreeSample_unique b base k k' Hk Hk'). split; [exact Hev |].
      subst b'. rewrite Hex.
      apply (placeCar_placed_at _ _ (advance (2 + 2 * S k') w)). apply Hk'.
    + exfalso. destruct Hk as (Hlt & _ & Hfree). apply Hfree, Hall, Hlt.
    + exfalso. destruct Hk as (Hlt & _ & Hfree). apply Hfree, Hall, Hlt.
  - intros Hall p Hp.
    destruct Hcases as [(k' & Hk' & _) | [(_ & p' & Hp' & Hev & Hex) | (_ & Hnone & _)]].
    + exfalso. destruct Hk' as (Hlt & _ & Hfree). apply Hfree, Hall, Hlt.
    + rewrite (firstFree_unique b p p' Hp Hp'). split; [exact Hev |].
      subst b'. rewrite Hex.
      apply (placeCar_placed_at _ _ (advance 202 w)).
      apply (firstFree_free b p' Hp').
    + exfalso. destruct (firstFree_free b p Hp) as (Hin & Hfree).
      exact (Hnone p Hin Hfree).
  - destruct Hcases as [(k' & Hk' & Hev & _) | [(Hall & p' & Hp' & Hev & _)
                        | (Hall & Hnone & Hev & _)]].
    + split; [congruence |]. intros (Hall & _). exfalso.
      destruct Hk' as (Hlt & _ & Hfree). apply Hfree, Hall, Hlt.
    + split; [congruence |]. intros (_ & Hnone). exfalso.
      destruct (firstFree_free b p' Hp') as (Hin & Hfree).
      exact (Hnone p' Hin Hfree).
    + split; [intros _; split; assumption | intros _; exact Hev].
  - intros Hev.
    destruct Hcases as [(k' & _ & Hev' & _) | [(_ & p' & _ & Hev' & _)
                        | (_ & _ & _ & Hex)]]; try congruence.
    split; [exact Hex |]. subst b'. rewrite Hex. reflexivity.
  - intros Hdue Hmode Hev Hsize.
    destruct (spawnPhase_evicts random clock currentTime w Hdue Hmode Hev Hsize)
      as (oldest & t & Ht & Hmin & Hex).
    exists oldest, t. split; [exact Ht |]. split; [exact Hmin |].
    split; [| exact Hex].
    destruct Hcases as [(k' & _ & Hev' & _) | [(_ & p' & _ & Hev' & _)
                        | (_ & _ & _ & Hex')]]; try congruence.
    rewrite Hex'. apply (removeCarTraces_evicts oldest (advance 202 w)).
Qed.

End SpawnClaims.

(** ** No double occupancy, for all frames *)

Section NoDoubleOccupancyClaim.

Import CircuitBoard.

Variable sqrt : Q -> Q.
Variable random : nat -> unit_draw.
Variable clock : nat -> Z.

(** Two live cars never sit on the same cell. *)
Lemma ndo_distinct_cells b i j c1 c2 :
  noDoubleOccupancy b ->
  cars b !! i = Some c1 -> cars b !! j = Some c2 ->
  carKey c1 = carKey c2 -> i = j.
Proof.
  intros Hndo Hi Hj Hkey.
  pose proof (ndo_owner _ Hndo c1 (list_elem_of_lookup_2 _ _ _ Hi)) as H1.
  pose proof (ndo_owner _ Hndo c2 (list_elem_of_lookup_2 _ _ _ Hj)) as H2.
  rewrite Hkey, H2 in H1. injection H1 as Hid.
  eapply (NoDup_lookup (map Car.id (cars b)) i j (Car.id c1)).
  - exact (ndo_ids _ Hndo).
  - rewrite map_fmap, list_lookup_fmap, Hi. reflexivity.
  - rewrite map_fmap, list_lookup_fmap, Hj. simpl. congruence.
Qed.

(** [executeMove] on an occupied key: the tables stay as they are, the
    car stays where it is and is marked stuck. *)
Lemma executeMove_refuses i mv car w :
  cars (this w) !! i = Some car ->
  occupied (occupiedCells (this w)) (snappedKey (hexSize (this w)) mv) ->
  exec (executeMove sqrt clock i mv) w
  = exec (modify (fun b => set_cars (<[i := Car.set_stuck true car]> (cars b)) b)) w.
Proof.
  intros Hi Hocc. apply truthy_occupied in Hocc.
  unfold executeMove. mstep. mstep. mstep. rewrite Hi.
  unfold snappedKey in Hocc. rewrite Hocc. reflexivity.
Qed.

(** [executeMove] on a free key enters the key with the car as owner. *)
Lemma executeMove_commits i mv car w :
  cars (this w) !! i = Some car ->
  ~ occupied (occupiedCells (this w)) (snappedKey (hexSize (this w)) mv) ->
  let key := snappedKey (hexSize (this w)) mv in
  let b' := this (exec (executeMove sqrt clock i mv) w) in
  occupiedCells b' = <[key := 1%Z]> (occupiedCells (this w))
  /\ cellOwners b' = <[key := Car.id car]> (cellOwners (this w))
  /\ exists car', cars b' = <[i := car']> (cars (this w))
       /\ Car.id car' = Car.id car /\ carKey car' = key.
Proof.
  intros Hi Hfree key b'. apply not_truthy_occupied in Hfree.
  subst b'. unfold executeMove. mstep. mstep. mstep. rewrite Hi.
  unfold snappedKey in Hfree. fold key in Hfree. unfold key in *.
  unfold snappedKey. rewrite Hfree.
  set (snapped := snapToGrid (hexSize (this w)) (x mv) (y mv)) in *.
  split; [| split].
  - change (<[getHexKey (fst snapped) (snd snapped)
              := (JS.or0 (occupiedCells (this w)
                          !! getHexKey (fst snapped) (snd snapped)) + 1)%Z]>
              (occupiedCells (this w))
            = <[getHexKey (fst snapped) (snd snapped) := 1%Z]> (occupiedCells (this w))).
    f_equal. unfold JS.truthy, JS.or0 in *.
    destruct (occupiedCells (this w) !! getHexKey (fst snapped) (snd snapped)) as [v|];
      [| reflexivity].
    apply negb_false_iff, Z.eqb_eq in Hfree. subst v. reflexivity.
  - reflexivity.
  - exists (movedCar sqrt car (fst snapped) (snd snapped) mv).
    repeat split.
Qed.

(** A successful [spawnCar] has put the car on a key that was free. *)
Lemma spawnCar_on_free_key w :
  eval (spawnCar random clock) w = true ->
  exists p, ~ occupied (occupiedCells (this w)) (keyOf p)
            /\ placed (this w) p (this (exec (spawnCar random clock) w)).
Proof.
  intros Hev.
  destruct (spawnCar_cases random clock w)
    as [(k & Hk & _ & Hex) | [(_ & p & Hp & _ & Hex) | (_ & _ & Hev' & _)]];
    [| | congruence].
  - exists (attemptPoint random (this w) (randomCalls w + 2) k).
    split; [apply Hk |]. rewrite Hex.
    apply (placeCar_placed_at random clock _ _ (advance (2 + 2 * S k) w)). apply Hk.
  - exists p. destruct (firstFree_free _ _ Hp) as (_ & (_ & Hfree)).
    split; [exact Hfree |]. rewrite Hex.
    apply (placeCar_placed_at random clock _ _ (advance 202 w)). exact Hfree.
Qed.

Lemma frames_ndo n w :
  noDoubleOccupancy (this w) ->
  noDoubleOccupancy (this (frames sqrt random clock n w)).
Proof.
  revert w. induction n as [| n IH]; intros w H; [exact H |].
  simpl. apply IH, draw_ndo, H.
Qed.

(** C1.  No double occupancy.  In the world the constructor returns and
    after every further frame: every key of the occupancy table has been
    entered exactly once and has an owner, every live car is the owner of
    the cell it is on, and two live cars are never on the same cell.
    [executeMove] does not touch the tables when the destination key is
    occupied, and enters a free key with the moving car as owner;
    [spawnCar], when it succeeds, has placed the new car on a key that was
    not occupied. *)
Theorem no_double_occupancy (options : Options) (innerWidth innerHeight : Z)
    (w0 : World) (n : nat) :
  new sqrt random clock options innerWidth innerHeight = Returned w0 ->
  let b := this (frames sqrt random clock n w0) in
  noDoubleOccupancy b
  /\ (forall key v, occupiedCells b !! key = Some v ->
        v = 1%Z /\ is_Some (cellOwners b !! key))
  /\ (forall c, c ∈ cars b -> cellOwners b !! carKey c = Some (Car.id c))
  /\ (forall i j c1 c2,
        cars b !! i = Some c1 -> cars b !! j = Some c2 ->
        carKey c1 = carKey c2 -> i = j)
  /\ (forall w i mv car,
        cars (this w) !! i = Some car ->
        occupied (occupiedCells (this w)) (snappedKey (hexSize (this w)) mv) ->
        let b' := this (exec (executeMove sqrt clock i mv) w) in
        occupiedCells b' = occupiedCells (this w)
        /\ cellTimestamps b' = cellTimestamps (this w)
        /\ cellOwners b' = cellOwners (this w)
        /\ cars b' = <[i := Car.set_stuck true car]> (cars (this w)))
  /\ (forall w i mv car,
        cars (this w) !! i = Some car ->
        ~ occupied (occupiedCells (this w)) (snappedKey (hexSize (this w)) mv) ->
        let key := snappedKey (hexSize (this w)) mv in
        let b' := this (exec (executeMove sqrt clock i mv) w) in
        occupiedCells b' = <[key := 1%Z]> (occupiedCells (this w))
        /\ cellOwners b' = <[key := Car.id car]> (cellOwners (this w))
        /\ exists car', cars b' = <[i := car']> (cars (this w))
             /\ Car.id car' = Car.id car /\ carKey car' = key)
  /\ (forall w,
        eval (spawnCar random clock) w = true ->
        exists p, ~ occupied (occupiedCells (this w)) (keyOf p)
                  /\ placed (this w) p (this (exec (spawnCar random clock) w))).
Proof.
  intros Hnew b.
  assert (Hndo : noDoubleOccupancy b).
  { subst b. apply frames_ndo. unfold new in Hnew. injection Hnew as <-.
    apply init_ndo. apply fields_ndo. }
  split; [exact Hndo |]. split; [| split; [| split; [| split; [| split]]]].
  - intros key v Hv. destruct (ndo_maps _ Hndo) as (H1 & H2 & Hone).
    split; [exact (Hone _ _ Hv) |].
    apply elem_of_dom. rewrite <- H2, <- H1. apply elem_of_dom. eauto.
  - exact (ndo_owner _ Hndo).
  - intros i j c1 c2. apply ndo_distinct_cells, Hndo.
  - intros w i mv car Hi Hocc b'. subst b'.
    rewrite (executeMove_refuses i mv car w Hi Hocc). repeat split.
  - intros w i mv car. apply executeMove_commits.
  - apply spawnCar_on_free_key.
Qed.

End NoDoubleOccupancyClaim.

(** ** Fitness accounting *)

Section Fitness.

Import CircuitBoard.

#[local] Open Scope Q_scope.

Variable sqrt : Q -> Q.
Variable random : nat -> unit_draw.
Variable clock : nat -> Z.

Hypothesis sqrt_nonneg : forall q, 0 <= sqrt q.
Hypothesis clock_monotone : forall m k, (m <= k)%nat -> (clock m <= clock k)%Z.


Lemma elem_of_insert_inv {A} (l : list A) i x c :
  c ∈ <[i := x]> l -> c = x \/ c ∈ l.
Proof.
  intros Hc. apply list_elem_of_lookup in Hc. destruct Hc as (j & Hj).
  destruct (decide (i = j)) as [<- | Hne].
  - destruct (decide (i < length l)%nat) as [Hlt | Hge].
    + rewrite list_lookup_insert_eq in Hj by exact Hlt. left. congruence.
    + rewrite list_insert_ge in Hj by lia. right.
      eapply list_elem_of_lookup_2; eauto.
  - rewrite list_lookup_insert_ne in Hj by exact Hne. right.
    eapply list_elem_of_lookup_2; eauto.
Qed.






Lemma clearFadedCells_cars currentTime alive w :
  cars (this (exec (clearFadedCells currentTime alive) w)) = cars (this w)
  /\ strategyFitness (this (exec (clearFadedCells currentTime alive) w))
     = strategyFitness (this w)
  /\ nextCarId (this (exec (clearFadedCells currentTime alive) w)) = nextCarId (this w)
  /\ clockCalls (exec (clearFadedCells currentTime alive) w) = clockCalls w.
Proof.
  unfold clearFadedCells. mstep. mstep. mstep.
  destruct (infiniteLifetime (this w)); [repeat split |].
  mstep. destruct (negb _); [repeat split |].
  mstep. mstep. mstep.
  destruct (0 <? _)%Z; repeat split.
Qed.






(** *** What a retirement does to the fitness table *)













(** *** The other parts of a frame leave the fitness table alone *)

Lemma executeMove_frame i mv w :
  strategyFitness (this (exec (executeMove sqrt clock i mv) w)) = strategyFitness (this w)
  /\ map Car.id (cars (this (exec (executeMove sqrt clock i mv) w)))
     = map Car.id (cars (this w)).
Proof.
  unfold executeMove. mstep. mstep. mstep.
  destruct (cars (this w) !! i) as [car|] eqn:Hi; [| split; reflexivity].
  assert (Hid : forall car', Car.id car' = Car.id car ->
            map Car.id (<[i := car']> (cars (this w))) = map Car.id (cars (this w))).
  { intros car' Hid. rewrite !map_fmap, list_fmap_insert, Hid.
    apply list_insert_id. rewrite list_lookup_fmap, Hi. reflexivity. }
  destruct (JS.truthy _); (split; [reflexivity |]); apply Hid; reflexivity.
Qed.

Lemma dieOnTheSpot_frame i w :
  strategyFitness (this (exec (dieOnTheSpot clock i) w)) = strategyFitness (this w)
  /\ map Car.id (cars (this (exec (dieOnTheSpot clock i) w)))
     = map Car.id (cars (this w)).
Proof.
  unfold dieOnTheSpot. mstep. mstep. mstep.
  destruct (cars (this w) !! i) as [car|] eqn:Hi; [| split; reflexivity].
  split; [reflexivity |].
  change (map Car.id (<[i := Car.set_stuck true car]> (cars (this w)))
          = map Car.id (cars (this w))).
  rewrite !map_fmap, list_fmap_insert.
  apply list_insert_id. rewrite list_lookup_fmap, Hi. reflexivity.
Qed.

(** Up to PHASE 4 a frame changes neither the fitness table nor the list
    of the ids of the live cars. *)
Lemma movePhases_frame currentTime w :
  strategyFitness (this (exec (movePhases sqrt random clock currentTime) w))
  = strategyFitness (this w)
  /\ map Car.id (cars (this (exec (movePhases sqrt random clock currentTime) w)))
     = map Car.id (cars (this w)).
Proof.
  apply (movePhases_keeps sqrt random clock
           (fun w' => strategyFitness (this w') = strategyFitness (this w)
                      /\ map Car.id (cars (this w')) = map Car.id (cars (this w)))).
  - intros w' H. exact H.
  - intros w' i mv (H1 & H2). destruct (executeMove_frame i mv w') as (-> & ->).
    split; assumption.
  - intros w' i (H1 & H2). destruct (dieOnTheSpot_frame i w') as (-> & ->).
    split; assumption.
  - intros w' v H. exact H.
  - split; reflexivity.
Qed.


(** *** A frame, taken apart *)

Lemma draw_unfold w :
  let currentTime := clock (clockCalls w) in
  let wa := exec (clearFadedCells currentTime
                    (list_to_set (map Car.id (cars (this w))))) (exec (Date_now clock) w) in
  let wb := exec (movePhases sqrt random clock currentTime) wa in
  let n := length (cars (this wb)) in
  (JS.leb (stepDelay (this wa)) (inject_Z (currentTime - lastStepTime (this wa))) = true
   /\ eval (draw sqrt random clock) w = eval (phase4 clock n []) wb
   /\ exec (draw sqrt random clock) w
      = exec (spawnPhase random clock currentTime) (exec (phase4 clock n []) wb))
  \/ (JS.leb (stepDelay (this wa)) (inject_Z (currentTime - lastStepTime (this wa))) = false
      /\ eval (draw sqrt random clock) w = []
      /\ exec (draw sqrt random clock) w = wa).
Proof.
  intros currentTime wa wb n.
  unfold draw. rewrite !exec_bind, !eval_bind.
  change (eval (Date_now clock) w) with currentTime.
  rewrite (exec_get (exec (Date_now clock) w)), (eval_get (exec (Date_now clock) w)).
  change (this (exec (Date_now clock) w)) with (this w).
  fold wa. rewrite (exec_get wa), (eval_get wa).
  destruct (JS.leb (stepDelay (this wa)) (inject_Z (currentTime - lastStepTime (this wa)))).
  - left. split; [reflexivity |]. unfold step.
    rewrite !exec_bind, !eval_bind. fold wb.
    rewrite (exec_get wb), (eval_get wb). fold n.
    split; reflexivity.
  - right. split; [reflexivity |]. split; reflexivity.
Qed.









End Fitness.

(** ** The configuration is never changed *)

Section Configuration.

Import CircuitBoard.

Variable sqrt : Q -> Q.
Variable random : nat -> unit_draw.
Variable clock : nat -> Z.

Lemma sameConfig_refl b : sameConfig b b.
Proof. unfold sameConfig. repeat split. Qed.

Lemma sameConfig_trans b1 b2 b3 :
  sameConfig b1 b2 -> sameConfig b2 b3 -> sameConfig b1 b3.
Proof.
  unfold sameConfig.
  intros (A1 & A2 & A3 & A4 & A5 & A6 & A7 & A8 & A9 & A10 & A11)
         (B1 & B2 & B3 & B4 & B5 & B6 & B7 & B8 & B9 & B10 & B11).
  repeat split; congruence.
Qed.

Lemma executeMove_config i mv w :
  sameConfig (this w) (this (exec (executeMove sqrt clock i mv) w)).
Proof.
  unfold executeMove. rewrite exec_bind, (exec_get w), (eval_get w).
  destruct (cars (this w) !! i) as [car|]; [| apply sameConfig_refl].
  destruct (JS.truthy _); unfold sameConfig; repeat split.
Qed.

Lemma dieOnTheSpot_config i w :
  sameConfig (this w) (this (exec (dieOnTheSpot clock i) w)).
Proof.
  unfold dieOnTheSpot. rewrite exec_bind, (exec_get w), (eval_get w).
  destruct (cars (this w) !! i) as [car|]; [| apply sameConfig_refl].
  unfold sameConfig; repeat split.
Qed.

Lemma clearFadedCells_config currentTime alive w :
  sameConfig (this w) (this (exec (clearFadedCells currentTime alive) w)).
Proof.
  unfold clearFadedCells. rewrite exec_bind, (exec_get w), (eval_get w).
  destruct (infiniteLifetime (this w)); [apply sameConfig_refl |].
  rewrite exec_bind.
  destruct (negb _); [unfold sameConfig; repeat split |].
  rewrite !exec_bind.
  destruct (0 <? _)%Z; unfold sameConfig; repeat split.
Qed.

(** Whatever [init] does, it leaves the configuration as the constructor
    has set it. *)
Lemma init_config b w :
  sameConfig b (this w) ->
  sameConfig b (this (exec (init sqrt random clock) w)).
Proof.
  apply (init_keeps sqrt random clock (fun w => sameConfig b (this w))).
  - intros w' H. exact H.
  - intros w' H. exact H.
  - intros w' gx gy s H _. eapply sameConfig_trans; [exact H |].
    unfold sameConfig; repeat split.
  - intros w' i mv H. eapply sameConfig_trans; [exact H |]. apply executeMove_config.
  - intros w' i H. eapply sameConfig_trans; [exact H |]. apply dieOnTheSpot_config.
  - intros w' i car H _ _. eapply sameConfig_trans; [exact H |].
    unfold sameConfig; repeat split.
  - intros w' id H _. eapply sameConfig_trans; [exact H |].
    unfold sameConfig; repeat split.
  - intros w' t H. eapply sameConfig_trans; [exact H |]. apply clearFadedCells_config.
  - intros w' v H. exact H.
  - intros w' v H. exact H.
Qed.

Lemma draw_config b w :
  sameConfig b (this w) ->
  sameConfig b (this (exec (draw sqrt random clock) w)).
Proof.
  apply (draw_keeps sqrt random clock (fun w => sameConfig b (this w))).
  - intros w' H. exact H.
  - intros w' H. exact H.
  - intros w' gx gy s H _. eapply sameConfig_trans; [exact H |].
    unfold sameConfig; repeat split.
  - intros w' i mv H. eapply sameConfig_trans; [exact H |]. apply executeMove_config.
  - intros w' i H. eapply sameConfig_trans; [exact H |]. apply dieOnTheSpot_config.
  - intros w' i car H _ _. eapply sameConfig_trans; [exact H |].
    unfold sameConfig; repeat split.
  - intros w' id H _. eapply sameConfig_trans; [exact H |].
    unfold sameConfig; repeat split.
  - intros w' t H. eapply sameConfig_trans; [exact H |]. apply clearFadedCells_config.
  - intros w' v H. exact H.
  - intros w' v H. exact H.
Qed.


End Configuration.

(** ** The model, run *)

Section Runs.

Import CircuitBoard.

#[local] Open Scope Q_scope.




(** C4, the claim refuted: the list of a wanderer heading east is
    (both coin flips drawing 1/2) is [0; 5; 4; 3; 1; 5], which is no
    permutation of the six directions. *)
Lemma wanderer_priorities_no_permutation :
  eval (priorities demoRandom (demoCar 100 0 0 Wanderer 0)) (worldOf demoBoard)
  = [0; 5; 4; 3; 1; 5]%Z
  /\ ~ eval (priorities demoRandom (demoCar 100 0 0 Wanderer 0)) (worldOf demoBoard)
       ≡ₚ allDirections.
Proof.
  split; [vm_compute; reflexivity |].
  intros Hp.
  assert (Hnd : NoDup (eval (priorities demoRandom (demoCar 100 0 0 Wanderer 0))
                         (worldOf demoBoard))).
  { rewrite Hp. apply (bool_decide_unpack _). vm_compute. exact I. }
  revert Hnd. apply (bool_decide_unpack _). vm_compute. exact I.
Qed.

(** C2, the code run on a conflict.  Car 0 and car 1 both intend the cell
    "200,0".  In the frame car 0 commits the move; car 1, on its own turn of
    the PHASE 3 loop, is handed to [executeMove], which finds the key
    occupied and marks the car stuck; PHASE 4 then retires car 1: it is
    returned among the retired cars, recorded dead and gone from
    [this.cars]. *)
Theorem conflict_loser_is_retired :
  let w := worldOf conflictBoard in
  let run := draw JS.sqrt_milli demoRandom demoClock in
  (snappedKey 100 <$> eval (calculateMove JS.sqrt_milli demoRandom
                              (demoCar 100 0 0 Wanderer 0)) w = Some "200,0"%string
   /\ snappedKey 100 <$> eval (calculateMove JS.sqrt_milli demoRandom
                                 (demoCar 300 0 1 Wanderer 3)) w = Some "200,0"%string)
  /\ map (fun c => (Car.id c, Car.stuck c, carKey c)) (eval run w)
     = [(1%Z, true, "300,0"%string)]
  /\ is_Some (deadCarIds (this (exec run w)) !! 1%Z)
  /\ map Car.id (cars (this (exec run w))) = [0%Z; 2%Z]
  /\ (carKey <$> cars (this (exec run w)) !! 0%nat) = Some "200,0"%string
  /\ count (fitnessOf (strategyFitness (this (exec run w))) Wanderer) = 1%Z.
Proof.
  cbv zeta. repeat split; try (vm_compute; reflexivity).
  vm_compute. eauto.
Qed.

(** C6, the code run on a pruning.  Car 0 is alive and owns one segment;
    car 1 is dead and fully faded.  The run of [clearFadedCells] removes the
    cell and the segment of car 1, keeps the cells of car 0, and removes
    the segment of car 0 as well, because its [carId], 0, is falsy. *)
Theorem pruning_drops_lines_of_car_0 :
  let w := worldOf pruningBoard in
  let alive : gset Z := list_to_set (map Car.id (cars pruningBoard)) in
  let w' := exec (clearFadedCells 10000 alive) w in
  map Car.id (cars pruningBoard) = [0%Z]
  /\ map carId (allLines (this w)) = [0%Z; 1%Z]
  /\ map carId (allLines (this w')) = []
  /\ cellOwners (this w') !! "100,0"%string = Some 0%Z
  /\ cellOwners (this w') !! "0,0"%string = Some 0%Z
  /\ cellOwners (this w') !! "300,0"%string = None.
Proof.
  cbv zeta. repeat split; vm_compute; reflexivity.
Qed.

(** *** The theorems at concrete inputs *)

Lemma fading_brightness_witness :
  0 < fadeDuration demoBoard
  /\ traceBrightness
       (set_deadCarIds (<[1%Z := 1000%Z]> ∅) demoBoard) 3500 1 == 0.5.
Proof.
  split; [reflexivity |].
  assert (Hpos : 0 < fadeDuration (set_deadCarIds (<[1%Z := 1000%Z]> ∅) demoBoard))
    by reflexivity.
  destruct (fading_brightness
              (set_deadCarIds (<[1%Z := 1000%Z]> ∅) demoBoard) 1 3500 1000 Hpos)
    as (_ & H).
  assert (Hnot : 1%Z ∉ map Car.id (cars (set_deadCarIds (<[1%Z := 1000%Z]> ∅) demoBoard)))
    by (intros Hin; inversion Hin).
  destruct (H eq_refl Hnot eq_refl) as (_ & _ & _ & _ & H5).
  apply H5; reflexivity.
Defined.

Lemma priorities_shape_witness :
  (0 <= Car.currentDirection (demoCar 100 0 0 Spiral 4) < 6)%Z
  /\ eval (priorities demoRandom (demoCar 100 0 0 Spiral 4)) (worldOf demoBoard)
     ≡ₚ allDirections.
Proof.
  assert (Hrange : (0 <= Car.currentDirection (demoCar 100 0 0 Spiral 4) < 6)%Z)
    by (simpl; lia).
  split; [exact Hrange |].
  destruct (priorities_shape demoRandom (demoCar 100 0 0 Spiral 4)
              (worldOf demoBoard) Hrange) as (_ & _ & H & _).
  apply H. discriminate.
Defined.

Lemma move_legality_witness :
  ~ Car.hexSize (demoCar 100 0 0 Wanderer 0) == 0
  /\ Car.hexDirections (Car.hexSize (demoCar 100 0 0 Wanderer 0)) 0
     = Some {| Car.dx := 100; Car.dy := 0 |}
  /\ (Car.tryDirection JS.sqrt_milli (demoCar 100 0 0 Wanderer 0) 0
        (occupiedCells conflictBoard) 1000 1000 [] <> None
      <-> legalMove JS.sqrt_milli (demoCar 100 0 0 Wanderer 0)
            {| Car.dx := 100; Car.dy := 0 |} (occupiedCells conflictBoard) 1000 1000 []).
Proof.
  split; [discriminate |]. split; [reflexivity |].
  refine (proj1 (move_legality JS.sqrt_milli (demoCar 100 0 0 Wanderer 0) 0
                   {| Car.dx := 100; Car.dy := 0 |} (occupiedCells conflictBoard)
                   1000 1000 [] _ _)).
  - discriminate.
  - reflexivity.
Defined.

Lemma map_consistency_witness :
  bookkept JS.sqrt_milli demoRandom demoClock
    (exec (init JS.sqrt_milli demoRandom demoClock) (worldOf demoBoard))
  /\ dom (occupiedCells
            (this (exec (init JS.sqrt_milli demoRandom demoClock) (worldOf demoBoard))))
     = dom (cellOwners
              (this (exec (init JS.sqrt_milli demoRandom demoClock) (worldOf demoBoard)))).
Proof.
  assert (Hb : bookkept JS.sqrt_milli demoRandom demoClock
                 (exec (init JS.sqrt_milli demoRandom demoClock) (worldOf demoBoard))).
  { apply (bookkept_new JS.sqrt_milli demoRandom demoClock noOptions 400 400).
    reflexivity. }
  split; [exact Hb |].
  destruct (map_consistency JS.sqrt_milli demoRandom demoClock _ Hb) as (H1 & H2 & _).
  rewrite H1. exact H2.
Defined.

Lemma no_double_occupancy_witness :
  new JS.sqrt_milli demoRandom demoClock noOptions 400 400
  = Returned (exec (init JS.sqrt_milli demoRandom demoClock) (worldOf demoBoard))
  /\ noDoubleOccupancy
       (this (frames JS.sqrt_milli demoRandom demoClock 3
                (exec (init JS.sqrt_milli demoRandom demoClock) (worldOf demoBoard)))).
Proof.
  split; [reflexivity |].
  refine (proj1 (no_double_occupancy JS.sqrt_milli demoRandom demoClock noOptions
                   400 400 _ 3 _)).
  reflexivity.
Defined.


End Runs.

(** ** The geometry of the lattice *)

Section Rounding.

#[local] Open Scope Q_scope.

Lemma Math_round_inject_Z z : JS.Math_round (inject_Z z) = z.
Proof.
  unfold JS.Math_round, Qfloor, Qplus, inject_Z. simpl.
  rewrite Z.mul_1_r. change (Z.pos (1 * 2)) with 2%Z.
  symmetry. apply Z.div_unique with (r := 1%Z); lia.
Qed.

Lemma Math_round_comp a b : a == b -> JS.Math_round a = JS.Math_round b.
Proof.
  intros H. unfold JS.Math_round. apply Qfloor_comp. rewrite -> H. reflexivity.
Qed.

Lemma getHexKey_comp a b a' b' :
  a == a' -> b == b' -> getHexKey a b = getHexKey a' b'.
Proof.
  intros Ha Hb. unfold getHexKey.
  rewrite (Math_round_comp _ _ Ha), (Math_round_comp _ _ Hb). reflexivity.
Qed.

End Rounding.

Section Lattice.

Import CircuitBoard.

#[local] Open Scope Q_scope.

(** A row is even exactly when the source's test [row % 2 === 0] says so,
    for negative rows too. *)
Lemma rem2_even row : (Z.rem row 2 =? 0)%Z = Z.even row.
Proof.
  destruct (Z.even row) eqn:He.
  - apply Z.eqb_eq. apply Z.even_spec in He. destruct He as (k & ->).
    rewrite Z.mul_comm. apply Z.rem_mul. discriminate.
  - apply Z.eqb_neq. intros Hr. apply Z.rem_divide in Hr; [| discriminate].
    destruct Hr as (k & ->).
    rewrite Z.mul_comm, Z.even_mul in He. discriminate.
Qed.

Lemma rem2_succ row : (Z.rem (row + 1) 2 =? 0)%Z = negb (Z.rem row 2 =? 0)%Z.
Proof.
  rewrite !rem2_even. rewrite Z.add_1_r, Z.even_succ, <- Z.negb_even. reflexivity.
Qed.

Lemma rem2_pred row : (Z.rem (row - 1) 2 =? 0)%Z = negb (Z.rem row 2 =? 0)%Z.
Proof.
  rewrite !rem2_even. rewrite Z.sub_1_r, Z.even_pred, <- Z.negb_even. reflexivity.
Qed.

(** Snapping recovers a lattice point from any representation of its
    coordinates. *)
Lemma snapToGrid_lattice h row col px py :
  ~ h == 0 ->
  px == fst (gridPoint h row col) ->
  py == snd (gridPoint h row col) ->
  snapToGrid h px py = gridPoint h row col.
Proof.
  intros Hh Hx Hy. unfold snapToGrid, gridPoint in *. simpl fst in *; simpl snd in *.
  assert (Hrow : JS.Math_round (py / (h * 0.866)) = row).
  { rewrite <- (Math_round_inject_Z row). apply Math_round_comp.
    rewrite -> Hy. field. exact Hh. }
  rewrite Hrow.
  assert (Hcol : JS.Math_round
                   ((px - (if (Z.rem row 2 =? 0)%Z then 0 else h / 2)) / h) = col).
  { rewrite <- (Math_round_inject_Z col). apply Math_round_comp.
    rewrite -> Hx. field. exact Hh. }
  rewrite Hcol. reflexivity.
Qed.

(** X2. Snapping is idempotent: the point [snapToGrid] returns is a
    lattice point, and snapping it again returns the same point.  The hex
    size must not be 0 (the constructor replaces a hex size of 0 by 100). *)
Theorem snapToGrid_idempotent (h x y : Q) :
  ~ h == 0 ->
  let s := snapToGrid h x y in
  snapToGrid h (fst s) (snd s) = s.
Proof.
  intros Hh s.
  assert (Hs : exists row col, s = gridPoint h row col).
  { unfold s, snapToGrid, gridPoint. eexists _, _. reflexivity. }
  destruct Hs as (row & col & ->).
  apply snapToGrid_lattice; [exact Hh | reflexivity | reflexivity].
Qed.

End Lattice.

Section LatticeSteps.

Import CircuitBoard.

#[local] Open Scope Q_scope.

Lemma hexDirections_range h k dir :
  Car.hexDirections h k = Some dir -> (0 <= k < 6)%Z.
Proof.
  unfold Car.hexDirections. intros H.
  destruct k as [| p | p]; try discriminate H; [lia |].
  do 3 (try (destruct p as [p | p |]; try discriminate H; try lia)).
Qed.

Lemma lattice_step_eq (h : Q) (row col k : Z) (dir : Car.Dir) :
  Car.hexDirections h k = Some dir ->
  fst (gridPoint h row col) + Car.dx dir
  == fst (gridPoint h (fst (neighborCell row col k)) (snd (neighborCell row col k)))
  /\ snd (gridPoint h row col) + Car.dy dir
     == snd (gridPoint h (fst (neighborCell row col k)) (snd (neighborCell row col k))).
Proof.
  intros Hdir. pose proof (hexDirections_range _ _ _ Hdir) as Hk.
  assert (Hcases : k = 0%Z \/ k = 1%Z \/ k = 2%Z \/ k = 3%Z \/ k = 4%Z \/ k = 5%Z)
    by lia.
  unfold gridPoint, neighborCell.
  destruct Hcases as [-> | [-> | [-> | [-> | [-> | ->]]]]];
    simpl in Hdir; injection Hdir as <-; cbn [fst snd Car.dx Car.dy];
    rewrite ?rem2_succ, ?rem2_pred;
    destruct (Z.rem row 2 =? 0)%Z; cbn [negb fst snd];
    rewrite ?inject_Z_plus, ?inject_Z_opp; unfold Z.sub;
    rewrite ?inject_Z_plus, ?inject_Z_opp;
    change (inject_Z 1) with 1; split; field.
Qed.

(** X1. The six steps of [hexDirections] lead from a lattice point to a
    lattice point: from the point of (row, col), the step in direction [k]
    ends on the point of [neighborCell row col k], whatever the hex size
    and for negative rows and columns too; and two steps in opposite
    directions lead back to the cell they started from. *)
Theorem lattice_step (h : Q) (row col k : Z) (dir : Car.Dir) :
  Car.hexDirections h k = Some dir ->
  let p := gridPoint h row col in
  let n := neighborCell row col k in
  let q := gridPoint h (fst n) (snd n) in
  (fst p + Car.dx dir == fst q /\ snd p + Car.dy dir == snd q)
  /\ neighborCell (fst n) (snd n) (Z.rem (k + 3) 6) = (row, col).
Proof.
  intros Hdir p n q. split; [apply lattice_step_eq, Hdir |].
  pose proof (hexDirections_range _ _ _ Hdir) as Hk.
  assert (Hcases : k = 0%Z \/ k = 1%Z \/ k = 2%Z \/ k = 3%Z \/ k = 4%Z \/ k = 5%Z)
    by lia.
  unfold n, neighborCell.
  destruct Hcases as [-> | [-> | [-> | [-> | [-> | ->]]]]];
    cbn [fst snd Z.rem Z.add Z.quotrem Pos.add Z.pos_sub];
    rewrite ?rem2_succ, ?rem2_pred;
    destruct (Z.rem row 2 =? 0)%Z; cbn [negb fst snd];
    simpl; f_equal; lia.
Qed.

End LatticeSteps.

(** ** Keys *)

Section Keys.

Lemma pretty_N_char_no_comma x : pretty_N_char x <> ","%char.
Proof. unfold pretty_N_char. repeat case_match; discriminate. Qed.

Lemma pretty_N_go_commaFree x s : commaFree s -> commaFree (pretty_N_go x s).
Proof.
  revert s. induction (N.lt_wf_0 x) as [x _ IH]; intros s Hs.
  assert (x = 0 \/ 0 < x)%N as [-> | Hx] by lia.
  - rewrite pretty_N_go_0. exact Hs.
  - rewrite pretty_N_go_step by exact Hx. apply IH.
    + apply N.div_lt; [exact Hx | reflexivity].
    + split; [apply pretty_N_char_no_comma | exact Hs].
Qed.

Lemma pretty_N_commaFree (x : N) : commaFree (pretty x).
Proof.
  unfold pretty, pretty_N. case_decide.
  - simpl. split; [discriminate | exact I].
  - apply pretty_N_go_commaFree. exact I.
Qed.

Lemma pretty_Z_commaFree (z : Z) : commaFree (pretty z).
Proof.
  destruct z as [| p | p]; unfold pretty, pretty_Z.
  - simpl. split; [discriminate | exact I].
  - apply pretty_N_commaFree.
  - simpl. split; [discriminate | apply pretty_N_commaFree].
Qed.

Lemma append_nil_l (s : string) : "" +:+ s = s.
Proof. reflexivity. Qed.

Lemma append_cons c (s t : string) : String c s +:+ t = String c (s +:+ t).
Proof. reflexivity. Qed.

(** A string is split at its first comma in one way only. *)
Lemma split_at_comma s1 s2 t1 t2 :
  commaFree s1 -> commaFree s2 ->
  s1 +:+ "," +:+ t1 = s2 +:+ "," +:+ t2 -> s1 = s2 /\ t1 = t2.
Proof.
  revert s2. induction s1 as [| c s1 IH]; intros [| c' s2] H1 H2 Heq;
    rewrite ?append_nil_l, ?append_cons, ?append_nil_l in Heq; simpl in H1, H2.
  - injection Heq as Heq. subst. split; reflexivity.
  - injection Heq as Hc _. destruct H2 as (H2 & _). congruence.
  - injection Heq as Hc _. destruct H1 as (H1 & _). congruence.
  - injection Heq as Hc Heq. destruct H1 as (_ & H1), H2 as (_ & H2).
    destruct (IH _ H1 H2 Heq) as (-> & ->). subst. split; reflexivity.
Qed.

(** X3. The key of a point names its rounded coordinates and nothing else:
    two points have the same key exactly when their coordinates round to
    the same two integers.  No two distinct cells share a key. *)
Theorem getHexKey_same_cell (x y x' y' : Q) :
  getHexKey x y = getHexKey x' y'
  <-> JS.Math_round x = JS.Math_round x' /\ JS.Math_round y = JS.Math_round y'.
Proof.
  unfold getHexKey. split.
  - intros Heq.
    apply split_at_comma in Heq; try apply pretty_Z_commaFree.
    destruct Heq as (Hx & Hy).
    split; apply (inj pretty); assumption.
  - intros (-> & ->). reflexivity.
Qed.

End Keys.

(** ** Invariants of the frames

    A second traversal of the program, for properties that depend on where
    cars are placed and on what moves are committed: the positions
    [spawnCar] hands to the placement are lattice points, and the moves
    PHASE 3 commits come from [calculateMove], whose directions are among
    the six. *)

Section FrameInvariants.

Import CircuitBoard.

Variable sqrt : Q -> Q.
Variable random : nat -> unit_draw.
Variable clock : nat -> Z.

#[local] Abbreviation Math_random := (Math_random random).
#[local] Abbreviation Date_now := (Date_now clock).
#[local] Abbreviation placeCar := (placeCar random clock).
#[local] Abbreviation spawnCar := (spawnCar random clock).
#[local] Abbreviation executeMove := (executeMove sqrt clock).
#[local] Abbreviation dieOnTheSpot := (dieOnTheSpot clock).
#[local] Abbreviation retireCar := (retireCar clock).
#[local] Abbreviation draw := (draw sqrt random clock).

Variable P : World -> Prop.

Hypothesis P_random : forall w, P w -> P (exec Math_random w).
Hypothesis P_now : forall w, P w -> P (exec Date_now w).
Hypothesis P_place : forall w row col s,
  let p := gridPoint (hexSize (this w)) row col in
  P w ->
  JS.truthy (occupiedCells (this w) !! getHexKey (fst p) (snd p)) = false ->
  P (exec (placeCar (fst p) (snd p) (getHexKey (fst p) (snd p)) s) w).
Hypothesis P_move : forall w i mv,
  P w -> moveInRange mv -> P (exec (executeMove i mv) w).
Hypothesis P_die : forall w i, P w -> P (exec (dieOnTheSpot i) w).
Hypothesis P_retire : forall w i car,
  P w -> cars (this w) !! i = Some car -> Car.stuck car = true ->
  P (exec (retireCar i car) w).
Hypothesis P_remove : forall w id,
  P w -> is_Some (deadCarIds (this w) !! id) ->
  P (exec (removeCarTraces id) w).
Hypothesis P_clear : forall w currentTime,
  P w ->
  P (exec (clearFadedCells currentTime
             (list_to_set (map Car.id (cars (this w))))) w).
Hypothesis P_stepTime : forall w v, P w -> P (exec (modify (set_lastStepTime v)) w).
Hypothesis P_spawnTime : forall w v, P w -> P (exec (modify (set_lastSpawnTime v)) w).

Lemma spawnCar_random_holds n s w :
  P w -> P (exec (spawnCar_random random clock n s) w).
Proof.
  revert w. induction n as [| n IH]; intros w HP; [exact HP |].
  simpl. rewrite !exec_bind, exec_get, eval_get.
  set (w2 := exec Math_random (exec Math_random w)).
  assert (HP2 : P w2) by (apply P_random, P_random, HP).
  match goal with |- context [negb ?c] => destruct c eqn:Hocc end; simpl.
  - apply IH. exact HP2.
  - rewrite exec_bind, exec_ret. apply (P_place w2); assumption.
Qed.

Lemma elem_of_scanPositions b p :
  p ∈ scanPositions b -> exists row col, p = gridPoint (hexSize b) row col.
Proof.
  unfold scanPositions. intros Hp.
  apply list_elem_of_In, in_flat_map in Hp. destruct Hp as (row & _ & Hp).
  apply in_map_iff in Hp. destruct Hp as (col & <- & _). eauto.
Qed.

Lemma spawnCar_scan_holds s w :
  P w -> P (exec (spawnCar_scan random clock s) w).
Proof.
  intros HP. unfold spawnCar_scan. rewrite exec_bind, exec_get, eval_get.
  destruct (find (scanFree (this w)) (scanPositions (this w))) as [p|] eqn:Hfind.
  - rewrite exec_bind, exec_ret.
    apply find_some in Hfind. destruct Hfind as (Hin & Hfree).
    apply list_elem_of_In, elem_of_scanPositions in Hin.
    destruct Hin as (row & col & ->).
    apply P_place; [exact HP |]. apply scanFree_free. exact Hfree.
  - exact HP.
Qed.

Lemma spawnCar_holds w : P w -> P (exec spawnCar w).
Proof.
  intros HP. unfold CircuitBoard.spawnCar. rewrite !exec_bind.
  assert (HP1 : P (exec (selectStrategyByFitness random) w))
    by (rewrite selectStrategy_exec; apply P_random, P_random, HP).
  pose proof (spawnCar_random_holds maxAttempts
                (eval (selectStrategyByFitness random) w) _ HP1) as HP2.
  destruct (eval (spawnCar_random random clock maxAttempts _) _).
  - exact HP2.
  - apply spawnCar_scan_holds. exact HP2.
Qed.

(** The moves [calculateMove] returns are in range. *)
Lemma firstValidMove_inRange b car prios mv :
  firstValidMove sqrt b car prios = Some mv -> moveInRange mv.
Proof.
  induction prios as [| d prios IH]; cbn [firstValidMove]; [discriminate |].
  destruct (Car.tryDirection _ _ _ _ _ _ _) as [m|] eqn:Htry; [| exact IH].
  destruct (JS.leb 0 (scoreMove m car)); [| exact IH].
  intros [= <-]. unfold moveInRange. simpl.
  unfold Car.tryDirection in Htry.
  destruct (Car.hexDirections _ d) as [dir|] eqn:Hdir; [| discriminate].
  apply hexDirections_range in Hdir.
  repeat match type of Htry with
         | (if ?c then _ else _) = _ => destruct c; [discriminate |]
         end.
  injection Htry as <-. exact Hdir.
Qed.

Lemma calculateMove_inRange car w mv :
  eval (calculateMove sqrt random car) w = Some mv -> moveInRange mv.
Proof.
  unfold calculateMove. rewrite !eval_bind, eval_ret.
  apply firstValidMove_inRange.
Qed.

Lemma phase1_inRange cs i w :
  entriesInRange (eval (phase1 sqrt random i cs) w).
Proof.
  revert i w. induction cs as [| car cs IH]; intros i w; [constructor |].
  simpl. destruct (Car.stuck car); simpl; [apply IH |].
  rewrite !eval_bind, eval_ret. constructor; [| apply IH].
  simpl. intros mv. apply calculateMove_inRange.
Qed.

Lemma phase2_inRange h entries :
  entriesInRange entries -> entriesInRange (fst (phase2 h entries)).
Proof.
  unfold entriesInRange, phase2. simpl. rewrite Forall_fmap. intros H.
  eapply Forall_impl; [exact H |]. cbn. intros e He mv. unfold phase2_entry.
  destruct (move e) as [m|] eqn:Hm; simpl; [| rewrite Hm; discriminate].
  intros [= <-]. apply He. reflexivity.
Qed.

Lemma phase3_step_holds counts i moves w :
  entriesInRange moves -> P w ->
  P (exec (phase3_step sqrt clock counts i moves) w)
  /\ entriesInRange (eval (phase3_step sqrt clock counts i moves) w).
Proof.
  intros Hr HP. unfold phase3_step.
  destruct (moves !! i) as [entry|] eqn:Hentry; [| split; assumption].
  assert (Hentry' : forall mv, move entry = Some mv -> moveInRange mv).
  { eapply Forall_lookup_1 in Hr; [| exact Hentry]. exact Hr. }
  destruct (move entry) as [mv|] eqn:Hmv.
  - destruct (JS.truthy_str (snappedDestKey entry)).
    + destruct (bool_decide _).
      * rewrite exec_bind, eval_bind, eval_ret.
        split; [| exact Hr]. apply P_move; [exact HP | apply Hentry'; reflexivity].
      * rewrite exec_bind, eval_bind, eval_ret.
        set (conflict := carsInConflict moves _).
        assert (Hfirst : moveInRange
                  (default mv (move (default entry (head conflict))))).
        { destruct (head conflict) as [first|] eqn:Hhead; simpl.
          - destruct (move first) as [m|] eqn:Hm; simpl;
              [| apply Hentry'; reflexivity].
            apply head_Some_elem_of in Hhead.
            apply list_elem_of_In, filter_In in Hhead. destruct Hhead as (Hin & _).
            apply list_elem_of_In in Hin.
            eapply Forall_forall in Hr; [| exact Hin]. apply Hr. exact Hm.
          - rewrite Hmv. simpl. apply Hentry'. reflexivity. }
        split.
        -- destruct (length _ =? 2)%nat; apply P_move; assumption.
        -- apply Forall_insert; [exact Hr |]. simpl. discriminate.
    + rewrite exec_bind, eval_bind, eval_ret.
      split; [apply P_die, HP | exact Hr].
  - rewrite exec_bind, eval_bind, eval_ret.
    split; [apply P_die, HP | exact Hr].
Qed.

Lemma phase3_fold_holds counts (l : list nat) moves w :
  entriesInRange moves -> P w ->
  P (exec (foldM l (phase3_step sqrt clock counts) moves) w).
Proof.
  revert moves w. induction l as [| i l IH]; intros moves w Hr HP; [exact HP |].
  simpl. rewrite exec_bind.
  destruct (phase3_step_holds counts i moves w Hr HP) as (HP' & Hr').
  apply IH; assumption.
Qed.

Lemma movePhases_holds currentTime w :
  P w -> P (exec (movePhases sqrt random clock currentTime) w).
Proof.
  intros HP. unfold movePhases. rewrite !exec_bind, exec_ret.
  unfold phase3. apply phase3_fold_holds.
  - apply phase2_inRange, phase1_inRange.
  - apply (phase1_keeps sqrt random P P_random).
    rewrite exec_get. apply P_stepTime, HP.
Qed.

Lemma spawnPhase_holds currentTime w :
  P w -> P (exec (spawnPhase random clock currentTime) w).
Proof.
  intros HP. unfold spawnPhase. rewrite exec_bind, exec_get, eval_get.
  match goal with |- context [if ?c then _ else _] => destruct c end; [| exact HP].
  rewrite !exec_bind, exec_get, eval_get.
  apply P_spawnTime.
  pose proof (spawnCar_holds w HP) as HP1.
  match goal with |- context [if ?c then _ else _] => destruct c end; [| exact HP1].
  destruct (oldestDeadCar _) as [id|] eqn:Hold; [| exact HP1].
  rewrite !exec_bind, exec_ret.
  apply spawnCar_holds. apply P_remove; [exact HP1 |].
  apply oldestDeadCar_spec in Hold. destruct Hold as (t & Ht & _). eauto.
Qed.

Lemma step_holds currentTime w :
  P w -> P (exec (step sqrt random clock currentTime) w).
Proof.
  intros HP. unfold step. rewrite !exec_bind, exec_ret.
  apply spawnPhase_holds. apply (phase4_keeps clock P P_retire).
  rewrite exec_get. apply movePhases_holds, HP.
Qed.

Lemma draw_holds w : P w -> P (exec draw w).
Proof.
  intros HP. unfold CircuitBoard.draw. rewrite !exec_bind, !exec_get, !eval_get.
  assert (HP1 : P (exec (clearFadedCells (eval Date_now w)
                           (list_to_set (map Car.id (cars (this (exec Date_now w))))))
                     (exec Date_now w)))
    by (apply P_clear, P_now, HP).
  match goal with |- context [if ?c then _ else _] => destruct c end.
  - apply step_holds, HP1.
  - exact HP1.
Qed.

Lemma init_holds w : P w -> P (exec (init sqrt random clock) w).
Proof.
  intros HP. unfold init. rewrite !exec_bind, exec_ret, exec_get, eval_get.
  apply draw_holds.
  destruct (JS.eqb _ _); [| exact HP].
  apply (forM_keeps P); [| exact HP].
  intros _ w' HP'. rewrite exec_bind, exec_ret. apply spawnCar_holds, HP'.
Qed.

Lemma frames_holds n w : P w -> P (frames sqrt random clock n w).
Proof.
  revert w. induction n as [| n IH]; intros w HP; [exact HP |].
  simpl. apply IH, draw_holds, HP.
Qed.

End FrameInvariants.

(** ** The live cars stay on the lattice *)

Section WellFormed.

Import CircuitBoard.

Variable sqrt : Q -> Q.
Variable random : nat -> unit_draw.
Variable clock : nat -> Z.

#[local] Open Scope Q_scope.

(** [Math.floor(Math.random() * n)] is one of 0, ..., n - 1. *)
Lemma floor_draw_range (r : unit_draw) (n : Z) :
  (0 < n)%Z -> (0 <= JS.Math_floor (r * inject_Z n) < n)%Z.
Proof.
  intros Hn. destruct (draw_range r) as (H0 & H1).
  assert (Hq : 0 < inject_Z n) by (change 0 with (inject_Z 0); rewrite <- Zlt_Qlt; exact Hn).
  unfold JS.Math_floor. split.
  - change 0%Z with (Qfloor (inject_Z 0)). apply Qfloor_resp_le.
    change (inject_Z 0) with 0. nra.
  - rewrite Zlt_Qlt. eapply Qle_lt_trans; [apply Qfloor_le |]. nra.
Qed.

Lemma wellFormedCar_config b b' c :
  hexSize b' = hexSize b -> canvasWidth b' = canvasWidth b ->
  canvasHeight b' = canvasHeight b ->
  wellFormedCar b c -> wellFormedCar b' c.
Proof.
  unfold wellFormedCar, onLattice. intros -> -> ->. tauto.
Qed.

Lemma wellFormed_step w w' :
  hexSize (this w') = hexSize (this w) ->
  canvasWidth (this w') = canvasWidth (this w) ->
  canvasHeight (this w') = canvasHeight (this w) ->
  (forall c, c ∈ cars (this w') ->
     c ∈ cars (this w) \/ wellFormedCar (this w) c) ->
  wellFormedCars w -> wellFormedCars w'.
Proof.
  intros Hh Hcw Hch Hcars Hwf c Hc.
  apply (wellFormedCar_config (this w)); try assumption.
  destruct (Hcars c Hc) as [Hold | Hnew]; [apply Hwf, Hold | exact Hnew].
Qed.

Lemma wellFormed_same w w' :
  sameConfig (this w) (this w') -> cars (this w') = cars (this w) ->
  wellFormedCars w -> wellFormedCars w'.
Proof.
  intros Hcfg Hcars. unfold sameConfig in Hcfg.
  apply wellFormed_step; try tauto.
  intros c Hc. left. rewrite Hcars in Hc. exact Hc.
Qed.

Lemma placeCar_wellFormed w row col s :
  let p := gridPoint (hexSize (this w)) row col in
  wellFormedCars w ->
  wellFormedCars
    (exec (placeCar random clock (fst p) (snd p) (getHexKey (fst p) (snd p)) s) w).
Proof.
  intros p. apply wellFormed_step; try reflexivity.
  intros c Hc. simpl in Hc. apply elem_of_app in Hc. destruct Hc as [Hc | Hc].
  - left. exact Hc.
  - right. apply list_elem_of_singleton in Hc. subst c.
    split; [| split; [| split]]; try reflexivity.
    + split; [reflexivity |]. exists row, col. reflexivity.
    + cbn [Car.currentDirection Car.new].
      apply (floor_draw_range _ 6). lia.
Qed.

Lemma set_stuck_wellFormed b v c :
  wellFormedCar b c -> wellFormedCar b (Car.set_stuck v c).
Proof. exact (fun H => H). Qed.

Lemma movedCar_wellFormed b c mv :
  wellFormedCar b c -> moveInRange mv ->
  let snapped := snapToGrid (hexSize b) (x mv) (y mv) in
  wellFormedCar b (movedCar sqrt c (fst snapped) (snd snapped) mv).
Proof.
  intros ((Hh & _) & Hcw & Hch & _) Hmv snapped.
  split; [| split; [| split]]; try assumption.
  split; [exact Hh |].
  unfold snapped, snapToGrid, gridPoint. eexists _, _. reflexivity.
Qed.

Lemma executeMove_wellFormed w i mv :
  wellFormedCars w -> moveInRange mv ->
  wellFormedCars (exec (executeMove sqrt clock i mv) w).
Proof.
  intros Hwf Hmv. unfold executeMove. mstep. mstep. mstep.
  destruct (cars (this w) !! i) as [car|] eqn:Hi; [| exact Hwf].
  assert (Hcar : car ∈ cars (this w)) by (eapply list_elem_of_lookup_2; eauto).
  pose proof (Hwf car Hcar) as Hc.
  destruct (JS.truthy _); revert Hwf; apply wellFormed_step; try reflexivity.
  - intros c Hin. apply elem_of_insert_inv in Hin. destruct Hin as [-> | Hin].
    + right. apply set_stuck_wellFormed, Hc.
    + left. exact Hin.
  - intros c Hin. apply elem_of_insert_inv in Hin. destruct Hin as [-> | Hin].
    + right. apply movedCar_wellFormed; assumption.
    + left. exact Hin.
Qed.

Lemma dieOnTheSpot_wellFormed w i :
  wellFormedCars w -> wellFormedCars (exec (dieOnTheSpot clock i) w).
Proof.
  intros Hwf. unfold dieOnTheSpot. mstep. mstep. mstep.
  destruct (cars (this w) !! i) as [car|] eqn:Hi; [| exact Hwf].
  assert (Hcar : car ∈ cars (this w)) by (eapply list_elem_of_lookup_2; eauto).
  pose proof (Hwf car Hcar) as Hc.
  revert Hwf; apply wellFormed_step; try reflexivity.
  intros c Hin. apply elem_of_insert_inv in Hin. destruct Hin as [-> | Hin].
  - right. apply set_stuck_wellFormed, Hc.
  - left. exact Hin.
Qed.

Lemma retireCar_wellFormed w i car :
  wellFormedCars w -> wellFormedCars (exec (retireCar clock i car) w).
Proof.
  apply wellFormed_step; try reflexivity.
  intros c Hc. left. simpl in Hc. eapply list_elem_of_delete_inv. exact Hc.
Qed.

Lemma removeCarTraces_wellFormed w id :
  wellFormedCars w -> wellFormedCars (exec (removeCarTraces id) w).
Proof.
  apply wellFormed_step; try reflexivity.
  intros c Hc. left. exact Hc.
Qed.

Lemma clearFadedCells_wellFormed w currentTime alive :
  wellFormedCars w -> wellFormedCars (exec (clearFadedCells currentTime alive) w).
Proof.
  apply wellFormed_same.
  - apply clearFadedCells_config.
  - apply clearFadedCells_cars.
Qed.

Lemma frames_wellFormed n w :
  wellFormedCars w -> wellFormedCars (frames sqrt random clock n w).
Proof.
  apply frames_holds.
  - intros w' H. exact H.
  - intros w' H. exact H.
  - intros w' row col s p H _. apply placeCar_wellFormed, H.
  - intros w' i mv H Hmv. apply executeMove_wellFormed; assumption.
  - intros w' i H. apply dieOnTheSpot_wellFormed, H.
  - intros w' i car H _ _. apply retireCar_wellFormed, H.
  - intros w' id H _. apply removeCarTraces_wellFormed, H.
  - intros w' t H. apply clearFadedCells_wellFormed, H.
  - intros w' v H. exact H.
  - intros w' v H. exact H.
Qed.

Lemma init_wellFormed w :
  wellFormedCars w -> wellFormedCars (exec (init sqrt random clock) w).
Proof.
  apply init_holds.
  - intros w' H. exact H.
  - intros w' H. exact H.
  - intros w' row col s p H _. apply placeCar_wellFormed, H.
  - intros w' i mv H Hmv. apply executeMove_wellFormed; assumption.
  - intros w' i H. apply dieOnTheSpot_wellFormed, H.
  - intros w' i car H _ _. apply retireCar_wellFormed, H.
  - intros w' id H _. apply removeCarTraces_wellFormed, H.
  - intros w' t H. apply clearFadedCells_wellFormed, H.
  - intros w' v H. exact H.
  - intros w' v H. exact H.
Qed.

(** X4. At every frame after the construction, every live car has the
    geometry of its board (hex size and canvas), stands exactly on a
    lattice point, and heads in one of the six directions; so
    [tryDirection] never looks up a direction that does not exist. *)
Theorem live_cars_on_lattice (options : Options) (innerWidth innerHeight : Z)
    (w0 : World) (n : nat) (c : Car.t) :
  new sqrt random clock options innerWidth innerHeight = Returned w0 ->
  c ∈ cars (this (frames sqrt random clock n w0)) ->
  let b := this (frames sqrt random clock n w0) in
  Car.hexSize c = hexSize b
  /\ Car.canvasWidth c = canvasWidth b /\ Car.canvasHeight c = canvasHeight b
  /\ (exists row col, (Car.x c, Car.y c) = gridPoint (hexSize b) row col)
  /\ (0 <= Car.currentDirection c < 6)%Z
  /\ forall k, k ∈ allDirections ->
       is_Some (Car.hexDirections (Car.hexSize c) k).
Proof.
  intros Hnew Hc b. injection Hnew as <-.
  assert (Hwf : wellFormedCars
                  (frames sqrt random clock n
                     (exec (init sqrt random clock)
                        {| this := fields options innerWidth innerHeight;
                           randomCalls := 0; clockCalls := 0 |}))).
  { apply frames_wellFormed, init_wellFormed.
    intros c' Hc'. simpl in Hc'. inversion Hc'. }
  destruct (Hwf c Hc) as ((Hh & Hpos) & Hcw & Hch & Hdir).
  repeat split; try assumption; try lia.
  intros k Hk. unfold allDirections in Hk.
  repeat (apply elem_of_cons in Hk; destruct Hk as [-> | Hk]; [simpl; eauto |]).
  inversion Hk.
Qed.

End WellFormed.

(** ** The destination of a calculated move *)

Section Destination.

Import CircuitBoard.

Variable sqrt : Q -> Q.
Variable random : nat -> unit_draw.

#[local] Open Scope Q_scope.

Lemma tryDirection_Some c k cells width height lines mv :
  Car.tryDirection sqrt c k cells width height lines = Some mv ->
  exists dir,
    Car.hexDirections (Car.hexSize c) k = Some dir
    /\ Car.mx mv = Car.x c + Car.dx dir
    /\ Car.my mv = Car.y c + Car.dy dir
    /\ Car.mdirection mv = k
    /\ JS.truthy (cells !! getHexKey (Car.mx mv) (Car.my mv)) = false.
Proof.
  unfold Car.tryDirection. intros Htry.
  destruct (Car.hexDirections _ k) as [dir|]; [| discriminate].
  exists dir. split; [reflexivity |].
  destruct (_ || _ || _ || _); [discriminate |].
  destruct (JS.truthy _) eqn:Hocc; [discriminate |].
  repeat match type of Htry with
         | (if ?c then _ else _) = _ => destruct c; [discriminate |]
         end.
  injection Htry as <-. simpl. repeat split. exact Hocc.
Qed.

Lemma firstValidMove_Some b car prios mv :
  firstValidMove sqrt b car prios = Some mv ->
  exists d m,
    d ∈ prios
    /\ Car.tryDirection sqrt car d (occupiedCells b) (canvasWidth b)
         (canvasHeight b) (allLines b) = Some m
    /\ x mv = Car.mx m /\ y mv = Car.my m /\ direction mv = d
    /\ oldDirection mv = Car.currentDirection car.
Proof.
  induction prios as [| d prios IH]; cbn [firstValidMove]; [discriminate |].
  destruct (Car.tryDirection _ _ d _ _ _ _) as [m|] eqn:Htry.
  - destruct (JS.leb 0 (scoreMove m car)).
    + intros [= <-]. exists d, m. simpl.
      destruct (tryDirection_Some _ _ _ _ _ _ _ Htry) as (_ & _ & _ & _ & Hd & _).
      repeat split; try assumption. apply list_elem_of_here.
    + intros H. destruct (IH H) as (d' & m' & Hin & Hrest).
      exists d', m'. split; [apply list_elem_of_further, Hin | exact Hrest].
  - intros H. destruct (IH H) as (d' & m' & Hin & Hrest).
    exists d', m'. split; [apply list_elem_of_further, Hin | exact Hrest].
Qed.

Lemma calculateMove_this car w :
  this (exec (calculateMove sqrt random car) w) = this w.
Proof.
  unfold calculateMove. rewrite !exec_bind, exec_ret.
  rewrite (exec_get (exec (priorities random car) w)).
  apply (priorities_keeps random (fun w' => this w' = this w)); [| reflexivity].
  intros w' H. exact H.
Qed.

(** X5. [calculateMove] leaves the board as it is, and the key
    [tryDirection] has tested for the move it returns is free on that
    board.  [executeMove], called next, computes its own key from the
    snapped destination: if that key is the tested one, it commits the
    move (the cell is entered with the car as owner and the car is put on
    the snapped point); it takes its collision branch, which marks the car
    stuck and changes nothing else, only if snapping has led to a different
    key, one that is occupied. *)
Theorem calculated_move_commits_on_tested_key (clock : nat -> Z) (w : World)
    (i : nat) (car : Car.t) (mv : Move) :
  cars (this w) !! i = Some car ->
  eval (calculateMove sqrt random car) w = Some mv ->
  let h := hexSize (this w) in
  let s := snapToGrid h (x mv) (y mv) in
  let w1 := exec (calculateMove sqrt random car) w in
  let b' := this (exec (executeMove sqrt clock i mv) w1) in
  this w1 = this w
  /\ ~ occupied (occupiedCells (this w)) (getHexKey (x mv) (y mv))
  /\ (snappedKey h mv = getHexKey (x mv) (y mv) ->
      cars b' = <[i := movedCar sqrt car (fst s) (snd s) mv]> (cars (this w))
      /\ occupiedCells b' = <[snappedKey h mv := 1%Z]> (occupiedCells (this w))
      /\ cellOwners b' = <[snappedKey h mv := Car.id car]> (cellOwners (this w)))
  /\ (occupied (occupiedCells (this w)) (snappedKey h mv) ->
      snappedKey h mv <> getHexKey (x mv) (y mv)
      /\ cars b' = <[i := Car.set_stuck true car]> (cars (this w))
      /\ occupiedCells b' = occupiedCells (this w)
      /\ cellOwners b' = cellOwners (this w)
      /\ allLines b' = allLines (this w)).
Proof.
  intros Hi Hcalc h s w1 b'.
  assert (H1 : this w1 = this w) by apply calculateMove_this.
  unfold calculateMove in Hcalc. rewrite !eval_bind, eval_ret in Hcalc.
  rewrite (eval_get (exec (priorities random car) w)) in Hcalc.
  assert (Hthis : this (exec (priorities random car) w) = this w).
  { apply (priorities_keeps random (fun w' => this w' = this w)); [| reflexivity].
    intros w' H. exact H. }
  rewrite Hthis in Hcalc.
  destruct (firstValidMove_Some _ _ _ _ Hcalc) as (d & m & _ & Htry & Hx & Hy & _).
  destruct (tryDirection_Some _ _ _ _ _ _ _ Htry) as (_ & _ & _ & _ & _ & Hfree).
  rewrite <- Hx, <- Hy in Hfree.
  assert (Hnot : ~ occupied (occupiedCells (this w)) (getHexKey (x mv) (y mv))).
  { intros Hocc. apply truthy_occupied in Hocc. congruence. }
  assert (Hi1 : cars (this w1) !! i = Some car) by (rewrite H1; exact Hi).
  split; [exact H1 |]. split; [exact Hnot |]. split.
  - intros Hkey.
    assert (Hfree1 : ~ occupied (occupiedCells (this w1))
                       (snappedKey (hexSize (this w1)) mv)).
    { rewrite H1. fold h. rewrite Hkey. exact Hnot. }
    destruct (executeMove_commits sqrt clock i mv car w1 Hi1 Hfree1)
      as (Ho & Hw & _).
    fold b' in Ho, Hw. rewrite H1 in Ho, Hw. fold h in Ho, Hw.
    split; [| split; [exact Ho | exact Hw]].
    clear Ho Hw. unfold b'. clearbody w1. destruct w1 as [b1 rc cc].
    simpl in H1. subst b1.
    unfold executeMove. mstep. mstep. mstep. cbn [this]. rewrite Hi.
    unfold snappedKey in Hkey. fold h in Hkey |- *. rewrite Hkey, Hfree. reflexivity.
  - intros Hocc. split; [intros Hkey; apply Hnot; rewrite <- Hkey; exact Hocc |].
    assert (Hocc1 : occupied (occupiedCells (this w1))
                      (snappedKey (hexSize (this w1)) mv))
      by (rewrite H1; exact Hocc).
    unfold b'. rewrite (executeMove_refuses sqrt clock i mv car w1 Hi1 Hocc1).
    cbn [this exec modify snd occupiedCells cellOwners allLines cars set_cars].
    rewrite H1. repeat split.
Qed.

End Destination.

(** ** The choice of [calculateMove] *)

Section Choice.

Import CircuitBoard.

Variable sqrt : Q -> Q.
Variable random : nat -> unit_draw.

#[local] Abbreviation tryOn b car d :=
  (Car.tryDirection sqrt car d (occupiedCells b) (canvasWidth b) (canvasHeight b)
     (allLines b)).

Lemma firstValidMove_None b car prios :
  firstValidMove sqrt b car prios = None
  <-> forall d, d ∈ prios -> tryOn b car d = None.
Proof.
  induction prios as [| d prios IH]; cbn [firstValidMove].
  - split; [| reflexivity]. intros _ d Hd. inversion Hd.
  - destruct (tryOn b car d) as [m|] eqn:Htry.
    + change (JS.leb 0 (scoreMove m car)) with true. cbn iota. split; [discriminate |].
      intros H. specialize (H d (list_elem_of_here _ _)). congruence.
    + rewrite IH. split.
      * intros H d' Hd'. apply elem_of_cons in Hd'.
        destruct Hd' as [-> | Hd']; [exact Htry | apply H, Hd'].
      * intros H d' Hd'. apply H, list_elem_of_further, Hd'.
Qed.

Lemma firstValidMove_first b car prios mv :
  firstValidMove sqrt b car prios = Some mv ->
  exists before after m,
    prios = before ++ direction mv :: after
    /\ (forall d, d ∈ before -> tryOn b car d = None)
    /\ tryOn b car (direction mv) = Some m
    /\ x mv = Car.mx m /\ y mv = Car.my m.
Proof.
  induction prios as [| d prios IH]; cbn [firstValidMove]; [discriminate |].
  destruct (tryOn b car d) as [m|] eqn:Htry.
  - change (JS.leb 0 (scoreMove m car)) with true. cbn iota.
    intros [= <-]. cbn [direction x y].
    destruct (tryDirection_Some _ _ _ _ _ _ _ _ Htry) as (_ & _ & _ & _ & Hd & _).
    exists [], prios, m. rewrite Hd. repeat split; try assumption.
    intros d' Hd'. inversion Hd'.
  - intros H. destruct (IH H) as (before & after & m & -> & Hbefore & Hrest).
    exists (d :: before), after, m. split; [reflexivity |]. split; [| exact Hrest].
    intros d' Hd'. apply elem_of_cons in Hd'.
    destruct Hd' as [-> | Hd']; [exact Htry | apply Hbefore, Hd'].
Qed.

Lemma priorities_this car w : this (exec (priorities random car) w) = this w.
Proof.
  apply (priorities_keeps random (fun w' => this w' = this w)); [| reflexivity].
  intros w' H. exact H.
Qed.

Lemma priorities_Permutation car w :
  (0 <= Car.currentDirection car < 6)%Z ->
  Car.strategy car <> Wanderer ->
  eval (priorities random car) w ≡ₚ allDirections.
Proof.
  intros Hs Hstrat. unfold priorities.
  destruct (Car.strategy car) eqn:Hst; [| congruence | |].
  - apply priorities_fixed_Permutation; [exact Hs | congruence].
  - rewrite shuffle_Permutation.
    apply priorities_fixed_Permutation; [exact Hs | congruence].
  - apply priorities_fixed_Permutation; [exact Hs | congruence].
Qed.

(** X6. [calculateMove] returns the move of the first direction of its
    priority list that [tryDirection] accepts, and [null] exactly when
    [tryDirection] accepts none of the list.  For a wall follower, an
    explorer and a spiral, whose lists hold all six directions, [null]
    means that the car is boxed in: no direction at all is legal. *)
Theorem calculateMove_choice (car : Car.t) (w : World) :
  (0 <= Car.currentDirection car < 6)%Z ->
  let prios := eval (priorities random car) w in
  let result := eval (calculateMove sqrt random car) w in
  (result = None <-> forall d, d ∈ prios -> tryOn (this w) car d = None)
  /\ (forall mv, result = Some mv ->
        exists before after m,
          prios = before ++ direction mv :: after
          /\ (forall d, d ∈ before -> tryOn (this w) car d = None)
          /\ tryOn (this w) car (direction mv) = Some m
          /\ x mv = Car.mx m /\ y mv = Car.my m
          /\ oldDirection mv = Car.currentDirection car)
  /\ (Car.strategy car <> Wanderer ->
      (result = None <-> forall d, (0 <= d < 6)%Z -> tryOn (this w) car d = None)).
Proof.
  intros Hs prios result.
  assert (Hres : result = firstValidMove sqrt (this w) car prios).
  { unfold result, calculateMove. rewrite !eval_bind, eval_ret.
    rewrite (eval_get (exec (priorities random car) w)), priorities_this.
    reflexivity. }
  rewrite Hres. split; [apply firstValidMove_None |]. split.
  - intros mv Hmv.
    destruct (firstValidMove_first _ _ _ _ Hmv)
      as (before & after & m & Hsplit & Hbefore & Htry & Hx & Hy).
    exists before, after, m. repeat split; try assumption.
    destruct (firstValidMove_Some _ _ _ _ _ Hmv) as (_ & _ & _ & _ & _ & _ & _ & Hold).
    exact Hold.
  - intros Hstrat. rewrite firstValidMove_None.
    pose proof (priorities_Permutation car w Hs Hstrat) as Hperm. fold prios in Hperm.
    split.
    + intros H d Hd. apply H. rewrite Hperm. unfold allDirections.
      destruct (heading_cases d Hd) as [-> | [-> | [-> | [-> | [-> | ->]]]]];
        repeat first [apply list_elem_of_here | apply list_elem_of_further].
    + intros H d Hd. apply H. rewrite Hperm in Hd. unfold allDirections in Hd.
      repeat (apply elem_of_cons in Hd; destruct Hd as [-> | Hd]; [lia |]).
      inversion Hd.
Qed.

End Choice.

(** ** The destination counts of PHASE 2 *)

Section DestinationCounts.

Import CircuitBoard.

Lemma phase2_count_fold h entries key (acc : gmap string Z) :
  fold_left (phase2_count h) entries acc !! key
  = match length (claimants h entries key) with
    | O => acc !! key
    | S n => Some (JS.or0 (acc !! key) + Z.of_nat (S n))%Z
    end.
Proof.
  revert acc. induction entries as [| e entries IH]; intros acc; [reflexivity |].
  cbn [fold_left]. rewrite IH. unfold claimants. rewrite filter_cons.
  unfold phase2_count.
  destruct (move e) as [mv|] eqn:Hmv; cbn [fmap option_fmap option_map].
  - destruct (decide (Some (snappedKey h mv) = Some key)) as [Heq | Hne].
    + injection Heq as Heq. rewrite Heq, lookup_insert_eq. cbn [length JS.or0].
      destruct (length _); f_equal; lia.
    + rewrite lookup_insert_ne by congruence. reflexivity.
  - destruct (decide (None = Some key)); [discriminate | reflexivity].
Qed.

(** X7. PHASE 2 counts the claims on every cell: the entry of a key in
    [destinationCounts] is the number of intended moves whose destination
    snaps to that key, and a key nobody claims has no entry.  The phase
    changes neither the cars nor the moves of the list, and gives every
    entry with a move the key of its snapped destination. *)
Theorem phase2_counts_claims (h : Q) (entries : list Entry) (key : string) :
  let counts := snd (phase2 h entries) in
  let n := length (claimants h entries key) in
  counts !! key = (if decide (n = 0)%nat then None else Some (Z.of_nat n))
  /\ (counts !! key = Some 1%Z <-> n = 1%nat)
  /\ map carIndex (fst (phase2 h entries)) = map carIndex entries
  /\ map move (fst (phase2 h entries)) = map move entries
  /\ (forall e mv, e ∈ fst (phase2 h entries) -> move e = Some mv ->
        snappedDestKey e = Some (snappedKey h mv)).
Proof.
  intros counts n.
  assert (Hc : counts !! key
               = if decide (n = 0)%nat then None else Some (Z.of_nat n)).
  { unfold counts, phase2. cbn [snd]. rewrite phase2_count_fold. fold n.
    rewrite lookup_empty. destruct n; [reflexivity |].
    cbn [JS.or0]. destruct (decide _); [lia |]. f_equal. }
  split; [exact Hc |]. split; [| split; [| split]].
  - rewrite Hc. destruct (decide (n = 0)%nat); [split; [discriminate | lia] |].
    split; [intros [= H] | intros ->; reflexivity]. lia.
  - unfold phase2. cbn [fst]. rewrite map_map. apply map_ext.
    intros e. unfold phase2_entry. destruct (move e); reflexivity.
  - unfold phase2. cbn [fst]. rewrite map_map. apply map_ext.
    intros e. unfold phase2_entry. destruct (move e) eqn:Hm; [reflexivity | exact Hm].
  - intros e mv He Hmv. unfold phase2 in He. cbn [fst] in He.
    rewrite map_fmap in He. apply list_elem_of_fmap in He.
    destruct He as (e0 & -> & _). unfold phase2_entry in *.
    destruct (move e0) as [m|] eqn:Hm; cbn in *; [congruence |].
    rewrite Hm in Hmv. discriminate.
Qed.

End DestinationCounts.

(** ** Pruning *)

Section Pruning.

Import CircuitBoard.

#[local] Open Scope Q_scope.

Lemma fadedOwner_Some b t alive key id :
  fadedOwner b t alive key = Some id
  <-> cellOwners b !! key = Some id /\ fullyFaded b t alive id.
Proof.
  unfold fadedOwner, fullyFaded.
  destruct (cellOwners b !! key) as [o|]; [| split; [discriminate | intros [? _]; discriminate]].
  destruct (decide (o ∈ alive)) as [Hin | Hnin].
  - split; [discriminate |]. intros ([= ->] & Hn & _). contradiction.
  - destruct (deadCarIds b !! o) as [deathTime|] eqn:Hd.
    + destruct (JS.ltb _ _) eqn:Hlt.
      * apply ltb_lt in Hlt. split.
        -- intros [= <-]. split; [reflexivity |]. split; [exact Hnin |]. eauto.
        -- intros ([= ->] & _). reflexivity.
      * apply ltb_ge in Hlt. split; [discriminate |].
        intros ([= ->] & _ & dt & Hdt & Hlt'). rewrite Hd in Hdt.
        injection Hdt as <-. lra.
    + split; [discriminate |].
      intros ([= ->] & _ & dt & Hdt & _). congruence.
Qed.

Lemma fadedOwner_is_Some b t alive key :
  is_Some (cellTimestamps b !! key) /\ is_Some (fadedOwner b t alive key)
  <-> fadedCell b t alive key.
Proof.
  unfold fadedCell. split.
  - intros (Hts & id & Hid). apply fadedOwner_Some in Hid. eauto.
  - intros (Hts & id & Hid). split; [exact Hts |]. exists id.
    apply fadedOwner_Some. exact Hid.
Qed.

(** X8. A pruning pass (fading mode, every tenth call) takes out of the
    three cell tables exactly the cells whose owner is dead and has faded
    out completely: the cells of live cars and of cars that are still
    visible stay as they are.  It takes out of [deadCarIds] exactly the
    owners of the cells it removed, and it keeps every segment of a car
    with an id other than 0 that is not among those owners. *)
Theorem pruning_pass (w : World) (currentTime : Z) (aliveCarIds : gset Z) :
  infiniteLifetime (this w) = false ->
  Z.rem (cleanupFrameCounter (this w) + 1) 10 = 0%Z ->
  let b := this w in
  let b' := this (exec (clearFadedCells currentTime aliveCarIds) w) in
  (forall key, fadedCell b currentTime aliveCarIds key ->
     occupiedCells b' !! key = None
     /\ cellTimestamps b' !! key = None
     /\ cellOwners b' !! key = None)
  /\ (forall key, ~ fadedCell b currentTime aliveCarIds key ->
       occupiedCells b' !! key = occupiedCells b !! key
       /\ cellTimestamps b' !! key = cellTimestamps b !! key
       /\ cellOwners b' !! key = cellOwners b !! key)
  /\ (forall id, prunedOwner b currentTime aliveCarIds id ->
       deadCarIds b' !! id = None)
  /\ (forall id, ~ prunedOwner b currentTime aliveCarIds id ->
       deadCarIds b' !! id = deadCarIds b !! id)
  /\ (forall l, l ∈ allLines b ->
       carId l <> 0%Z -> ~ prunedOwner b currentTime aliveCarIds (carId l) ->
       l ∈ allLines b')
  /\ (forall l, l ∈ allLines b' ->
       l ∈ allLines b /\ ~ prunedOwner b currentTime aliveCarIds (carId l))
  /\ cars b' = cars b.
Proof.
  intros Hinf Hten b b'.
  set (keys := filter (fun key => is_Some (fadedOwner b currentTime aliveCarIds key))
                 (keysOf (cellTimestamps b))).
  set (dead := list_to_set (omap (fadedOwner b currentTime aliveCarIds) keys) : gset Z).
  assert (Hkeys : forall key, key ∈ keys <-> fadedCell b currentTime aliveCarIds key).
  { intros key. unfold keys.
    rewrite list_elem_of_filter, elem_of_keysOf, <- fadedOwner_is_Some. tauto. }
  assert (Hdead : forall id, id ∈ dead <-> prunedOwner b currentTime aliveCarIds id).
  { intros id. unfold dead. rewrite elem_of_list_to_set, list_elem_of_omap.
    unfold prunedOwner. split.
    - intros (key & Hk & Hid). apply Hkeys in Hk. destruct Hk as (Hts & _).
      apply fadedOwner_Some in Hid. exists key. tauto.
    - intros (key & Hts & Hown & Hf). exists key. split.
      + apply Hkeys. split; [exact Hts |]. eauto.
      + apply fadedOwner_Some. tauto. }
  assert (Hrun : b' = this (exec
            (modify (fun b => set_occupiedCells (deleteKeys keys (occupiedCells b)) b) ;;
             modify (fun b => set_cellTimestamps (deleteKeys keys (cellTimestamps b)) b) ;;
             modify (fun b => set_cellOwners (deleteKeys keys (cellOwners b)) b) ;;
             if (0 <? Z.of_nat (length keys))%Z then
               modify (fun b =>
                 set_allLines
                   (filter (fun line => carId line ≠ 0%Z ∧ carId line ∉ dead)
                      (allLines b)) b) ;;
               modify (fun b =>
                 set_deadCarIds (foldr delete (deadCarIds b) (elements dead)) b)
             else ret tt)
            (exec (modify (set_cleanupFrameCounter (cleanupFrameCounter b + 1)%Z)) w))).
  { unfold b', clearFadedCells. rewrite exec_bind, (exec_get w), (eval_get w).
    rewrite Hinf. rewrite exec_bind. rewrite Hten. reflexivity. }
  assert (Hempty : (0 <? Z.of_nat (length keys))%Z = false ->
                   forall id, ~ prunedOwner b currentTime aliveCarIds id).
  { intros Hlen id Hid. apply Z.ltb_ge in Hlen.
    destruct Hid as (key & Hts & Hown & Hf).
    assert (Hin : key ∈ keys) by (apply Hkeys; split; eauto).
    assert (Hnil : keys = []) by (apply length_zero_iff_nil; lia).
    rewrite Hnil in Hin. inversion Hin. }
  rewrite Hrun. clear Hrun. rewrite !exec_bind.
  destruct (0 <? Z.of_nat (length keys))%Z eqn:Hlen.
  - cbn [this exec modify snd fst occupiedCells cellTimestamps cellOwners deadCarIds
         allLines cars set_occupiedCells set_cellTimestamps set_cellOwners
         set_allLines set_deadCarIds set_cleanupFrameCounter bind].
    split; [| split; [| split; [| split; [| split; [| split]]]]].
    + intros key Hk. rewrite !deleteKeys_lookup.
      rewrite !decide_True by (apply Hkeys, Hk). tauto.
    + intros key Hk. rewrite !deleteKeys_lookup.
      rewrite !decide_False by (rewrite Hkeys; exact Hk). tauto.
    + intros id Hid. apply lookup_foldr_delete.
      apply elem_of_elements, Hdead, Hid.
    + intros id Hid. apply lookup_foldr_delete_not_elem_of.
      rewrite elem_of_elements, Hdead. exact Hid.
    + intros l Hl H0 Hp. apply list_elem_of_filter. split; [| exact Hl].
      split; [exact H0 |]. rewrite Hdead. exact Hp.
    + intros l Hl. apply list_elem_of_filter in Hl. destruct Hl as ((_ & Hd) & Hl).
      split; [exact Hl |]. rewrite <- Hdead. exact Hd.
    + reflexivity.
  - specialize (Hempty eq_refl).
    cbn [this exec modify snd fst occupiedCells cellTimestamps cellOwners deadCarIds
         allLines cars set_occupiedCells set_cellTimestamps set_cellOwners
         set_allLines set_deadCarIds set_cleanupFrameCounter bind ret].
    split; [| split; [| split; [| split; [| split; [| split]]]]].
    + intros key Hk. rewrite !deleteKeys_lookup.
      rewrite !decide_True by (apply Hkeys, Hk). tauto.
    + intros key Hk. rewrite !deleteKeys_lookup.
      rewrite !decide_False by (rewrite Hkeys; exact Hk). tauto.
    + intros id Hid. destruct (Hempty id Hid).
    + reflexivity.
    + intros l Hl _ _. exact Hl.
    + intros l Hl. split; [exact Hl | apply Hempty].
    + reflexivity.
Qed.

(** X9. Pruning is throttled and switched off in infinite-lifetime mode:
    with [infiniteLifetime] the call changes nothing at all, and in fading
    mode nine calls out of ten change nothing but the frame counter, which
    every call in fading mode advances by one. *)
Theorem pruning_throttled (w : World) (currentTime : Z) (aliveCarIds : gset Z) :
  let w' := exec (clearFadedCells currentTime aliveCarIds) w in
  (infiniteLifetime (this w) = true -> w' = w)
  /\ (infiniteLifetime (this w) = false ->
      cleanupFrameCounter (this w') = (cleanupFrameCounter (this w) + 1)%Z
      /\ (Z.rem (cleanupFrameCounter (this w) + 1) 10 <> 0%Z ->
          this w'
          = set_cleanupFrameCounter (cleanupFrameCounter (this w) + 1)%Z (this w))).
Proof.
  intros w'. subst w'. unfold clearFadedCells.
  rewrite exec_bind, (exec_get w), (eval_get w). split.
  - intros ->. destruct w. reflexivity.
  - intros ->. rewrite exec_bind. split.
    + destruct (negb _); [reflexivity |].
      rewrite !exec_bind. destruct (0 <? _)%Z; reflexivity.
    + intros Hrem. apply Z.eqb_neq in Hrem. rewrite Hrem. reflexivity.
Qed.

End Pruning.

(** ** The configuration and the population *)

Section Population.

Import CircuitBoard.

Variable sqrt : Q -> Q.
Variable random : nat -> unit_draw.
Variable clock : nat -> Z.

#[local] Open Scope Q_scope.

Lemma frames_config b n w :
  sameConfig b (this w) -> sameConfig b (this (frames sqrt random clock n w)).
Proof.
  revert w. induction n as [| n IH]; intros w H; [exact H |].
  simpl. apply IH, draw_config, H.
Qed.

Lemma orDefault_nonzero o d : ~ d == 0 -> ~ orDefault o d == 0.
Proof.
  intros Hd. unfold orDefault. destruct o as [v|]; [| exact Hd].
  destruct (JS.eqb v 0) eqn:Hv; [exact Hd |]. apply eqb_neq. exact Hv.
Qed.

Lemma configuration_holds (options : Options) (innerWidth innerHeight : Z)
    (w0 : World) (n : nat) :
  new sqrt random clock options innerWidth innerHeight = Returned w0 ->
  sameConfig (fields options innerWidth innerHeight)
    (this (frames sqrt random clock n w0)).
Proof.
  intros Hnew. injection Hnew as <-.
  apply frames_config, init_config, sameConfig_refl.
Qed.

(** X10. The configuration is fixed at construction: after the
    constructor and after any number of frames the board has the hex size,
    the car ceiling, the mutation rate, the mode, the trace and fade times,
    the line width, the two delays and the canvas size the constructor has
    set, and neither the hex size nor [maxCars] is 0. *)
Theorem configuration_is_constant (options : Options) (innerWidth innerHeight : Z)
    (w0 : World) (n : nat) :
  new sqrt random clock options innerWidth innerHeight = Returned w0 ->
  let b := this (frames sqrt random clock n w0) in
  sameConfig (fields options innerWidth innerHeight) b
  /\ ~ hexSize b == 0
  /\ ~ maxCars b == 0.
Proof.
  intros Hnew b.
  pose proof (configuration_holds options innerWidth innerHeight w0 n Hnew) as Hc.
  fold b in Hc. split; [exact Hc |].
  destruct Hc as (Hh & Hm & _). rewrite Hh, Hm. simpl.
  split; apply orDefault_nonzero; discriminate.
Qed.

Lemma spawnCar_adds w :
  let w' := exec (spawnCar random clock) w in
  maxCars (this w') = maxCars (this w)
  /\ ((eval (spawnCar random clock) w = true
       /\ length (cars (this w')) = S (length (cars (this w))))
      \/ (eval (spawnCar random clock) w = false /\ this w' = this w)).
Proof.
  intros w'. subst w'.
  destruct (spawnCar_cases random clock w)
    as [(k & _ & Hev & Hex) | [(_ & p & _ & Hev & Hex) | (_ & _ & Hev & Hex)]];
    rewrite Hex.
  - split; [reflexivity |]. left. split; [exact Hev |].
    simpl. rewrite length_app. simpl. lia.
  - split; [reflexivity |]. left. split; [exact Hev |].
    simpl. rewrite length_app. simpl. lia.
  - split; [reflexivity |]. right. split; [exact Hev | reflexivity].
Qed.

Lemma ceiling_room (b : t) :
  JS.ltb (inject_Z (Z.of_nat (length (cars b)))) (maxCars b) = true ->
  (Z.of_nat (S (length (cars b))) <= carCeiling b)%Z.
Proof.
  intros Hlt. apply ltb_lt in Hlt. unfold carCeiling, JS.Math_ceil.
  assert (H : (Z.of_nat (length (cars b)) < Qceiling (maxCars b))%Z).
  { rewrite Zlt_Qlt. eapply Qlt_le_trans; [exact Hlt | apply Qle_ceiling]. }
  lia.
Qed.

Lemma spawnPhase_population currentTime w :
  withinCeiling (this w) ->
  let w' := exec (spawnPhase random clock currentTime) w in
  maxCars (this w') = maxCars (this w) /\ withinCeiling (this w').
Proof.
  intros Hok w'. subst w'.
  destruct (spawnDue (this w) currentTime) eqn:Hdue.
  - assert (Hroom : (Z.of_nat (S (length (cars (this w)))) <= carCeiling (this w))%Z).
    { apply ceiling_room. unfold spawnDue in Hdue.
      apply andb_true_iff in Hdue. tauto. }
    destruct (spawnCar_adds w) as (Hm & [(Hev & Hlen) | (Hev & Hthis)]).
    + rewrite spawnPhase_plain by (try assumption; right; left; exact Hev).
      split; [exact Hm |].
      unfold withinCeiling, carCeiling in *. simpl. rewrite Hm, Hlen. exact Hroom.
    + destruct (infiniteLifetime (this w)) eqn:Hmode;
        [destruct (decide (size (deadCarIds (this w)) = 0%nat)) as [Hsize | Hsize] |].
      * rewrite spawnPhase_plain by (try assumption; right; right; exact Hsize).
        simpl. rewrite Hthis. split; [reflexivity | exact Hok].
      * destruct (spawnPhase_evicts random clock currentTime w Hdue Hmode Hev)
          as (oldest & t & _ & _ & Hex); [lia |].
        rewrite Hex.
        set (w1 := exec (removeCarTraces oldest) (exec (spawnCar random clock) w)).
        assert (H1 : maxCars (this w1) = maxCars (this w)
                     /\ cars (this w1) = cars (this w)).
        { unfold w1. simpl. rewrite Hthis. split; reflexivity. }
        destruct H1 as (Hm1 & Hc1).
        destruct (spawnCar_adds w1) as (Hm2 & [(_ & Hlen2) | (_ & Hthis2)]).
        -- split; [simpl; congruence |].
           unfold withinCeiling, carCeiling in *. simpl.
           rewrite Hm2, Hm1, Hlen2, Hc1. exact Hroom.
        -- split; [simpl; congruence |].
           unfold withinCeiling, carCeiling in *. simpl.
           rewrite Hthis2, Hm1, Hc1. exact Hok.
      * rewrite spawnPhase_plain by (try assumption; left; exact Hmode).
        simpl. rewrite Hthis. split; [reflexivity | exact Hok].
  - unfold spawnPhase. mstep. mstep. mstep. rewrite Hdue.
    split; [reflexivity | exact Hok].
Qed.

Lemma withinCeiling_le b b' :
  maxCars b' = maxCars b ->
  (length (cars b') <= length (cars b))%nat ->
  withinCeiling b -> withinCeiling b'.
Proof.
  unfold withinCeiling, carCeiling. intros -> Hlen H. lia.
Qed.

Lemma same_ids_same_length (l l' : list Car.t) :
  map Car.id l' = map Car.id l -> length l' = length l.
Proof.
  intros H. rewrite <- (length_map Car.id l'), H. apply length_map.
Qed.

Lemma draw_population w :
  withinCeiling (this w) ->
  maxCars (this (exec (draw sqrt random clock) w)) = maxCars (this w)
  /\ withinCeiling (this (exec (draw sqrt random clock) w)).
Proof.
  intros Hok.
  assert (Hm : maxCars (this (exec (draw sqrt random clock) w)) = maxCars (this w)).
  { destruct (draw_config sqrt random clock (this w) w (sameConfig_refl _))
      as (_ & Hm & _). exact Hm. }
  split; [exact Hm |].
  pose proof (draw_unfold sqrt random clock w) as Hd. cbv zeta in Hd.
  set (now := clock (clockCalls w)) in *.
  set (wa := exec (clearFadedCells now (list_to_set (map Car.id (cars (this w)))))
               (exec (Date_now clock) w)) in *.
  set (wb := exec (movePhases sqrt random clock now) wa) in *.
  assert (Ha : maxCars (this wa) = maxCars (this w) /\ cars (this wa) = cars (this w)).
  { unfold wa. split.
    - destruct (clearFadedCells_config now (list_to_set (map Car.id (cars (this w))))
                  (exec (Date_now clock) w)) as (_ & H & _). exact H.
    - destruct (clearFadedCells_cars now (list_to_set (map Car.id (cars (this w))))
                  (exec (Date_now clock) w)) as (H & _). exact H. }
  destruct Ha as (Hma & Hca).
  assert (Hoka : withinCeiling (this wa)).
  { eapply withinCeiling_le; [exact Hma | rewrite Hca; lia | exact Hok]. }
  destruct Hd as [(_ & _ & Hex) | (_ & _ & Hex)]; rewrite Hex; [| exact Hoka].
  assert (Hb : maxCars (this wb) = maxCars (this wa)
               /\ length (cars (this wb)) = length (cars (this wa))).
  { unfold wb. split.
    - apply (movePhases_keeps sqrt random clock
               (fun w' => maxCars (this w') = maxCars (this wa))); try reflexivity.
      + intros w' H. exact H.
      + intros w' i mv H. rewrite <- H.
        destruct (executeMove_config sqrt clock i mv w') as (_ & Hm' & _). exact Hm'.
      + intros w' i H. rewrite <- H.
        destruct (dieOnTheSpot_config clock i w') as (_ & Hm' & _). exact Hm'.
      + intros w' v H. exact H.
    - apply same_ids_same_length.
      apply (movePhases_frame sqrt random clock now wa). }
  destruct Hb as (Hmb & Hcb).
  assert (Hokb : withinCeiling (this wb)).
  { eapply withinCeiling_le; [exact Hmb | rewrite Hcb; lia | exact Hoka]. }
  set (wc := exec (phase4 clock (length (cars (this wb))) []) wb).
  assert (Hc : maxCars (this wc) = maxCars (this wb) /\ withinCeiling (this wc)).
  { unfold wc.
    apply (phase4_keeps clock
             (fun w' => maxCars (this w') = maxCars (this wb)
                        /\ withinCeiling (this w'))); [| split; [reflexivity | exact Hokb]].
    intros w' i car (Hm' & Hok') Hi _. split; [exact Hm' |].
    eapply withinCeiling_le; [| | exact Hok']; [reflexivity |].
    simpl. rewrite length_delete; [lia |]. eauto. }
  destruct Hc as (_ & Hokc).
  apply spawnPhase_population. exact Hokc.
Qed.

Lemma frames_population n w :
  withinCeiling (this w) ->
  withinCeiling (this (frames sqrt random clock n w)).
Proof.
  revert w. induction n as [| n IH]; intros w H; [exact H |].
  simpl. apply IH, draw_population, H.
Qed.

Lemma spawn_all_population (l : list Z) w :
  let w' := exec (forM_ l (fun _ => _ <- spawnCar random clock ;; ret tt)) w in
  maxCars (this w') = maxCars (this w)
  /\ (length (cars (this w')) <= length (cars (this w)) + length l)%nat.
Proof.
  revert w. induction l as [| a l IH]; intros w.
  { cbn [forM_]. rewrite exec_ret. split; [reflexivity | lia]. }
  cbn [forM_]. rewrite exec_bind, exec_bind, exec_ret.
  destruct (IH (exec (spawnCar random clock) w)) as (Hm & Hlen).
  destruct (spawnCar_adds w) as (Hm1 & [(_ & Hlen1) | (_ & Hthis1)]).
  - split; [congruence |]. rewrite Hlen1 in Hlen. simpl. lia.
  - split; [congruence |]. rewrite Hthis1 in Hlen. simpl. lia.
Qed.

(** X11. The population ceiling: from the construction on, at every frame,
    the number of live cars is at most [maxCars] rounded up (and 0 when
    [maxCars] is negative), in both modes, with or without an initial
    spawn of all cars at once. *)
Theorem population_ceiling (options : Options) (innerWidth innerHeight : Z)
    (w0 : World) (n : nat) :
  new sqrt random clock options innerWidth innerHeight = Returned w0 ->
  let b := this (frames sqrt random clock n w0) in
  maxCars b = orDefault (opt_maxCars options) 2
  /\ (Z.of_nat (length (cars b)) <= Z.max 0 (JS.Math_ceil (maxCars b)))%Z.
Proof.
  intros Hnew b.
  destruct (configuration_holds options innerWidth innerHeight w0 n Hnew)
    as (_ & Hm & _).
  split; [exact Hm |].
  injection Hnew as <-. apply frames_population.
  unfold init. rewrite !exec_bind, exec_ret.
  set (w := {| this := fields options innerWidth innerHeight;
               randomCalls := 0; clockCalls := 0 |}).
  rewrite (exec_get w), (eval_get w).
  apply draw_population.
  destruct (JS.eqb (spawnDelay (this w)) 0).
  - destruct (spawn_all_population (seqZ 0 (JS.Math_ceil (maxCars (this w)))) w)
      as (Hm' & Hlen).
    unfold withinCeiling, carCeiling. rewrite Hm'.
    rewrite length_seqZ in Hlen. simpl in Hlen. simpl. lia.
  - unfold withinCeiling, carCeiling. simpl. lia.
Qed.

End Population.

(** ** The step gate *)

Section StepGate.

Import CircuitBoard.

Variable sqrt : Q -> Q.
Variable random : nat -> unit_draw.
Variable clock : nat -> Z.

#[local] Open Scope Q_scope.

Lemma clearFadedCells_times currentTime alive w :
  let w' := exec (clearFadedCells currentTime alive) w in
  lastStepTime (this w') = lastStepTime (this w)
  /\ lastSpawnTime (this w') = lastSpawnTime (this w)
  /\ randomCalls w' = randomCalls w.
Proof.
  unfold clearFadedCells. mstep. mstep. mstep.
  destruct (infiniteLifetime (this w)); [repeat split |].
  mstep. destruct (negb _); [repeat split |].
  mstep. mstep. mstep.
  destruct (0 <? _)%Z; repeat split.
Qed.

Lemma clearFadedCells_board currentTime alive w1 w2 :
  this w1 = this w2 ->
  this (exec (clearFadedCells currentTime alive) w1)
  = this (exec (clearFadedCells currentTime alive) w2).
Proof.
  destruct w1 as [b1 r1 c1], w2 as [b2 r2 c2]. simpl. intros ->.
  unfold clearFadedCells, exec, bind, get, modify, ret. simpl.
  destruct (infiniteLifetime b2); [reflexivity |].
  destruct (negb _); [reflexivity |]. simpl.
  destruct (0 <? _)%Z; reflexivity.
Qed.

(** X12. The step gate of [draw]: as long as less than [stepDelay]
    milliseconds lie between the last step and the time the frame reads
    first, all a frame does to the board is the pruning of
    [clearFadedCells]: no car moves, is retired or is spawned, no random
    number is drawn, and the fitness table, the id counter and both time
    marks stay as they are.  (The clock readings of the rendering are not
    part of the model, so nothing is said on how often the clock is
    read.) *)
Theorem frame_without_step (w : World) :
  inject_Z (clock (clockCalls w) - lastStepTime (this w)) < stepDelay (this w) ->
  let w' := exec (draw sqrt random clock) w in
  eval (draw sqrt random clock) w = []
  /\ this w' = this (exec (clearFadedCells (clock (clockCalls w))
                            (list_to_set (map Car.id (cars (this w))))) w)
  /\ cars (this w') = cars (this w)
  /\ strategyFitness (this w') = strategyFitness (this w)
  /\ nextCarId (this w') = nextCarId (this w)
  /\ lastStepTime (this w') = lastStepTime (this w)
  /\ lastSpawnTime (this w') = lastSpawnTime (this w)
  /\ randomCalls w' = randomCalls w.
Proof.
  intros Hearly w'. subst w'.
  set (now := clock (clockCalls w)) in *.
  set (alive := list_to_set (map Car.id (cars (this w))) : gset Z).
  set (wa := exec (clearFadedCells now alive) (exec (Date_now clock) w)).
  destruct (clearFadedCells_cars now alive (exec (Date_now clock) w))
    as (Hc & Hf & Hn & Hcc).
  destruct (clearFadedCells_times now alive (exec (Date_now clock) w))
    as (Hst & Hsp & Hrc).
  destruct (clearFadedCells_config now alive (exec (Date_now clock) w))
    as (_ & _ & _ & _ & _ & _ & _ & Hsd & _).
  fold wa in Hc, Hf, Hn, Hcc, Hst, Hsp, Hrc, Hsd.
  destruct (draw_unfold sqrt random clock w) as [(Hdue & _) | (_ & Hev & Hex)].
  - fold now alive wa in Hdue. apply leb_le in Hdue.
    rewrite Hsd, Hst in Hdue. simpl in Hdue. lra.
  - fold now alive wa in Hex. rewrite Hex.
    split; [exact Hev |]. split.
    + unfold wa. apply clearFadedCells_board. reflexivity.
    + repeat split; assumption.
Qed.

End StepGate.

(** ** The traces *)

Section Traces.

Import CircuitBoard.

Variable sqrt : Q -> Q.
Variable random : nat -> unit_draw.
Variable clock : nat -> Z.

(** *** Facts on the parts of the invariant *)

Lemma known_same b b' id :
  map Car.id (cars b') = map Car.id (cars b) ->
  deadCarIds b' = deadCarIds b ->
  known b id -> known b' id.
Proof. unfold known. intros -> ->. tauto. Qed.

Lemma ownLines_app id l1 l2 :
  ownLines id (l1 ++ l2) = ownLines id l1 ++ ownLines id l2.
Proof. apply filter_app. Qed.

Lemma indicesCountUp_snoc lines seg :
  indicesCountUp lines ->
  segmentIndex seg = segmentCount lines (carId seg) ->
  indicesCountUp (lines ++ [seg]).
Proof.
  intros Hidx Hseg id. rewrite ownLines_app.
  unfold ownLines at 2 4. rewrite filter_cons, filter_nil.
  destruct (decide (carId seg = id)) as [Heq | Hne].
  - rewrite map_app, length_app. cbn [map length].
    rewrite Nat.add_1_r, seqZ_S, Hidx. f_equal.
    rewrite Hseg, Heq. reflexivity.
  - rewrite !app_nil_r. apply Hidx.
Qed.

(** Taking out all segments of some cars. *)
Lemma ownLines_filter (R : Z -> Prop) `{!forall id, Decision (R id)} id lines :
  ownLines id (filter (fun l => R (carId l)) lines)
  = if decide (R id) then ownLines id lines else [].
Proof.
  unfold ownLines. induction lines as [| l lines IH].
  - destruct (decide (R id)); reflexivity.
  - rewrite (filter_cons (fun l => R (carId l))).
    destruct (decide (R (carId l))) as [Hr | Hr].
    + rewrite !filter_cons, IH.
      destruct (decide (carId l = id)) as [Heq | Hne];
        destruct (decide (R id)) as [Hid | Hid]; try reflexivity.
      subst id. contradiction.
    + rewrite IH, filter_cons.
      destruct (decide (carId l = id)) as [Heq | Hne];
        destruct (decide (R id)) as [Hid | Hid]; try reflexivity.
      subst id. contradiction.
Qed.

Lemma indicesCountUp_filter (R : Z -> Prop) `{!forall id, Decision (R id)} lines :
  indicesCountUp lines ->
  indicesCountUp (filter (fun l => R (carId l)) lines).
Proof.
  intros Hidx id. rewrite ownLines_filter.
  destruct (decide (R id)); [apply Hidx | reflexivity].
Qed.

Lemma increasing_snoc ids a :
  increasing ids -> (forall c, c ∈ ids -> (c < a)%Z) -> increasing (ids ++ [a]).
Proof.
  intros Hinc Hlt i j x y Hij Hi Hj.
  assert (Hjlen : (j < length (ids ++ [a]))%nat) by (eapply lookup_lt_Some; eauto).
  rewrite length_app in Hjlen. simpl in Hjlen.
  assert (Hilen : (i < length ids)%nat) by lia.
  rewrite lookup_app_l in Hi by exact Hilen.
  destruct (decide (j < length ids)%nat) as [Hj' | Hj'].
  - rewrite lookup_app_l in Hj by exact Hj'. exact (Hinc i j x y Hij Hi Hj).
  - rewrite lookup_app_r in Hj by lia.
    replace (j - length ids)%nat with 0%nat in Hj by lia.
    injection Hj as <-. apply Hlt. eapply list_elem_of_lookup_2; eauto.
Qed.

Lemma increasing_delete ids k : increasing ids -> increasing (delete k ids).
Proof.
  intros Hinc i j x y Hij Hi Hj.
  destruct (decide (i < k)%nat) as [Hik | Hik];
    destruct (decide (j < k)%nat) as [Hjk | Hjk].
  - rewrite list_lookup_delete_lt in Hi, Hj by assumption.
    exact (Hinc i j x y Hij Hi Hj).
  - rewrite list_lookup_delete_lt in Hi by assumption.
    rewrite list_lookup_delete_ge in Hj by lia.
    apply (Hinc i (S j) x y); [lia | exact Hi | exact Hj].
  - lia.
  - rewrite list_lookup_delete_ge in Hi, Hj by lia.
    apply (Hinc (S i) (S j) x y); [lia | exact Hi | exact Hj].
Qed.

Lemma ids_insert (l : list Car.t) i car car' :
  l !! i = Some car -> Car.id car' = Car.id car ->
  map Car.id (<[i := car']> l) = map Car.id l.
Proof.
  intros Hi Hid. rewrite !map_fmap, list_fmap_insert, Hid.
  apply list_insert_id. rewrite list_lookup_fmap, Hi. reflexivity.
Qed.

(** *** The elementary actions *)

(** A car is replaced by one with the same id, and at most one segment of
    that car is recorded, with the right index and on lattice points. *)
Lemma tracesOk_update b b' i car car' extra :
  tracesOk b ->
  cars b !! i = Some car ->
  Car.id car' = Car.id car ->
  cars b' = <[i := car']> (cars b) ->
  deadCarIds b' = deadCarIds b ->
  hexSize b' = hexSize b ->
  allLines b' = allLines b ++ extra ->
  (extra = []
   \/ exists seg, extra = [seg]
        /\ carId seg = Car.id car
        /\ segmentIndex seg = segmentCount (allLines b) (Car.id car)
        /\ (exists row col, (x1 seg, y1 seg) = gridPoint (hexSize b) row col)
        /\ (exists row col, (x2 seg, y2 seg) = gridPoint (hexSize b) row col)) ->
  (cellOwners b' = cellOwners b
   \/ exists key, cellOwners b' = <[key := Car.id car]> (cellOwners b)) ->
  tracesOk b'.
Proof.
  intros [Hl Hc Hidx Hord Hends] Hi Hid Hcars Hdead Hh Hlines Hextra Hown'.
  assert (Hown : forall key owner, cellOwners b' !! key = Some owner ->
            owner = Car.id car \/ cellOwners b !! key = Some owner).
  { intros key owner Hk. destruct Hown' as [Heq | (key' & Heq)]; rewrite Heq in Hk.
    - right. exact Hk.
    - destruct (decide (key' = key)) as [-> | Hne].
      + rewrite lookup_insert_eq in Hk. left. congruence.
      + rewrite lookup_insert_ne in Hk by exact Hne. right. exact Hk. }
  assert (Hids : map Car.id (cars b') = map Car.id (cars b))
    by (rewrite Hcars; eapply ids_insert; eauto).
  assert (Hknown : forall id, known b id -> known b' id)
    by (intros id; apply known_same; assumption).
  assert (Hcar : known b' (Car.id car)).
  { left. rewrite Hids, map_fmap. apply list_elem_of_fmap_2'  with car; [| reflexivity].
    eapply list_elem_of_lookup_2; eauto. }
  constructor.
  - rewrite Hlines. intros l Hin. apply elem_of_app in Hin.
    destruct Hin as [Hin | Hin]; [apply Hknown, Hl, Hin |].
    destruct Hextra as [-> | (seg & -> & Hseg & _)]; [inversion Hin |].
    apply list_elem_of_singleton in Hin. subst l. rewrite Hseg. exact Hcar.
  - intros key owner Hk. destruct (Hown key owner Hk) as [-> | Hk'];
      [exact Hcar | eapply Hknown, Hc, Hk'].
  - rewrite Hlines. destruct Hextra as [-> | (seg & -> & Hseg & Hindex & _)].
    + rewrite app_nil_r. exact Hidx.
    + apply indicesCountUp_snoc; [exact Hidx |]. rewrite Hseg. exact Hindex.
  - rewrite Hids. exact Hord.
  - rewrite Hlines, Hh. intros l Hin. apply elem_of_app in Hin.
    destruct Hin as [Hin | Hin]; [apply Hends, Hin |].
    destruct Hextra as [-> | (seg & -> & _ & _ & H1 & H2)]; [inversion Hin |].
    apply list_elem_of_singleton in Hin. subst l. split; assumption.
Qed.

Lemma placeCar_traces gx gy key s w :
  noDoubleOccupancy (this w) -> tracesOk (this w) ->
  tracesOk (this (exec (placeCar random clock gx gy key s) w)).
Proof.
  intros Hndo [Hl Hc Hidx Hord Hends].
  set (b' := this (exec (placeCar random clock gx gy key s) w)).
  assert (Hcars : exists car, cars b' = cars (this w) ++ [car]
                              /\ Car.id car = nextCarId (this w))
    by (eexists; split; reflexivity).
  assert (Hown : cellOwners b' = <[key := nextCarId (this w)]> (cellOwners (this w)))
    by reflexivity.
  assert (Hlines : allLines b' = allLines (this w)) by reflexivity.
  assert (Hdead : deadCarIds b' = deadCarIds (this w)) by reflexivity.
  assert (Hh : hexSize b' = hexSize (this w)) by reflexivity.
  clearbody b'. destruct Hcars as (car & Hcars & Hid).
  assert (Hknown : forall id, known (this w) id -> known b' id).
  { intros id [Hin | Hin]; [left | right; rewrite Hdead; exact Hin].
    rewrite Hcars, map_app. apply elem_of_app. left. exact Hin. }
  constructor.
  - rewrite Hlines. intros l Hin. apply Hknown, Hl, Hin.
  - rewrite Hown. intros k owner Hk.
    destruct (decide (key = k)) as [-> | Hne].
    + rewrite lookup_insert_eq in Hk. injection Hk as <-.
      left. rewrite Hcars, map_app. apply elem_of_app. right. simpl.
      rewrite Hid. apply list_elem_of_here.
    + rewrite lookup_insert_ne in Hk by exact Hne.
      apply (Hknown owner). eapply Hc, Hk.
  - rewrite Hlines. exact Hidx.
  - rewrite Hcars, map_app. apply increasing_snoc; [exact Hord |].
    intros c Hin. simpl. rewrite Hid. rewrite map_fmap in Hin.
    apply list_elem_of_fmap in Hin.
    destruct Hin as (c' & -> & Hc'). apply (ndo_fresh _ Hndo), Hc'.
  - rewrite Hlines, Hh. exact Hends.
Qed.

Lemma executeMove_traces i mv w :
  wellFormedCars w -> tracesOk (this w) ->
  tracesOk (this (exec (executeMove sqrt clock i mv) w)).
Proof.
  intros Hwf Htr. unfold executeMove. mstep. mstep. mstep.
  destruct (cars (this w) !! i) as [car|] eqn:Hi; [| exact Htr].
  assert (Hcar : car ∈ cars (this w)) by (eapply list_elem_of_lookup_2; eauto).
  destruct (Hwf car Hcar) as ((_ & row & col & Hpos) & _).
  destruct (JS.truthy _).
  - eapply (tracesOk_update (this w) _ i car (Car.set_stuck true car) []);
      try eassumption; try reflexivity.
    + simpl. rewrite app_nil_r. reflexivity.
    + left. reflexivity.
    + left. reflexivity.
  - set (snapped := snapToGrid (hexSize (this w)) (x mv) (y mv)).
    eapply (tracesOk_update (this w) _ i car
              (movedCar sqrt car (fst snapped) (snd snapped) mv));
      try eassumption; try reflexivity.
    + right. eexists. split; [reflexivity |]. split; [reflexivity |].
      split; [reflexivity |]. split.
      * exists row, col. exact Hpos.
      * unfold snapped, snapToGrid, gridPoint. eexists _, _. reflexivity.
    + right. eexists. reflexivity.
Qed.

Lemma dieOnTheSpot_traces i w :
  wellFormedCars w -> tracesOk (this w) ->
  tracesOk (this (exec (dieOnTheSpot clock i) w)).
Proof.
  intros Hwf Htr. unfold dieOnTheSpot. mstep. mstep. mstep.
  destruct (cars (this w) !! i) as [car|] eqn:Hi; [| exact Htr].
  assert (Hcar : car ∈ cars (this w)) by (eapply list_elem_of_lookup_2; eauto).
  destruct (Hwf car Hcar) as ((_ & row & col & Hpos) & _).
  eapply (tracesOk_update (this w) _ i car (Car.set_stuck true car));
    try eassumption; try reflexivity.
  - right. eexists. split; [reflexivity |]. split; [reflexivity |].
    split; [reflexivity |]. split; exists row, col; exact Hpos.
  - left. reflexivity.
Qed.

Lemma retireCar_traces i car w :
  cars (this w) !! i = Some car ->
  tracesOk (this w) ->
  tracesOk (this (exec (retireCar clock i car) w)).
Proof.
  intros Hi [Hl Hc Hidx Hord Hends].
  set (b' := this (exec (retireCar clock i car) w)).
  assert (Hcars : cars b' = delete i (cars (this w))) by reflexivity.
  assert (Hdead : exists now, deadCarIds b' = <[Car.id car := now]> (deadCarIds (this w)))
    by (eexists; reflexivity).
  assert (Hown : cellOwners b' = cellOwners (this w)) by reflexivity.
  assert (Hlines : allLines b' = allLines (this w)) by reflexivity.
  assert (Hh : hexSize b' = hexSize (this w)) by reflexivity.
  clearbody b'. destruct Hdead as (now & Hdead).
  assert (Hknown : forall id, known (this w) id -> known b' id).
  { intros id [Hid | Hid].
    - rewrite map_fmap in Hid. apply list_elem_of_fmap in Hid.
      destruct Hid as (c & -> & Hc').
      apply list_elem_of_lookup in Hc'. destruct Hc' as (j & Hj).
      destruct (decide (j = i)) as [-> | Hne].
      + right. assert (c = car) as -> by congruence.
        rewrite Hdead, lookup_insert_eq. eauto.
      + left. rewrite Hcars, map_fmap. apply list_elem_of_fmap_2.
        apply list_elem_of_lookup.
        destruct (decide (j < i)%nat) as [Hlt | Hge].
        * exists j. rewrite list_lookup_delete_lt by exact Hlt. exact Hj.
        * exists (pred j). rewrite list_lookup_delete_ge by lia.
          replace (S (pred j)) with j by lia. exact Hj.
    - right. rewrite Hdead. destruct (decide (Car.id car = id)) as [-> | Hne].
      + rewrite lookup_insert_eq. eauto.
      + rewrite lookup_insert_ne by exact Hne. exact Hid. }
  constructor.
  - rewrite Hlines. intros l Hin. apply Hknown, Hl, Hin.
  - rewrite Hown. intros key owner Hk. eapply Hknown, Hc, Hk.
  - rewrite Hlines. exact Hidx.
  - rewrite Hcars, map_fmap, list_fmap_delete, <- map_fmap.
    apply increasing_delete, Hord.
  - rewrite Hlines, Hh. exact Hends.
Qed.

Lemma removeCarTraces_traces id w :
  tracesOk (this w) -> tracesOk (this (exec (removeCarTraces id) w)).
Proof.
  intros [Hl Hc Hidx Hord Hends].
  destruct (removeCarTraces_evicts id w)
    as (Hgone & Hkept & Hlines & Hnone & Hdead & Hcars & _).
  assert (Hknown : forall j, j <> id -> known (this w) j ->
            known (this (exec (removeCarTraces id) w)) j).
  { intros j Hne [Hj | Hj]; [left; rewrite Hcars; exact Hj | right].
    rewrite Hdead, lookup_delete_ne by congruence. exact Hj. }
  constructor.
  - intros l Hin. apply Hknown; [apply Hnone, Hin |].
    rewrite Hlines in Hin. apply list_elem_of_filter in Hin. apply Hl, Hin.
  - intros key owner Hk.
    destruct (decide (cellOwners (this w) !! key = Some id)) as [Hid | Hid].
    + destruct (Hgone key Hid) as (_ & _ & Hn). congruence.
    + destruct (Hkept key Hid) as (_ & _ & Heq). rewrite Heq in Hk.
      apply Hknown; [congruence | eapply Hc, Hk].
  - rewrite Hlines. exact (indicesCountUp_filter (fun j => j <> id) _ Hidx).
  - rewrite Hcars. exact Hord.
  - intros l Hin. rewrite Hlines in Hin. apply list_elem_of_filter in Hin.
    apply Hends, Hin.
Qed.

(** What a run of [clearFadedCells] takes away: the cells of a list of
    keys, the dead cars of a set, and the segments of those cars (and of
    car 0); a cell whose owner is in the set is in the list. *)
Lemma clearFadedCells_pruned currentTime alive w :
  let b := this w in
  let b' := this (exec (clearFadedCells currentTime alive) w) in
  exists (keys : list string) (dead : gset Z),
    cellOwners b' = deleteKeys keys (cellOwners b)
    /\ deadCarIds b' = foldr delete (deadCarIds b) (elements dead)
    /\ (allLines b' = allLines b
        \/ allLines b'
           = filter (fun l => (fun id => id <> 0%Z /\ id ∉ dead) (carId l)) (allLines b))
    /\ (forall l, l ∈ allLines b' -> carId l ∉ dead)
    /\ cars b' = cars b
    /\ hexSize b' = hexSize b
    /\ (forall key owner,
          is_Some (cellTimestamps b !! key) -> cellOwners b !! key = Some owner ->
          owner ∈ dead -> key ∈ keys).
Proof.
  intros b b'.
  assert (Hnop : cellOwners b' = cellOwners b -> deadCarIds b' = deadCarIds b ->
                 allLines b' = allLines b -> cars b' = cars b ->
                 hexSize b' = hexSize b ->
                 exists (keys : list string) (dead : gset Z),
                   cellOwners b' = deleteKeys keys (cellOwners b)
                   /\ deadCarIds b' = foldr delete (deadCarIds b) (elements dead)
                   /\ (allLines b' = allLines b
                       \/ allLines b'
                          = filter (fun l => (fun id => id <> 0%Z /\ id ∉ dead) (carId l))
                              (allLines b))
                   /\ (forall l, l ∈ allLines b' -> carId l ∉ dead)
                   /\ cars b' = cars b
                   /\ hexSize b' = hexSize b
                   /\ (forall key owner,
                         is_Some (cellTimestamps b !! key) ->
                         cellOwners b !! key = Some owner ->
                         owner ∈ dead -> key ∈ keys)).
  { intros H1 H2 H3 H4 H5. exists [], ∅. rewrite elements_empty.
    repeat split; try assumption.
    - left. exact H3.
    - intros l _. apply not_elem_of_empty.
    - intros key owner _ _ Hin. apply not_elem_of_empty in Hin. destruct Hin. }
  unfold b' in *. clear b'. unfold clearFadedCells in *.
  rewrite exec_bind, (exec_get w), (eval_get w) in *.
  destruct (infiniteLifetime (this w)); [apply Hnop; reflexivity |].
  rewrite exec_bind in *.
  destruct (negb _); [apply Hnop; reflexivity |].
  clear Hnop. rewrite !exec_bind. subst b.
  set (keys := filter (fun key => is_Some (fadedOwner (this w) currentTime alive key))
                 (keysOf (cellTimestamps (this w)))).
  set (dead := list_to_set (omap (fadedOwner (this w) currentTime alive) keys) : gset Z).
  set (b := this w).
  assert (Hkeys : forall key, key ∈ keys <-> fadedCell b currentTime alive key).
  { intros key. unfold keys.
    rewrite list_elem_of_filter, elem_of_keysOf, <- fadedOwner_is_Some. tauto. }
  assert (Hdead : forall id, id ∈ dead ->
            exists key, key ∈ keys /\ fullyFaded b currentTime alive id).
  { intros id. unfold dead. rewrite elem_of_list_to_set, list_elem_of_omap.
    intros (key & Hk & Hid). apply fadedOwner_Some in Hid. exists key. tauto. }
  assert (Hin : forall key owner,
            is_Some (cellTimestamps b !! key) -> cellOwners b !! key = Some owner ->
            owner ∈ dead -> key ∈ keys).
  { intros key owner Hts Hown Hd. apply Hdead in Hd. destruct Hd as (_ & _ & Hf).
    apply Hkeys. split; [exact Hts |]. eauto. }
  exists keys.
  destruct (0 <? Z.of_nat (length keys))%Z eqn:Hlen.
  - exists dead. split; [reflexivity |]. split; [reflexivity |].
    split; [right; reflexivity |]. split; [| split; [reflexivity |]; split; [reflexivity | exact Hin]].
    intros l Hl.
    change (l ∈ filter (fun line => carId line ≠ 0%Z ∧ carId line ∉ dead) (allLines b))
      in Hl.
    apply list_elem_of_filter in Hl. tauto.
  - exists ∅. rewrite elements_empty. split; [reflexivity |]. split; [reflexivity |].
    split; [left; reflexivity |]. split; [| split; [reflexivity |]; split; [reflexivity |]].
    + intros l _. apply not_elem_of_empty.
    + intros key owner _ _ Hd. apply not_elem_of_empty in Hd. destruct Hd.
Qed.

Lemma clearFadedCells_traces currentTime alive w :
  mapsConsistent (this w) -> tracesOk (this w) ->
  tracesOk (this (exec (clearFadedCells currentTime alive) w)).
Proof.
  intros (_ & Hdom & _) [Hl Hc Hidx Hord Hends].
  destruct (clearFadedCells_pruned currentTime alive w)
    as (keys & dead & Hown & Hdead & Hlines & Hnot & Hcars & Hh & Hin).
  set (b' := this (exec (clearFadedCells currentTime alive) w)) in *.
  clearbody b'.
  assert (Hknown : forall id, id ∉ dead -> known (this w) id -> known b' id).
  { intros id Hid [Hk | Hk]; [left; rewrite Hcars; exact Hk | right].
    rewrite Hdead, lookup_foldr_delete_not_elem_of; [exact Hk |].
    rewrite elem_of_elements. exact Hid. }
  assert (Hsub : forall l, l ∈ allLines b' -> l ∈ allLines (this w)).
  { intros l Hin'. destruct Hlines as [Heq | Heq]; rewrite Heq in Hin';
      [exact Hin' |]. apply list_elem_of_filter in Hin'. tauto. }
  constructor.
  - intros l Hin'. apply Hknown; [apply Hnot, Hin' | apply Hl, Hsub, Hin'].
  - rewrite Hown. intros key owner Hk. rewrite deleteKeys_lookup in Hk.
    destruct (decide (key ∈ keys)) as [Hkey | Hkey]; [discriminate |].
    apply Hknown; [| eapply Hc, Hk].
    intros Hd. apply Hkey. apply (Hin key owner); [| exact Hk | exact Hd].
    apply elem_of_dom. rewrite Hdom. apply elem_of_dom. eauto.
  - destruct Hlines as [Heq | Heq]; rewrite Heq; [exact Hidx |].
    exact (indicesCountUp_filter (fun id => id <> 0%Z /\ id ∉ dead) _ Hidx).
  - rewrite Hcars. exact Hord.
  - rewrite Hh. intros l Hin'. apply Hends, Hsub, Hin'.
Qed.

(** The three invariants of a world, together. *)
Lemma frames_invariants n w :
  noDoubleOccupancy (this w) /\ wellFormedCars w /\ tracesOk (this w) ->
  let w' := frames sqrt random clock n w in
  noDoubleOccupancy (this w') /\ wellFormedCars w' /\ tracesOk (this w').
Proof.
  apply (frames_holds sqrt random clock
           (fun w => noDoubleOccupancy (this w) /\ wellFormedCars w
                     /\ tracesOk (this w))).
  - intros w' H. exact H.
  - intros w' H. exact H.
  - intros w' row col s p (H1 & H2 & H3) Hfree. split; [| split].
    + apply placeCar_ndo; assumption.
    + apply placeCar_wellFormed, H2.
    + apply placeCar_traces; assumption.
  - intros w' i mv (H1 & H2 & H3) Hmv. split; [| split].
    + apply executeMove_ndo, H1.
    + apply executeMove_wellFormed; assumption.
    + apply executeMove_traces; assumption.
  - intros w' i (H1 & H2 & H3). split; [| split].
    + apply dieOnTheSpot_ndo, H1.
    + apply dieOnTheSpot_wellFormed, H2.
    + apply dieOnTheSpot_traces; assumption.
  - intros w' i car (H1 & H2 & H3) Hi Hstuck. split; [| split].
    + apply retireCar_ndo; assumption.
    + apply retireCar_wellFormed, H2.
    + apply retireCar_traces; assumption.
  - intros w' id (H1 & H2 & H3) Hd. split; [| split].
    + apply removeCarTraces_ndo; assumption.
    + apply removeCarTraces_wellFormed, H2.
    + apply removeCarTraces_traces, H3.
  - intros w' t (H1 & H2 & H3). split; [| split].
    + apply clearFadedCells_ndo, H1.
    + apply clearFadedCells_wellFormed, H2.
    + apply clearFadedCells_traces; [apply (ndo_maps _ H1) | exact H3].
  - intros w' v (H1 & H2 & H3). split; [| split].
    + revert H1. apply ndo_same_cells; reflexivity.
    + exact H2.
    + destruct H3. constructor; assumption.
  - intros w' v (H1 & H2 & H3). split; [| split].
    + revert H1. apply ndo_same_cells; reflexivity.
    + exact H2.
    + destruct H3. constructor; assumption.
Qed.

Lemma init_invariants w :
  noDoubleOccupancy (this w) /\ wellFormedCars w /\ tracesOk (this w) ->
  let w' := exec (init sqrt random clock) w in
  noDoubleOccupancy (this w') /\ wellFormedCars w' /\ tracesOk (this w').
Proof.
  apply (init_holds sqrt random clock
           (fun w => noDoubleOccupancy (this w) /\ wellFormedCars w
                     /\ tracesOk (this w))).
  - intros w' H. exact H.
  - intros w' H. exact H.
  - intros w' row col s p (H1 & H2 & H3) Hfree. split; [| split].
    + apply placeCar_ndo; assumption.
    + apply placeCar_wellFormed, H2.
    + apply placeCar_traces; assumption.
  - intros w' i mv (H1 & H2 & H3) Hmv. split; [| split].
    + apply executeMove_ndo, H1.
    + apply executeMove_wellFormed; assumption.
    + apply executeMove_traces; assumption.
  - intros w' i (H1 & H2 & H3). split; [| split].
    + apply dieOnTheSpot_ndo, H1.
    + apply dieOnTheSpot_wellFormed, H2.
    + apply dieOnTheSpot_traces; assumption.
  - intros w' i car (H1 & H2 & H3) Hi Hstuck. split; [| split].
    + apply retireCar_ndo; assumption.
    + apply retireCar_wellFormed, H2.
    + apply retireCar_traces; assumption.
  - intros w' id (H1 & H2 & H3) Hd. split; [| split].
    + apply removeCarTraces_ndo; assumption.
    + apply removeCarTraces_wellFormed, H2.
    + apply removeCarTraces_traces, H3.
  - intros w' t (H1 & H2 & H3). split; [| split].
    + apply clearFadedCells_ndo, H1.
    + apply clearFadedCells_wellFormed, H2.
    + apply clearFadedCells_traces; [apply (ndo_maps _ H1) | exact H3].
  - intros w' v (H1 & H2 & H3). split; [| split].
    + revert H1. apply ndo_same_cells; reflexivity.
    + exact H2.
    + destruct H3. constructor; assumption.
  - intros w' v (H1 & H2 & H3). split; [| split].
    + revert H1. apply ndo_same_cells; reflexivity.
    + exact H2.
    + destruct H3. constructor; assumption.
Qed.

Lemma fields_tracesOk options innerWidth innerHeight :
  tracesOk (fields options innerWidth innerHeight).
Proof.
  constructor; simpl.
  - intros l Hl. inversion Hl.
  - intros key owner Hk. rewrite lookup_empty in Hk. discriminate.
  - intros id. reflexivity.
  - intros i j a c _ Hi. rewrite lookup_nil in Hi. discriminate.
  - intros l Hl. inversion Hl.
Qed.

Lemma new_tracesOk options innerWidth innerHeight w0 n :
  new sqrt random clock options innerWidth innerHeight = Returned w0 ->
  tracesOk (this (frames sqrt random clock n w0)).
Proof.
  intros Hnew. injection Hnew as <-.
  apply frames_invariants, init_invariants.
  split; [apply fields_ndo |]. split; [| apply fields_tracesOk].
  intros c Hc. simpl in Hc. inversion Hc.
Qed.

(** X13. No trace is orphaned: at every frame, every recorded segment and
    every cell of the tables belongs to a car that is alive or is listed in
    [deadCarIds] with its death time.  So in fading mode every segment of a
    car that is no longer alive has the death time its fading is computed
    from. *)
Theorem traces_have_known_owners (options : Options) (innerWidth innerHeight : Z)
    (w0 : World) (n : nat) :
  new sqrt random clock options innerWidth innerHeight = Returned w0 ->
  let b := this (frames sqrt random clock n w0) in
  (forall l, l ∈ allLines b ->
     carId l ∈ map Car.id (cars b) \/ is_Some (deadCarIds b !! carId l))
  /\ (forall key owner, cellOwners b !! key = Some owner ->
        owner ∈ map Car.id (cars b) \/ is_Some (deadCarIds b !! owner)).
Proof.
  intros Hnew b.
  destruct (new_tracesOk options innerWidth innerHeight w0 n Hnew) as [Hl Hc _ _ _].
  split; [exact Hl | exact Hc].
Qed.

(** X14. The segment indices of every car count up from 0: at every frame
    the segments of a car, in the order of [allLines], carry the indices
    0, 1, 2, ... without a gap, death dot included. *)
Theorem segment_indices_count_up (options : Options) (innerWidth innerHeight : Z)
    (w0 : World) (n : nat) (id : Z) :
  new sqrt random clock options innerWidth innerHeight = Returned w0 ->
  let own := filter (fun l => carId l = id)
               (allLines (this (frames sqrt random clock n w0))) in
  map segmentIndex own = seqZ 0 (Z.of_nat (length own))
  /\ forall j l, own !! j = Some l -> segmentIndex l = Z.of_nat j.
Proof.
  intros Hnew own.
  destruct (new_tracesOk options innerWidth innerHeight w0 n Hnew) as [_ _ Hidx _ _].
  specialize (Hidx id). fold own in Hidx. unfold ownLines in Hidx. fold own in Hidx.
  split; [exact Hidx |].
  intros j l Hj.
  assert (Hm : map segmentIndex own !! j = Some (segmentIndex l))
    by (rewrite map_fmap, list_lookup_fmap, Hj; reflexivity).
  rewrite Hidx in Hm. apply lookup_seqZ in Hm. lia.
Qed.

(** X15. The live cars stand in [cars] in the order in which they were
    spawned: at every frame their ids increase strictly along the list.
    The loops over [cars], PHASE 3 among them, therefore visit an older car
    before a younger one. *)
Theorem cars_in_spawn_order (options : Options) (innerWidth innerHeight : Z)
    (w0 : World) (n i j : nat) (c1 c2 : Car.t) :
  new sqrt random clock options innerWidth innerHeight = Returned w0 ->
  cars (this (frames sqrt random clock n w0)) !! i = Some c1 ->
  cars (this (frames sqrt random clock n w0)) !! j = Some c2 ->
  (i < j)%nat ->
  (Car.id c1 < Car.id c2)%Z.
Proof.
  intros Hnew Hi Hj Hij.
  destruct (new_tracesOk options innerWidth innerHeight w0 n Hnew) as [_ _ _ Hord _].
  apply (Hord i j); [exact Hij | |].
  - rewrite map_fmap, list_lookup_fmap, Hi. reflexivity.
  - rewrite map_fmap, list_lookup_fmap, Hj. reflexivity.
Qed.

(** X16. Both ends of every recorded segment are lattice points of the
    board, at every frame: the traces run from lattice point to lattice
    point and the death dots sit on one. *)
Theorem trace_ends_on_lattice (options : Options) (innerWidth innerHeight : Z)
    (w0 : World) (n : nat) (l : Segment) :
  new sqrt random clock options innerWidth innerHeight = Returned w0 ->
  l ∈ allLines (this (frames sqrt random clock n w0)) ->
  let h := hexSize (this (frames sqrt random clock n w0)) in
  (exists row col, (x1 l, y1 l) = gridPoint h row col)
  /\ (exists row col, (x2 l, y2 l) = gridPoint h row col).
Proof.
  intros Hnew Hl h.
  destruct (new_tracesOk options innerWidth innerHeight w0 n Hnew) as [_ _ _ _ Hends].
  apply Hends, Hl.
Qed.

End Traces.

(** ** The selection of a strategy *)

Section Selection.

Import CircuitBoard.

Variable random : nat -> unit_draw.

#[local] Open Scope Q_scope.

Lemma fold_left_Qplus (l : list Q) (a : Q) : fold_left Qplus l a == a + sumQ l.
Proof.
  revert a. induction l as [| x l IH]; intros a; simpl.
  - ring.
  - rewrite -> IH. unfold sumQ. ring.
Qed.

Lemma leb_comp a b a' b' : a == a' -> b == b' -> JS.leb a b = JS.leb a' b'.
Proof. intros Ha Hb. unfold JS.leb. rewrite -> Ha, -> Hb. reflexivity. Qed.

(** The loop of the selection returns the first strategy whose cumulative
    weight reaches the scaled draw, and falls through to its fallback only
    when the draw lies above the sum of all weights. *)
Lemma roulette_least (r cum : Q) (weights : list Q) (strats : list Strategy) :
  length weights = length strats ->
  weights <> [] ->
  r <= cum + sumQ weights ->
  exists i s,
    strats !! i = Some s
    /\ roulette r cum weights strats = s
    /\ r <= cum + sumQ (take (S i) weights)
    /\ forall j, (j < i)%nat -> cum + sumQ (take (S j) weights) < r.
Proof.
  revert cum strats. induction weights as [| x weights IH]; intros cum strats Hlen Hne Hr;
    [congruence |].
  destruct strats as [| s strats]; [discriminate |].
  cbn [roulette]. destruct (JS.leb r (cum + x)) eqn:Hle.
  - exists 0%nat, s. split; [reflexivity |]. split; [reflexivity |]. split.
    + apply leb_le in Hle. cbn [take sumQ foldr]. unfold sumQ. simpl. lra.
    + intros j Hj. lia.
  - apply leb_gt in Hle.
    assert (Hne' : weights <> []).
    { intros ->. unfold sumQ in Hr. simpl in Hr. lra. }
    destruct (IH (cum + x) strats) as (i & s' & Hi & Hres & Hub & Hlow).
    + simpl in Hlen. lia.
    + exact Hne'.
    + unfold sumQ in *. simpl in Hr. lra.
    + exists (S i), s'. split; [exact Hi |]. split; [exact Hres |]. split.
      * change (take (S (S i)) (x :: weights)) with (x :: take (S i) weights).
        unfold sumQ in *. simpl foldr. simpl foldr in Hub. lra.
      * intros j Hj. destruct j as [| j].
        -- unfold sumQ. simpl. lra.
        -- change (take (S (S j)) (x :: weights)) with (x :: take (S j) weights).
           assert (Hj' : (j < i)%nat) by lia. specialize (Hlow j Hj').
           unfold sumQ in *. simpl foldr. simpl foldr in Hlow. lra.
Qed.

Lemma strategyWeight_nonneg f : 0 <= strategyWeight f.
Proof.
  unfold strategyWeight. destruct (0 <? count f)%Z; cbv zeta iota; [| lra].
  unfold JS.Math_pow2.
  match goal with |- 0 <= ?x * ?x => generalize x; intros q; nra end.
Qed.

(** X17. The selection of a strategy is a roulette wheel over the weights.
    It draws twice.  When the first draw is below the mutation rate, the
    second draw picks one of the four strategies uniformly.  Otherwise,
    unless all weights are 0, the second draw is scaled by the total weight
    and the strategy chosen is the first one, in the order of the array,
    whose cumulative weight reaches it: the fallback behind the loop is
    never reached.  A strategy that has no retired car yet has weight 1,
    and no weight is negative. *)
Theorem selection_is_roulette (w : World) :
  let b := this w in
  let r := draw_val (random (randomCalls w)) in
  let r' := draw_val (random (S (randomCalls w))) in
  let s := eval (selectStrategyByFitness random) w in
  exec (selectStrategyByFitness random) w = advance 2 w
  /\ (r < mutationRate b -> s = strategyAt (JS.Math_floor (r' * 4)))
  /\ (mutationRate b <= r -> totalWeight b == 0 ->
      s = strategyAt (JS.Math_floor (r' * 4)))
  /\ (mutationRate b <= r -> ~ totalWeight b == 0 ->
      exists i,
        strategies !! i = Some s
        /\ r' * totalWeight b <= cumWeight b i
        /\ forall j, (j < i)%nat -> cumWeight b j < r' * totalWeight b)
  /\ (forall st, 0 <= weightOf b st)
  /\ (forall st, (count (fitnessOf (strategyFitness b) st) <= 0)%Z ->
        weightOf b st = 1).
Proof.
  intros b r r' s.
  set (weights := map (weightOf b) strategies).
  assert (Htotal : fold_left Qplus weights 0 == totalWeight b).
  { rewrite -> fold_left_Qplus. unfold totalWeight. fold weights. ring. }
  assert (Hs : s = if JS.ltb r (mutationRate b)
                   then strategyAt (JS.Math_floor (r' * 4))
                   else if JS.eqb (fold_left Qplus weights 0) 0
                        then strategyAt (JS.Math_floor (r' * 4))
                        else roulette (r' * fold_left Qplus weights 0) 0 weights
                               strategies).
  { unfold s, selectStrategyByFitness. rewrite !eval_bind.
    change (eval (Math_random random) w) with r.
    rewrite (eval_get (exec (Math_random random) w)).
    change (this (exec (Math_random random) w)) with b.
    destruct (JS.ltb r (mutationRate b)); [reflexivity |].
    fold (weightOf b). fold weights.
    destruct (JS.eqb (fold_left Qplus weights 0) 0); reflexivity. }
  split; [| split; [| split; [| split; [| split]]]].
  - apply selectStrategy_advance.
  - intros Hlt. apply ltb_lt in Hlt. rewrite Hs, Hlt. reflexivity.
  - intros Hge Hzero. rewrite Hs.
    destruct (JS.ltb r (mutationRate b)) eqn:Hlt; [reflexivity |].
    rewrite <- Htotal in Hzero. apply eqb_eq in Hzero. rewrite Hzero. reflexivity.
  - intros Hge Hnz.
    assert (Hlt : JS.ltb r (mutationRate b) = false).
    { destruct (JS.ltb r (mutationRate b)) eqn:Hlt; [| reflexivity].
      apply ltb_lt in Hlt. lra. }
    assert (Hnz' : JS.eqb (fold_left Qplus weights 0) 0 = false).
    { destruct (JS.eqb (fold_left Qplus weights 0) 0) eqn:Hz; [| reflexivity].
      apply eqb_eq in Hz. rewrite -> Htotal in Hz. contradiction. }
    rewrite Hlt, Hnz' in Hs.
    assert (Hpos : 0 < totalWeight b).
    { assert (0 <= totalWeight b).
      { unfold totalWeight, strategies, sumQ. simpl.
        pose proof (strategyWeight_nonneg (fitnessOf (strategyFitness b) WallFollower)).
        pose proof (strategyWeight_nonneg (fitnessOf (strategyFitness b) Wanderer)).
        pose proof (strategyWeight_nonneg (fitnessOf (strategyFitness b) Explorer)).
        pose proof (strategyWeight_nonneg (fitnessOf (strategyFitness b) Spiral)).
        unfold weightOf. lra. }
      destruct (Qlt_le_dec 0 (totalWeight b)) as [H1 | H1]; [exact H1 |].
      exfalso. apply Hnz. lra. }
    destruct (draw_range (random (S (randomCalls w)))) as (Hr0 & Hr1).
    fold r' in Hr0, Hr1.
    destruct (roulette_least (r' * fold_left Qplus weights 0) 0 weights strategies)
      as (i & s' & Hi & Hres & Hub & Hlow).
    + reflexivity.
    + discriminate.
    + rewrite -> Htotal. unfold totalWeight in Hpos |- *. fold weights in Hpos |- *.
      revert Hpos Hr0 Hr1. generalize (sumQ weights). generalize (draw_val r').
      intros q T HT Hq0 Hq1. nra.
    + exists i. rewrite Hs, Hres. split; [exact Hi |].
      unfold cumWeight. rewrite map_fmap, fmap_take, <- map_fmap. fold weights. split.
      * rewrite <- Htotal. lra.
      * intros j Hj. specialize (Hlow j Hj).
        rewrite map_fmap, fmap_take, <- map_fmap. fold weights.
        rewrite <- Htotal. lra.
  - intros st. apply strategyWeight_nonneg.
  - intros st Hc. unfold weightOf, strategyWeight.
    destruct (0 <? _)%Z eqn:Hpos; [| reflexivity].
    apply Z.ltb_lt in Hpos. lia.
Qed.

End Selection.

(** ** Resizing the window *)

Section Resize.

Import CircuitBoard.

Variable random : nat -> unit_draw.
Variable clock : nat -> Z.

#[local] Open Scope Q_scope.

Lemma clearForResize_invariants nw nh w :
  let w' := exec (modify (clearForResize nw nh)) w in
  noDoubleOccupancy (this w') /\ wellFormedCars w' /\ tracesOk (this w').
Proof.
  intros w'. subst w'. split; [| split].
  - constructor; simpl.
    + split; [reflexivity |]. split; [reflexivity |]. simpl.
      intros key v Hk. rewrite lookup_empty in Hk. discriminate.
    + apply NoDup_nil_2.
    + intros c Hc. inversion Hc.
    + intros id [v Hv]. rewrite lookup_empty in Hv. discriminate.
    + intros c Hc. inversion Hc.
    + intros c Hc. inversion Hc.
  - intros c Hc. simpl in Hc. inversion Hc.
  - constructor; simpl.
    + intros l Hl. inversion Hl.
    + intros key owner Hk. rewrite lookup_empty in Hk. discriminate.
    + intros id. reflexivity.
    + intros i j a c _ Hi. rewrite lookup_nil in Hi. discriminate.
    + intros l Hl. inversion Hl.
Qed.

(** X18. Resizing the window.  [onResize] changes nothing itself; it
    schedules no reset when the width and the height of the canvas both
    change by less than 150 pixels, and a reset to the new size otherwise.
    The reset clears the cars, the cells, the segments and the list of dead
    cars and gives the canvas its new size, but it keeps the fitness table
    and the id counter: what the strategies have earned survives, and no id
    of the cars spawned afterwards has been used before.  The board it
    leaves satisfies the invariants of the frames again. *)
Theorem resize_restarts_but_keeps_fitness (w : World) (innerWidth innerHeight : Z)
    (nw nh : Q) :
  let b := this w in
  let newWidth := inject_Z (innerWidth + 600) in
  let newHeight := inject_Z (innerHeight + 600) in
  let w' := exec (resizeReset random clock nw nh) w in
  let b' := this w' in
  exec (onResize innerWidth innerHeight) w = w
  /\ (eval (onResize innerWidth innerHeight) w = None
      <-> Qabs (newWidth - canvasWidth b) < 150
          /\ Qabs (newHeight - canvasHeight b) < 150)
  /\ (eval (onResize innerWidth innerHeight) w = None
      \/ eval (onResize innerWidth innerHeight) w = Some (newWidth, newHeight))
  /\ strategyFitness b' = strategyFitness b
  /\ (nextCarId b <= nextCarId b')%Z
  /\ (forall c, c ∈ cars b' -> (nextCarId b <= Car.id c < nextCarId b')%Z)
  /\ allLines b' = []
  /\ deadCarIds b' = ∅
  /\ (canvasWidth b' = nw /\ canvasHeight b' = nh)
  /\ (hexSize b' = hexSize b /\ maxCars b' = maxCars b
      /\ mutationRate b' = mutationRate b
      /\ infiniteLifetime b' = infiniteLifetime b
      /\ traceLifetime b' = traceLifetime b
      /\ fadeDuration b' = fadeDuration b
      /\ lineWidth b' = lineWidth b
      /\ stepDelay b' = stepDelay b /\ spawnDelay b' = spawnDelay b
      /\ lastStepTime b' = lastStepTime b)
  /\ noDoubleOccupancy b' /\ wellFormedCars w' /\ tracesOk b'
  /\ withinCeiling b'.
Proof.
  intros b newWidth newHeight w' b'.
  split; [| split; [| split]].
  - unfold onResize. rewrite exec_bind, (exec_get w), (eval_get w).
    destruct (_ && _); reflexivity.
  - unfold onResize. rewrite eval_bind, (exec_get w), (eval_get w).
    fold b. change (inject_Z (innerWidth + 300 * 2)) with newWidth.
    change (inject_Z (innerHeight + 300 * 2)) with newHeight.
    destruct (JS.ltb (Qabs (newWidth - canvasWidth b)) 150) eqn:H1;
      destruct (JS.ltb (Qabs (newHeight - canvasHeight b)) 150) eqn:H2;
      cbn [andb]; rewrite eval_ret;
      try apply ltb_lt in H1; try apply ltb_lt in H2;
      try apply ltb_ge in H1; try apply ltb_ge in H2;
      (split; [intros H; try discriminate; split; assumption
              | intros (Ha & Hb); try reflexivity; exfalso; lra]).
  - unfold onResize. rewrite eval_bind, (exec_get w), (eval_get w).
    destruct (_ && _); rewrite eval_ret; [left | right]; reflexivity.
  - set (w1 := exec (modify (clearForResize nw nh)) w).
    set (l := seqZ 0 (JS.Math_ceil (maxCars (this w1)))).
    assert (Hrun : w' = if JS.eqb (spawnDelay (this w1)) 0
                        then exec (forM_ l (fun _ => _ <- spawnCar random clock ;; ret tt)) w1
                        else w1).
    { unfold w', resizeReset. rewrite !exec_bind. fold w1.
      rewrite (exec_get w1), (eval_get w1). fold l.
      destruct (JS.eqb (spawnDelay (this w1)) 0); reflexivity. }
    assert (Hgen : forall (l' : list Z) w2,
              restartedFrom b nw nh w2 ->
              restartedFrom b nw nh
                (exec (forM_ l' (fun _ => _ <- spawnCar random clock ;; ret tt)) w2)).
    { intros l'. apply (forM_keeps (restartedFrom b nw nh)). intros _ w2 H2.
      rewrite exec_bind, exec_ret. revert H2.
      apply (spawnCar_holds random clock (restartedFrom b nw nh)).
      - intros w3 H. exact H.
      - intros w3 row col s p (H1 & H2 & H3 & H4 & H5 & H6 & H7 & H8 & H9 & H10) Hfree.
        pose proof (placeCar_ndo random clock _ _ s w3 H8 Hfree) as Hndo.
        pose proof (placeCar_wellFormed random clock w3 row col s H9) as Hwf.
        pose proof (placeCar_traces random clock (fst p) (snd p)
                      (getHexKey (fst p) (snd p)) s w3 H8 H10) as Htr.
        fold p in Hwf.
        set (w4 := exec (placeCar random clock (fst p) (snd p)
                           (getHexKey (fst p) (snd p)) s) w3) in *.
        assert (Hn : nextCarId (this w4) = (nextCarId (this w3) + 1)%Z) by reflexivity.
        assert (Hcars : exists car, cars (this w4) = cars (this w3) ++ [car]
                                    /\ Car.id car = nextCarId (this w3))
          by (eexists; split; reflexivity).
        assert (Hrest : strategyFitness (this w4) = strategyFitness (this w3)
                        /\ allLines (this w4) = allLines (this w3)
                        /\ deadCarIds (this w4) = deadCarIds (this w3)
                        /\ canvasWidth (this w4) = canvasWidth (this w3)
                        /\ canvasHeight (this w4) = canvasHeight (this w3)
                        /\ hexSize (this w4) = hexSize (this w3)
                        /\ maxCars (this w4) = maxCars (this w3)
                        /\ mutationRate (this w4) = mutationRate (this w3)
                        /\ infiniteLifetime (this w4) = infiniteLifetime (this w3)
                        /\ traceLifetime (this w4) = traceLifetime (this w3)
                        /\ fadeDuration (this w4) = fadeDuration (this w3)
                        /\ lineWidth (this w4) = lineWidth (this w3)
                        /\ stepDelay (this w4) = stepDelay (this w3)
                        /\ spawnDelay (this w4) = spawnDelay (this w3)
                        /\ lastStepTime (this w4) = lastStepTime (this w3))
          by (repeat split).
        clearbody w4. destruct Hcars as (car & Hcars & Hid).
        destruct Hrest as (R1 & R2 & R3 & R4 & R5 & R6 & R7 & R8 & R9 & R10 & R11 & R12
                           & R13 & R14 & R15).
        unfold restartedFrom. cbv zeta.
        rewrite R1, R2, R3, R4, R5, R6, R7, R8, R9, R10, R11, R12, R13, R14, R15,
          Hn, Hcars.
        split; [exact H1 |]. split; [lia |]. split.
        { intros c Hc. apply elem_of_app in Hc. destruct Hc as [Hc | Hc].
          - specialize (H3 c Hc). lia.
          - apply list_elem_of_singleton in Hc. subst c. lia. }
        split; [exact H4 |]. split; [exact H5 |]. split; [exact H6 |].
        split; [exact H7 |]. split; [exact Hndo |]. split; [exact Hwf | exact Htr]. }
    assert (H1 : restartedFrom b nw nh w1).
    { split; [reflexivity |]. split; [exact (Z.le_refl _) |]. split.
      { intros c Hc. unfold w1 in Hc. simpl in Hc. inversion Hc. }
      split; [reflexivity |]. split; [reflexivity |]. split; [split; reflexivity |].
      split; [repeat split |]. apply clearForResize_invariants. }
    assert (Hceil : withinCeiling b').
    { unfold b'. rewrite Hrun. destruct (JS.eqb (spawnDelay (this w1)) 0).
      - destruct (spawn_all_population random clock l w1) as (Hm & Hlen).
        unfold withinCeiling, carCeiling. rewrite Hm. unfold l in Hlen |- *.
        rewrite length_seqZ in Hlen.
        change (length (cars (this w1))) with 0%nat in Hlen.
        unfold JS.Math_ceil in *. lia.
      - unfold withinCeiling, carCeiling.
        change (length (cars (this w1))) with 0%nat. lia. }
    assert (Hall := Hgen l w1 H1). unfold restartedFrom in Hall, H1.
    cbv zeta in Hall, H1. unfold b'. rewrite Hrun.
    destruct (JS.eqb (spawnDelay (this w1)) 0).
    + destruct Hall as (A1 & A2 & A3 & A4 & A5 & A6 & A7 & A8 & A9 & A10).
      unfold b' in Hceil. rewrite Hrun in Hceil.
      repeat (split; [assumption |]). exact Hceil.
    + destruct H1 as (A1 & A2 & A3 & A4 & A5 & A6 & A7 & A8 & A9 & A10).
      unfold b' in Hceil. rewrite Hrun in Hceil.
      repeat (split; [assumption |]). exact Hceil.
Qed.

End Resize.

(** ** The theorems of this part at concrete inputs *)

Section ExtraRuns.

Import CircuitBoard.

#[local] Open Scope Q_scope.

Lemma lattice_step_witness :
  Car.hexDirections 100 1 = Some {| Car.dx := 100 / 2; Car.dy := 100 * 0.866 |}
  /\ neighborCell (fst (neighborCell 2 3 1)) (snd (neighborCell 2 3 1)) (Z.rem (1 + 3) 6)
     = (2%Z, 3%Z).
Proof.
  assert (H : Car.hexDirections 100 1
              = Some {| Car.dx := 100 / 2; Car.dy := 100 * 0.866 |}) by reflexivity.
  split; [exact H |].
  exact (proj2 (lattice_step 100 2 3 1 _ H)).
Defined.

Lemma snapToGrid_idempotent_witness :
  ~ 100 == 0
  /\ snapToGrid 100 (fst (snapToGrid 100 130 70)) (snd (snapToGrid 100 130 70))
     = snapToGrid 100 130 70.
Proof.
  assert (H : ~ 100 == 0) by discriminate.
  split; [exact H |].
  exact (snapToGrid_idempotent 100 130 70 H).
Defined.

Lemma eagerWorld_new :
  new JS.sqrt_milli demoRandom demoClock eagerOptions 400 400 = Returned eagerWorld.
Proof. unfold new, eagerWorld, worldOf. reflexivity. Qed.

Lemma live_cars_on_lattice_witness :
  new JS.sqrt_milli demoRandom demoClock eagerOptions 400 400 = Returned eagerWorld
  /\ carAt eagerFrame 1
     ∈ cars (this (frames JS.sqrt_milli demoRandom demoClock 1 eagerWorld))
  /\ (0 <= Car.currentDirection (carAt eagerFrame 1) < 6)%Z.
Proof.
  assert (Hnew : new JS.sqrt_milli demoRandom demoClock eagerOptions 400 400
                 = Returned eagerWorld) by exact eagerWorld_new.
  assert (Hin : carAt eagerFrame 1
                ∈ cars (this (frames JS.sqrt_milli demoRandom demoClock 1 eagerWorld))).
  { vm_compute. apply list_elem_of_further, list_elem_of_here. }
  split; [exact Hnew |]. split; [exact Hin |].
  destruct (live_cars_on_lattice JS.sqrt_milli demoRandom demoClock eagerOptions
              400 400 eagerWorld 1 (carAt eagerFrame 1) Hnew Hin)
    as (_ & _ & _ & _ & H & _).
  exact H.
Defined.

Lemma calculated_move_commits_on_tested_key_witness :
  cars (this (worldOf latticeBoard)) !! 0%nat = Some latticeCar
  /\ eval (calculateMove JS.sqrt_milli demoRandom latticeCar) (worldOf latticeBoard)
     = Some latticeMove
  /\ ~ occupied (occupiedCells (this (worldOf latticeBoard)))
        (getHexKey (x latticeMove) (y latticeMove)).
Proof.
  assert (H4 : cars (this (worldOf latticeBoard)) !! 0%nat = Some latticeCar)
    by reflexivity.
  assert (H5 : eval (calculateMove JS.sqrt_milli demoRandom latticeCar)
                 (worldOf latticeBoard) = Some latticeMove)
    by (vm_compute; reflexivity).
  repeat (split; [assumption |]).
  destruct (calculated_move_commits_on_tested_key JS.sqrt_milli demoRandom demoClock
              (worldOf latticeBoard) 0 latticeCar latticeMove H4 H5)
    as (_ & H & _).
  exact H.
Defined.

Lemma calculateMove_choice_witness :
  (0 <= Car.currentDirection latticeCar < 6)%Z
  /\ (eval (calculateMove JS.sqrt_milli demoRandom latticeCar) (worldOf latticeBoard)
      = None
      <-> forall d, (0 <= d < 6)%Z ->
            Car.tryDirection JS.sqrt_milli latticeCar d (occupiedCells latticeBoard)
              (canvasWidth latticeBoard) (canvasHeight latticeBoard)
              (allLines latticeBoard) = None).
Proof.
  assert (H : (0 <= Car.currentDirection latticeCar < 6)%Z) by (simpl; lia).
  split; [exact H |].
  destruct (calculateMove_choice JS.sqrt_milli demoRandom latticeCar
              (worldOf latticeBoard) H) as (_ & _ & Hall).
  apply Hall. discriminate.
Defined.

Lemma pruning_pass_witness :
  infiniteLifetime (this (worldOf pruningBoard)) = false
  /\ Z.rem (cleanupFrameCounter (this (worldOf pruningBoard)) + 1) 10 = 0%Z
  /\ cars (this (exec (clearFadedCells 10000
                         (list_to_set (map Car.id (cars pruningBoard))))
                   (worldOf pruningBoard)))
     = cars pruningBoard.
Proof.
  assert (H1 : infiniteLifetime (this (worldOf pruningBoard)) = false) by reflexivity.
  assert (H2 : Z.rem (cleanupFrameCounter (this (worldOf pruningBoard)) + 1) 10 = 0%Z)
    by reflexivity.
  split; [exact H1 |]. split; [exact H2 |].
  destruct (pruning_pass (worldOf pruningBoard) 10000
              (list_to_set (map Car.id (cars pruningBoard))) H1 H2)
    as (_ & _ & _ & _ & _ & _ & H).
  exact H.
Defined.

Lemma configuration_is_constant_witness :
  new JS.sqrt_milli demoRandom demoClock eagerOptions 400 400 = Returned eagerWorld
  /\ ~ hexSize (this (frames JS.sqrt_milli demoRandom demoClock 1 eagerWorld)) == 0.
Proof.
  assert (Hnew : new JS.sqrt_milli demoRandom demoClock eagerOptions 400 400
                 = Returned eagerWorld) by exact eagerWorld_new.
  split; [exact Hnew |].
  destruct (configuration_is_constant JS.sqrt_milli demoRandom demoClock eagerOptions
              400 400 eagerWorld 1 Hnew) as (_ & H & _).
  exact H.
Defined.

Lemma population_ceiling_witness :
  new JS.sqrt_milli demoRandom demoClock eagerOptions 400 400 = Returned eagerWorld
  /\ maxCars (this (frames JS.sqrt_milli demoRandom demoClock 1 eagerWorld)) = 2.
Proof.
  assert (Hnew : new JS.sqrt_milli demoRandom demoClock eagerOptions 400 400
                 = Returned eagerWorld) by exact eagerWorld_new.
  split; [exact Hnew |].
  destruct (population_ceiling JS.sqrt_milli demoRandom demoClock eagerOptions
              400 400 eagerWorld 1 Hnew) as (H & _).
  exact H.
Defined.

Lemma frame_without_step_witness :
  inject_Z (demoClock (clockCalls (worldOf steppedBoard))
            - lastStepTime (this (worldOf steppedBoard)))
  < stepDelay (this (worldOf steppedBoard))
  /\ eval (draw JS.sqrt_milli demoRandom demoClock) (worldOf steppedBoard) = [].
Proof.
  assert (H : inject_Z (demoClock (clockCalls (worldOf steppedBoard))
                        - lastStepTime (this (worldOf steppedBoard)))
              < stepDelay (this (worldOf steppedBoard))) by reflexivity.
  split; [exact H |].
  destruct (frame_without_step JS.sqrt_milli demoRandom demoClock
              (worldOf steppedBoard) H) as (H' & _).
  exact H'.
Defined.

Lemma traces_have_known_owners_witness :
  new JS.sqrt_milli demoRandom demoClock eagerOptions 400 400 = Returned eagerWorld
  /\ forall l,
       l ∈ allLines (this (frames JS.sqrt_milli demoRandom demoClock 1 eagerWorld)) ->
       carId l ∈ map Car.id
                   (cars (this (frames JS.sqrt_milli demoRandom demoClock 1 eagerWorld)))
       \/ is_Some (deadCarIds
                     (this (frames JS.sqrt_milli demoRandom demoClock 1 eagerWorld))
                   !! carId l).
Proof.
  assert (Hnew : new JS.sqrt_milli demoRandom demoClock eagerOptions 400 400
                 = Returned eagerWorld) by exact eagerWorld_new.
  split; [exact Hnew |].
  exact (proj1 (traces_have_known_owners JS.sqrt_milli demoRandom demoClock
                  eagerOptions 400 400 eagerWorld 1 Hnew)).
Defined.

Lemma segment_indices_count_up_witness :
  new JS.sqrt_milli demoRandom demoClock eagerOptions 400 400 = Returned eagerWorld
  /\ map segmentIndex
       (filter (fun l => carId l = 1%Z)
          (allLines (this (frames JS.sqrt_milli demoRandom demoClock 1 eagerWorld))))
     = seqZ 0
         (Z.of_nat
            (length
               (filter (fun l => carId l = 1%Z)
                  (allLines
                     (this (frames JS.sqrt_milli demoRandom demoClock 1 eagerWorld)))))).
Proof.
  assert (Hnew : new JS.sqrt_milli demoRandom demoClock eagerOptions 400 400
                 = Returned eagerWorld) by exact eagerWorld_new.
  split; [exact Hnew |].
  exact (proj1 (segment_indices_count_up JS.sqrt_milli demoRandom demoClock
                  eagerOptions 400 400 eagerWorld 1 1 Hnew)).
Defined.

Lemma cars_in_spawn_order_witness :
  new JS.sqrt_milli demoRandom demoClock eagerOptions 400 400 = Returned eagerWorld
  /\ cars (this (frames JS.sqrt_milli demoRandom demoClock 1 eagerWorld)) !! 0%nat
     = Some (carAt eagerFrame 0)
  /\ cars (this (frames JS.sqrt_milli demoRandom demoClock 1 eagerWorld)) !! 1%nat
     = Some (carAt eagerFrame 1)
  /\ (0 < 1)%nat
  /\ (Car.id (carAt eagerFrame 0) < Car.id (carAt eagerFrame 1))%Z.
Proof.
  assert (Hnew : new JS.sqrt_milli demoRandom demoClock eagerOptions 400 400
                 = Returned eagerWorld) by exact eagerWorld_new.
  assert (H0 : cars (this (frames JS.sqrt_milli demoRandom demoClock 1 eagerWorld))
               !! 0%nat = Some (carAt eagerFrame 0)) by (vm_compute; reflexivity).
  assert (H1 : cars (this (frames JS.sqrt_milli demoRandom demoClock 1 eagerWorld))
               !! 1%nat = Some (carAt eagerFrame 1)) by (vm_compute; reflexivity).
  assert (Hlt : (0 < 1)%nat) by lia.
  repeat (split; [assumption |]).
  exact (cars_in_spawn_order JS.sqrt_milli demoRandom demoClock eagerOptions 400 400
           eagerWorld 1 0 1 _ _ Hnew H0 H1 Hlt).
Defined.

Lemma trace_ends_on_lattice_witness :
  new JS.sqrt_milli demoRandom demoClock eagerOptions 400 400 = Returned eagerWorld
  /\ lineAt eagerFrame 0
     ∈ allLines (this (frames JS.sqrt_milli demoRandom demoClock 1 eagerWorld))
  /\ exists row col,
       (x2 (lineAt eagerFrame 0), y2 (lineAt eagerFrame 0))
       = gridPoint
           (hexSize (this (frames JS.sqrt_milli demoRandom demoClock 1 eagerWorld)))
           row col.
Proof.
  assert (Hnew : new JS.sqrt_milli demoRandom demoClock eagerOptions 400 400
                 = Returned eagerWorld) by exact eagerWorld_new.
  assert (Hin : lineAt eagerFrame 0
                ∈ allLines (this (frames JS.sqrt_milli demoRandom demoClock 1
                                    eagerWorld))).
  { vm_compute. apply list_elem_of_here. }
  split; [exact Hnew |]. split; [exact Hin |].
  exact (proj2 (trace_ends_on_lattice JS.sqrt_milli demoRandom demoClock eagerOptions
                  400 400 eagerWorld 1 _ Hnew Hin)).
Defined.

End ExtraRuns.
